(** * Letter Boxed solver: trie, single-word search and chain search

    A shallow embedding of [letterboxed.py].  Python values are modelled as
    follows:

    - [str] is [string]; a one-character [str] (what iterating over a word
      yields) is a [string] of length one, built by [str1];
    - the letters on an [Edge] are single characters ([ascii]); an
      [Optional[Edge]] is an [option Edge];
    - a [dict] is a [gmap]; the trie's [nodes] dictionary is keyed by
      one-character strings;
    - a node of the trie is exclusively owned by its parent, so mutation in
      place is modelled by rebuilding the path from the root;
    - exceptions are explicit outcomes of the chain search, whose [while True]
      loop is driven by a step budget; [search_terminates] gives a budget
      that is always enough;
    - [Interp] runs [LetterNode.search] and an iteration of the chain search
      statement by statement, a call returning a list or [None], raising, or
      nesting too deep; [search_loop_runs] relates the two readings. *)

From stdpp Require Import gmap strings list fin_maps sorting.
From Stdlib Require Import Ascii ZArith Lia.

Local Open Scope Z_scope.
Local Open Scope nat_scope.

(* The trie is nested in [gmap], for which no [All] scheme is registered;
   stdpp's case analysis tactics clear hypotheses that may be gone. *)
Local Set Warnings "-register-all,-clear-no-such-hyp".

(** ** Strings as Python sees them *)

(** The one-character string holding [c]. *)
Definition str1 (c : ascii) : string := String c EmptyString.

(** [list(word)], and what [for letter in word] iterates over: the
    one-character strings of [word], in order. *)
Fixpoint chars (word : string) : list string :=
  match word with
  | EmptyString => []
  | String c rest => str1 c :: chars rest
  end.

(** The characters of a word as [ascii] values. *)
Fixpoint letters_of (word : string) : list ascii :=
  match word with
  | EmptyString => []
  | String c rest => c :: letters_of rest
  end.

(** [sep.join(words)]. *)
Fixpoint join (sep : string) (words : list string) : string :=
  match words with
  | [] => ""
  | [w] => w
  | w :: rest => w +:+ sep +:+ join sep rest
  end.

(** ** Puzzle model *)

(** [class Edge(NamedTuple)]: equality and hashing are those of the tuple of
    its three letters. *)
Record Edge : Type := mkEdge { a : ascii; b : ascii; c : ascii }.

Global Instance Edge_eq_dec : EqDecision Edge.
Proof. solve_decision. Defined.

Global Instance Edge_countable : Countable Edge.
Proof.
  refine (inj_countable' (λ e, (a e, b e, c e))
                         (λ t, mkEdge t.1.1 t.1.2 t.2) _).
  by intros [].
Defined.

(** [for letter in edge]. *)
Definition edge_letters (e : Edge) : list ascii := [a e; b e; c e].

(** [class Puzzle(NamedTuple)]. *)
Record Puzzle : Type := mkPuzzle
  { left : Edge; right : Edge; top : Edge; bottom : Edge }.

(** [for edge in puzzle]. *)
Definition edges (p : Puzzle) : list Edge := [left p; right p; top p; bottom p].

(** ** Trie *)

Module LetterNode.

(** [class LetterNode]: the letter of the node (the root carries [""]),
    the explicit terminal flag, and the children by letter. *)
Inductive t : Type :=
  Node { letter : string; terminal : bool; nodes : gmap string t }.

(** [LetterNode(letter)]. *)
Definition new (letter : string) : t := Node letter false ∅.

(** [word]: [len(self.nodes) == 0 or self.terminal]. *)
Definition word (self : t) : bool :=
  Nat.eqb (size (nodes self)) 0 || terminal self.

(** [add]: [self.nodes[node.letter] = node]. *)
Definition add (self node : t) : t :=
  Node (letter self) (terminal self) (<[letter node := node]> (nodes self)).

(** [get], called with a [str]: the child for [letter], or [None]. *)
Definition get (self : t) (letter : string) : option t := nodes self !! letter.

(** [self.terminal = True]. *)
Definition set_terminal (self : t) : t :=
  Node (letter self) true (nodes self).

(** The child stored under [key] after it was mutated in place into
    [child]: the dictionary keeps it under the same key. *)
Definition with_child (self : t) (key : string) (child : t) : t :=
  Node (letter self) (terminal self) (<[key := child]> (nodes self)).

(** The edges the next letter may come from: all of them at the start,
    otherwise [[edge for edge in puzzle if edge != current_edge]]. *)
Definition next_edges (puzzle : Puzzle) (current_edge : option Edge)
    : list Edge :=
  match current_edge with
  | Some ce => filter (λ edge, edge ≠ ce) (edges puzzle)
  | None => edges puzzle
  end.

(** [search].  The recursion goes through the children dictionary: every
    child is searched first ([sub]), then looked up by letter, which is
    [self.get(letter)] followed by [current_node.search(puzzle, edge)]
    (see [search_unfold] below). *)
Fixpoint search (self : t) (puzzle : Puzzle) (current_edge : option Edge)
    {struct self} : list (string * option Edge) :=
  match self with
  | Node letter terminal nodes =>
      let sub := (λ child, search child puzzle) <$> nodes in
      (if Nat.eqb (size nodes) 0 || terminal
       then [(letter, current_edge)] else [])
      ++ (edge ← next_edges puzzle current_edge;
          l ← edge_letters edge;
          match sub !! str1 l with
          | None => []
          | Some results =>
              (λ result, (letter +:+ result.1, result.2)) <$> results (Some edge)
          end)
  end.

(** The number of levels below a node, the measure of the induction on
    tries. *)
Fixpoint height (self : t) : nat :=
  match self with
  | Node _ _ nodes =>
      S (map_fold (λ _ h acc, h `max` acc) 0 (height <$> nodes))
  end.

(** Following the children letter by letter. *)
Fixpoint descend (self : t) (path : list string) : option t :=
  match path with
  | [] => Some self
  | k :: rest =>
      match get self k with
      | None => None
      | Some child => descend child rest
      end
  end.

End LetterNode.

(** ** Solver *)

Module LetterBoxedSolver.

(** [class LetterBoxedSolver]; [max_chain = -1] means no bound. *)
Record t : Type := mk
  { word_graph : LetterNode.t; max_chain : Z; max_iterations : Z }.

(** [__init__] without a word list (with one it calls [self.add_word],
    a method the class does not define). *)
Definition new (max_chain max_iterations : Z) : t :=
  mk (LetterNode.new "") max_chain max_iterations.

(** The loop of [add]: descend from [current_node] along [letters],
    creating the missing nodes, and mark the node reached as terminal. *)
Fixpoint add_from (current_node : LetterNode.t) (letters : list string)
    : LetterNode.t :=
  match letters with
  | [] => LetterNode.set_terminal current_node
  | letter :: rest =>
      match LetterNode.get current_node letter with
      | Some node =>
          LetterNode.with_child current_node letter (add_from node rest)
      | None =>
          let node := LetterNode.new letter in
          LetterNode.with_child (LetterNode.add current_node node)
            letter (add_from node rest)
      end
  end.

(** [add]. *)
Definition add (self : t) (word : string) : t :=
  mk (add_from (word_graph self) (chars word))
     (max_chain self) (max_iterations self).

(** A solver in which [words] were inserted one after the other. *)
Definition build (max_chain : Z) (words : list string) : t :=
  fold_left add words (new max_chain (-1)).

(** The dictionary [used] as [are_all_letters_used] initialises it. *)
Definition edge_unused (e : Edge) : gmap ascii bool :=
  <[c e := false]> (<[b e := false]> (<[a e := false]> ∅)).

Definition used_init (puzzle : Puzzle) : gmap Edge (gmap ascii bool) :=
  <[bottom puzzle := edge_unused (bottom puzzle)]>
    (<[top puzzle := edge_unused (top puzzle)]>
       (<[right puzzle := edge_unused (right puzzle)]>
          (<[left puzzle := edge_unused (left puzzle)]> ∅))).

(** [if letter in edge: used[edge][letter] = True]; the key [edge] is
    always present, every edge of the puzzle being a key of [used]. *)
Definition mark (letter : ascii) (used : gmap Edge (gmap ascii bool))
    (edge : Edge) : gmap Edge (gmap ascii bool) :=
  if bool_decide (letter ∈ edge_letters edge)
  then alter (λ d, <[letter := true]> d) edge used
  else used.

Definition mark_letter (puzzle : Puzzle) (used : gmap Edge (gmap ascii bool))
    (letter : ascii) : gmap Edge (gmap ascii bool) :=
  fold_left (mark letter) (edges puzzle) used.

Definition mark_word (puzzle : Puzzle) (used : gmap Edge (gmap ascii bool))
    (word : string) : gmap Edge (gmap ascii bool) :=
  fold_left (mark_letter puzzle) (letters_of word) used.

(** [are_all_letters_used]. *)
Definition are_all_letters_used (puzzle : Puzzle) (words : list string) : bool :=
  let used := fold_left (mark_word puzzle) words (used_init puzzle) in
  bool_decide (map_Forall (λ _ d, map_Forall (λ _ (v : bool), v = true) d) used).

(** *** Chain search *)

(** A frontier entry or a solution: the words of the chain and the edge of
    the last letter placed. *)
Definition leaf : Type := list string * option Edge.

(** The exceptions the loop can raise. *)
Inductive exn : Type :=
| AttributeError   (** [node.search] with [node] being [None] *)
| IndexError.      (** [current_words[-1][-1]] on an empty word *)

(** The two [break] statements of the loop. *)
Inductive exit_point : Type :=
| ResultsNone      (** [if results is None and len(in_progress_lists) == 0] *)
| FrontierEmpty.   (** [if len(in_progress_lists) == 0] after the [for] *)

(** How the loop ends: by one of its [break]s, by an exception, or not
    within the budget. *)
Inductive loop_result : Type :=
| Break (via : exit_point) (complete_list : list leaf)
| Raise (e : exn)
| OutOfFuel.

(** What a call of [search] comes to: the ranked list it returns, the
    exception it raises, or nothing within the budget. *)
Inductive outcome : Type :=
| Returned (solutions : list (list string))
| Raised (e : exn)
| Unfinished.

(** The node the search of this iteration starts from: the root for the
    empty chain, otherwise [self.word_graph.get(current_words[-1][-1])],
    which is [None] when the root has no such child. *)
Definition start_node (self : t) (current_words : list string)
    : exn + option LetterNode.t :=
  match last current_words with
  | None => inr (Some (word_graph self))
  | Some last_word =>
      match last (chars last_word) with
      | None => inl IndexError
      | Some last_letter =>
          inr (LetterNode.get (word_graph self) last_letter)
      end
  end.

(** The value [node.search(puzzle, current_edge=current_edge)] evaluates
    to, [None] being Python's [None]: the body of [LetterNode.search] has
    one exit, [return search_results]. *)
Definition search_value (node : LetterNode.t) (puzzle : Puzzle)
    (current_edge : option Edge) : option (list (string * option Edge)) :=
  Some (LetterNode.search node puzzle current_edge).

(** The variables the [for result in results] loop updates. *)
Record vars : Type := mkVars
  { complete_list : list leaf;
    in_progress_lists : list leaf;
    puzzle_solutions : gmap string bool }.

(** One round of [for result in results]. *)
Definition visit (self : t) (puzzle : Puzzle) (current_words : list string)
    (v : vars) (result : string * option Edge) : vars :=
  let word := result.1 in
  let edge := result.2 in
  if bool_decide (word ∈ current_words) then v
  else
    let word_list := current_words ++ [word] in
    let leaf := (word_list, edge) in
    if are_all_letters_used puzzle word_list then
      let smashed_words := join "_" word_list in
      match puzzle_solutions v !! smashed_words with
      | None =>
          mkVars (complete_list v ++ [leaf]) (in_progress_lists v)
                 (<[smashed_words := true]> (puzzle_solutions v))
      | Some _ => v
      end
    else if (max_chain self >? -1)%Z then
      if (Z.of_nat (length word_list) <? max_chain self)%Z
      then mkVars (complete_list v) (in_progress_lists v ++ [leaf])
                  (puzzle_solutions v)
      else v
    else mkVars (complete_list v) (in_progress_lists v ++ [leaf])
                (puzzle_solutions v).

(** The [while True] loop, one iteration per unit of [fuel]. *)
Fixpoint search_loop (fuel : nat) (self : t) (puzzle : Puzzle)
    (v : vars) (current_list : leaf) : loop_result :=
  match fuel with
  | O => OutOfFuel
  | S fuel =>
      let current_words := current_list.1 in
      let current_edge := current_list.2 in
      match start_node self current_words with
      | inl e => Raise e
      | inr None => Raise AttributeError
      | inr (Some node) =>
          match search_value node puzzle current_edge with
          | None =>
              match in_progress_lists v with
              | [] => Break ResultsNone (complete_list v)
              | next :: rest =>
                  search_loop fuel self puzzle
                    (mkVars (complete_list v) rest (puzzle_solutions v)) next
              end
          | Some results =>
              let v := fold_left (visit self puzzle current_words) results v in
              match in_progress_lists v with
              | [] => Break FrontierEmpty (complete_list v)
              | next :: rest =>
                  search_loop fuel self puzzle
                    (mkVars (complete_list v) rest (puzzle_solutions v)) next
              end
          end
      end
  end.

(** The sort key [(len(x), sum([len(word) for word in x]))] and the order
    of Python tuples on it. *)
Definition sort_key (x : list string) : nat * nat :=
  (length x, sum_list (String.length <$> x)).

Definition key_le (k1 k2 : nat * nat) : bool :=
  (k1.1 <? k2.1) || ((k1.1 =? k2.1) && (k1.2 <=? k2.2)).

(** [list.sort(key=...)] is stable; the stable sorted arrangement of a list
    is unique, and insertion from the right computes it: an element goes
    before the first element whose key is not smaller. *)
Fixpoint insert_by_key (x : list string) (l : list (list string))
    : list (list string) :=
  match l with
  | [] => [x]
  | y :: rest =>
      if key_le (sort_key x) (sort_key y) then x :: y :: rest
      else y :: insert_by_key x rest
  end.

Definition sort_by_key (l : list (list string)) : list (list string) :=
  foldr insert_by_key [] l.

(** The state the loop starts in. *)
Definition vars_init : vars := mkVars [] [] ∅.
Definition current_init : leaf := ([], None).

(** [search], with a bound on the number of iterations of its loop. *)
Definition search (fuel : nat) (self : t) (puzzle : Puzzle) : outcome :=
  match search_loop fuel self puzzle vars_init current_init with
  | Break _ complete_list => Returned (sort_by_key (fst <$> complete_list))
  | Raise e => Raised e
  | OutOfFuel => Unfinished
  end.

End LetterBoxedSolver.

(** * Facts about the trie *)

Section TrieFacts.

Import LetterNode.

Lemma max_fold_lookup (m : gmap string nat) k h :
  m !! k = Some h → h ≤ map_fold (λ _ h acc, h `max` acc) 0 m.
Proof.
  revert k h.
  induction m as [|i x m Hi IH] using map_ind; intros k h Hk.
  - by rewrite lookup_empty in Hk.
  - rewrite map_fold_insert_L; [|intros; lia|done].
    destruct (decide (i = k)) as [->|Hne].
    + rewrite lookup_insert_eq in Hk. injection Hk as ->. lia.
    + rewrite lookup_insert_ne in Hk by done.
      specialize (IH _ _ Hk). lia.
Qed.

Lemma height_child n k child :
  get n k = Some child → height child < height n.
Proof.
  destruct n as [l t ch]. unfold get. simpl. intros Hk.
  assert ((height <$> ch) !! k = Some (height child)) as H
    by (by rewrite lookup_fmap, Hk).
  apply max_fold_lookup in H. lia.
Qed.

(** Induction on a trie: a property holds of a node when it holds of all
    its children. *)
Lemma node_ind (P : t → Prop) :
  (∀ n, (∀ k child, get n k = Some child → P child) → P n) →
  ∀ n, P n.
Proof.
  intros Hstep n.
  remember (height n) as h eqn:Hh. revert n Hh.
  induction (lt_wf h) as [h _ IH]. intros n ->.
  apply Hstep. intros k child Hk.
  eapply IH; [|reflexivity]. by eapply height_child.
Qed.

(** [search] as the source writes it. *)
Lemma search_unfold self puzzle current_edge :
  search self puzzle current_edge =
    (if word self then [(letter self, current_edge)] else [])
    ++ (edge ← next_edges puzzle current_edge;
        l ← edge_letters edge;
        match get self (str1 l) with
        | None => []
        | Some current_node =>
            (λ result, (letter self +:+ result.1, result.2))
              <$> search current_node puzzle (Some edge)
        end).
Proof.
  destruct self as [l t ch]. simpl. unfold word, get. simpl. f_equal.
  apply list_bind_ext; [|done]. intros e.
  rewrite !lookup_fmap.
  by destruct (ch !! str1 (a e)), (ch !! str1 (b e)), (ch !! str1 (c e)).
Qed.

End TrieFacts.

(** * Facts about the coverage check *)

Section Coverage.

Import LetterBoxedSolver.

(** What [used] holds once the letters [seen] were processed: one entry
    per edge of the puzzle, in it one flag per letter of the edge, set for
    the letters seen. *)
Definition tracks (puzzle : Puzzle) (seen : list ascii)
    (used : gmap Edge (gmap ascii bool)) : Prop :=
  ∀ e, match used !! e with
       | Some d =>
           e ∈ edges puzzle ∧
           ∀ l, d !! l = if decide (l ∈ edge_letters e)
                         then Some (bool_decide (l ∈ seen)) else None
       | None => e ∉ edges puzzle
       end.

Lemma edge_unused_lookup e l :
  edge_unused e !! l =
    if decide (l ∈ edge_letters e) then Some false else None.
Proof.
  unfold edge_unused, edge_letters.
  rewrite !lookup_insert, lookup_empty.
  repeat case_decide; subst; try done; set_solver.
Qed.

Lemma used_init_tracks puzzle : tracks puzzle [] (used_init puzzle).
Proof.
  intros e. unfold used_init, edges.
  rewrite !lookup_insert, lookup_empty.
  repeat case_decide; subst;
    try (split; [set_solver|]; intros l; rewrite edge_unused_lookup;
         case_decide; [f_equal; symmetry; apply bool_decide_eq_false; set_solver|done]).
  set_solver.
Qed.

Lemma mark_fold_lookup x es used e :
  fold_left (mark x) es used !! e =
    if decide (x ∈ edge_letters e ∧ e ∈ es)
    then (λ d, <[x := true]> d) <$> used !! e else used !! e.
Proof.
  revert used. induction es as [|e' es IH]; intros used; simpl.
  - case_decide as H; [|done]. destruct H as [_ H]. by apply elem_of_nil in H.
  - rewrite IH. unfold mark. case_bool_decide as Hx.
    + rewrite lookup_alter.
      destruct (decide (e' = e)) as [->|Hne].
      * destruct (used !! e) as [d|]; simpl; repeat case_decide; simpl;
          try done; try (by rewrite insert_insert_eq); set_solver.
      * repeat case_decide; try done; set_solver.
    + repeat case_decide; try done; set_solver.
Qed.

Lemma mark_letter_tracks puzzle seen used x :
  tracks puzzle seen used →
  tracks puzzle (seen ++ [x]) (mark_letter puzzle used x).
Proof.
  intros H e. specialize (H e). unfold mark_letter.
  rewrite mark_fold_lookup.
  destruct (used !! e) as [d|] eqn:Hd.
  - destruct H as [He H].
    case_decide as Hx; simpl; (split; [done|]); intros l; specialize (H l).
    + destruct Hx as [Hx _].
      rewrite lookup_insert. destruct (decide (x = l)) as [->|Hne].
      * rewrite decide_True by done. f_equal. symmetry.
        apply bool_decide_eq_true. set_solver.
      * rewrite H. destruct (decide (l ∈ edge_letters e)); [|done]. f_equal.
        apply bool_decide_ext. set_solver.
    + rewrite H. destruct (decide (l ∈ edge_letters e)) as [Hl|]; [|done].
      f_equal. apply bool_decide_ext.
      rewrite elem_of_app, list_elem_of_singleton.
      split; [tauto|]. intros [?| ->]; [done|]. tauto.
  - case_decide; simpl; done.
Qed.

Lemma mark_word_tracks puzzle seen used w :
  tracks puzzle seen used →
  tracks puzzle (seen ++ letters_of w) (mark_word puzzle used w).
Proof.
  unfold mark_word. generalize (letters_of w) as ls.
  intros ls. revert seen used.
  induction ls as [|x ls IH]; intros seen used H; simpl.
  - by rewrite app_nil_r.
  - rewrite (assoc_L (++) seen [x] ls : seen ++ x :: ls = (seen ++ [x]) ++ ls).
    apply IH. by apply mark_letter_tracks.
Qed.

Lemma mark_words_tracks puzzle seen used ws :
  tracks puzzle seen used →
  tracks puzzle (seen ++ mjoin (letters_of <$> ws))
    (fold_left (mark_word puzzle) ws used).
Proof.
  revert seen used.
  induction ws as [|w ws IH]; intros seen used H; simpl.
  - by rewrite app_nil_r.
  - rewrite (assoc_L (++)). apply IH. by apply mark_word_tracks.
Qed.

(** [are_all_letters_used] holds exactly when every letter of every edge
    occurs in one of the words. *)
Lemma are_all_letters_used_spec puzzle words :
  are_all_letters_used puzzle words = true ↔
  ∀ e, e ∈ edges puzzle → ∀ l, l ∈ edge_letters e →
       ∃ w, w ∈ words ∧ l ∈ letters_of w.
Proof.
  unfold are_all_letters_used. rewrite bool_decide_eq_true.
  pose proof (mark_words_tracks puzzle [] _ words (used_init_tracks puzzle))
    as Ht. simpl in Ht.
  set (used := fold_left (mark_word puzzle) words (used_init puzzle)) in *.
  assert (∀ l, l ∈ mjoin (letters_of <$> words) ↔
               ∃ w, w ∈ words ∧ l ∈ letters_of w) as Hjoin.
  { intros l. rewrite list_elem_of_join. split.
    - intros (ls & Hl & Hls). apply list_elem_of_fmap in Hls as (w & -> & Hw).
      eauto.
    - intros (w & Hw & Hl). exists (letters_of w). split; [done|].
      by apply list_elem_of_fmap_2. }
  split.
  - intros Hall e He l Hl. apply Hjoin.
    specialize (Ht e). destruct (used !! e) as [d|] eqn:Hd; [|done].
    destruct Ht as [_ Ht]. specialize (Ht l).
    rewrite decide_True in Ht by done.
    specialize (Hall e d Hd l _ Ht). simpl in Hall.
    by apply bool_decide_eq_true in Hall.
  - intros Hall e d Hd l v Hv. specialize (Ht e). rewrite Hd in Ht.
    destruct Ht as [He Ht]. specialize (Ht l). rewrite Hv in Ht.
    case_decide as Hl; [|done]. injection Ht as ->.
    apply bool_decide_eq_true, Hjoin. eauto.
Qed.

End Coverage.

(** * Facts about the ranking *)

Section Ranking.

Import LetterBoxedSolver.

(** The order of the sort keys, as a relation on chains. *)
Definition ranked (x y : list string) : Prop :=
  key_le (sort_key x) (sort_key y) = true.

Lemma key_le_spec k1 k2 :
  key_le k1 k2 = true ↔ k1.1 < k2.1 ∨ (k1.1 = k2.1 ∧ k1.2 ≤ k2.2).
Proof.
  unfold key_le.
  rewrite orb_true_iff, andb_true_iff, Nat.ltb_lt, Nat.eqb_eq, Nat.leb_le.
  tauto.
Qed.

Lemma key_le_total k1 k2 : key_le k1 k2 = false → key_le k2 k1 = true.
Proof.
  intros H. apply key_le_spec.
  destruct (key_le k1 k2) eqn:E; [done|].
  apply not_true_iff_false in E. rewrite key_le_spec in E. lia.
Qed.

Global Instance ranked_trans : Transitive ranked.
Proof.
  intros x y z. unfold ranked. rewrite !key_le_spec. lia.
Qed.

Lemma insert_by_key_perm x l : insert_by_key x l ≡ₚ x :: l.
Proof.
  induction l as [|y l IH]; simpl; [done|].
  destruct (key_le _ _); [done|].
  rewrite IH. apply Permutation_swap.
Qed.

Lemma sort_by_key_perm l : sort_by_key l ≡ₚ l.
Proof.
  induction l as [|x l IH]; simpl; [done|].
  by rewrite insert_by_key_perm, IH.
Qed.

Lemma insert_by_key_sorted x l :
  StronglySorted ranked l → StronglySorted ranked (insert_by_key x l).
Proof.
  induction 1 as [|y l Hl IH Hy]; simpl.
  - repeat constructor.
  - destruct (key_le (sort_key x) (sort_key y)) eqn:E.
    + constructor; [by constructor|].
      constructor; [done|].
      eapply Forall_impl; [exact Hy|]. intros z Hz. by etrans.
    + constructor; [done|].
      rewrite insert_by_key_perm. constructor; [|done].
      by apply key_le_total.
Qed.

Lemma sort_by_key_sorted l : StronglySorted ranked (sort_by_key l).
Proof.
  induction l as [|x l IH]; simpl; [constructor|].
  by apply insert_by_key_sorted.
Qed.

Lemma elem_of_sort_by_key x l : x ∈ sort_by_key l ↔ x ∈ l.
Proof. by rewrite sort_by_key_perm. Qed.

End Ranking.

(** * Facts about the chain search *)

Section ChainSearch.

Import LetterBoxedSolver.

Variables (self : t) (puzzle : Puzzle).

(** May a chain that does not cover the puzzle go back to the frontier? *)
Definition may_grow (word_list : list string) : Prop :=
  (max_chain self >? -1)%Z = true →
  (Z.of_nat (length word_list) <? max_chain self)%Z = true.

(** The loop never leaves through the [results is None] test. *)
Lemma search_loop_exit fuel v current_list via complete :
  search_loop fuel self puzzle v current_list = Break via complete →
  via = FrontierEmpty.
Proof.
  revert v current_list.
  induction fuel as [|fuel IH]; intros v cur; simpl; [done|].
  destruct (start_node self cur.1) as [e|[node|]]; try done.
  destruct (in_progress_lists (fold_left _ _ _)) as [|next rest].
  - by intros [= <- _].
  - apply IH.
Qed.

Section Invariant.

(** [Pf] holds of the entries of the frontier, [Pc] of the solutions. *)
Variables (Pf Pc : leaf → Prop).

Hypothesis extend : ∀ current_list node result,
  Pf current_list →
  start_node self current_list.1 = inr (Some node) →
  result ∈ LetterNode.search node puzzle current_list.2 →
  result.1 ∉ current_list.1 →
  let word_list := current_list.1 ++ [result.1] in
  (are_all_letters_used puzzle word_list = true →
   Pc (word_list, result.2)) ∧
  (are_all_letters_used puzzle word_list = false →
   may_grow word_list → Pf (word_list, result.2)).

Definition vars_ok (v : vars) : Prop :=
  Forall Pc (complete_list v) ∧ Forall Pf (in_progress_lists v).

Lemma visit_ok current_list node result v :
  Pf current_list →
  start_node self current_list.1 = inr (Some node) →
  result ∈ LetterNode.search node puzzle current_list.2 →
  vars_ok v → vars_ok (visit self puzzle current_list.1 v result).
Proof.
  intros Hcur Hnode Hres [Hc Hf]. unfold visit.
  case_bool_decide as Hin; [done|].
  destruct (extend _ _ _ Hcur Hnode Hres Hin) as [H1 H2].
  destruct (are_all_letters_used _ _) eqn:Hcov.
  - destruct (puzzle_solutions v !! _); [done|].
    split; simpl; [|done]. apply Forall_app. split; [done|].
    constructor; [by apply H1|constructor].
  - unfold may_grow in H2.
    destruct (max_chain self >? -1)%Z.
    + destruct (Z.of_nat _ <? max_chain self)%Z eqn:Hlt; [|done].
      split; simpl; [done|]. apply Forall_app. split; [done|].
      constructor; [by apply H2|constructor].
    + split; simpl; [done|]. apply Forall_app. split; [done|].
      constructor; [by apply H2|constructor].
Qed.

Lemma visit_all_ok current_list node results v :
  Pf current_list →
  start_node self current_list.1 = inr (Some node) →
  (∀ r, r ∈ results → r ∈ LetterNode.search node puzzle current_list.2) →
  vars_ok v →
  vars_ok (fold_left (visit self puzzle current_list.1) results v).
Proof.
  intros Hcur Hnode. revert v.
  induction results as [|r results IH]; intros v Hres Hv; simpl; [done|].
  apply IH.
  - intros r' Hr'. apply Hres. by right.
  - eapply visit_ok; eauto. apply Hres. by left.
Qed.

Lemma search_loop_ok fuel v current_list via complete :
  Pf current_list → vars_ok v →
  search_loop fuel self puzzle v current_list = Break via complete →
  Forall Pc complete.
Proof.
  revert v current_list.
  induction fuel as [|fuel IH]; intros v cur Hcur Hv; simpl; [done|].
  destruct (start_node self cur.1) as [e|[node|]] eqn:Hnode; try done.
  pose proof (visit_all_ok cur node _ v Hcur Hnode (λ r H, H) Hv) as [Hc Hf].
  destruct (in_progress_lists (fold_left _ _ _)) as [|next rest].
  - by intros [= _ <-].
  - apply IH.
    + by eapply Forall_cons_1.
    + split; simpl; [done|]. by eapply Forall_cons_1.
Qed.

(** What holds of the chains [search] returns. *)
Lemma search_ok fuel solutions :
  Pf current_init →
  search fuel self puzzle = Returned solutions →
  ∀ chain, chain ∈ solutions → ∃ edge, Pc (chain, edge).
Proof.
  intros Hinit. unfold search.
  destruct (search_loop _ _ _ _ _) as [via complete| |] eqn:Hloop; try done.
  intros [= <-] chain Hin.
  apply elem_of_sort_by_key, list_elem_of_fmap in Hin as ([ws e] & -> & Hin).
  exists e. eapply search_loop_ok in Hloop; [|done|by split].
  by eapply Forall_forall in Hloop.
Qed.

End Invariant.

End ChainSearch.

(** * Facts about insertion *)

Section Insertion.

Import LetterNode.

(** A well-formed trie: every child is stored under its own letter, a
    single character, and a node without children below the root ends a
    word. *)
Inductive wf : t → Prop :=
| wf_node n :
    (∀ k child, get n k = Some child →
       letter child = k ∧ (∃ c, k = str1 c) ∧
       (nodes child = ∅ → terminal child = true) ∧ wf child) →
    wf n.

Lemma wf_child n k child :
  wf n → get n k = Some child →
  letter child = k ∧ (∃ c, k = str1 c) ∧
  (nodes child = ∅ → terminal child = true) ∧ wf child.
Proof. intros [n' H]. apply H. Qed.

Lemma wf_new l : wf (new l).
Proof. constructor. intros k child. unfold get. simpl. by rewrite lookup_empty. Qed.

Lemma chars_str1 w : Forall (λ k, ∃ c, k = str1 c) (chars w).
Proof. induction w; simpl; constructor; eauto. Qed.

Lemma chars_inj : Inj (=) (=) chars.
Proof.
  intros w1. induction w1 as [|c1 w1 IH]; intros [|c2 w2]; simpl; try done.
  intros [= -> H]. f_equal. by apply IH.
Qed.

Lemma letter_add_from n ls :
  letter (LetterBoxedSolver.add_from n ls) = letter n.
Proof. destruct ls; simpl; [done|]. by destruct (get n s). Qed.

(** The children after one step of [add]: the child for the letter added
    is the one the insertion continues in, the others are as before. *)
Lemma get_add_from n l rest k :
  get (LetterBoxedSolver.add_from n (l :: rest)) k =
    if decide (l = k)
    then Some (LetterBoxedSolver.add_from
                 (default (new l) (get n l)) rest)
    else get n k.
Proof.
  simpl. destruct (get n l) as [node|] eqn:Hl; unfold get, with_child, add;
    simpl; rewrite ?lookup_insert; repeat case_decide; simpl in *; done.
Qed.

Lemma nodes_add_from_nonempty n l rest :
  nodes (LetterBoxedSolver.add_from n (l :: rest)) ≠ ∅.
Proof.
  intros H. pose proof (get_add_from n l rest l) as Hg.
  unfold get at 1 in Hg. rewrite H, lookup_empty, decide_True in Hg; done.
Qed.

Lemma terminal_add_from_cons n l rest :
  terminal (LetterBoxedSolver.add_from n (l :: rest)) = terminal n.
Proof. simpl. by destruct (get n l). Qed.

Lemma add_from_wf n ls :
  wf n → Forall (λ k, ∃ c, k = str1 c) ls →
  wf (LetterBoxedSolver.add_from n ls).
Proof.
  intros Hn Hls. revert n Hn.
  induction Hls as [|l rest Hl Hrest IH]; intros n Hn.
  - simpl. constructor. intros k child Hk. by apply (wf_child n).
  - constructor. intros k child. rewrite get_add_from.
    case_decide as Hk; [subst k|by apply wf_child].
    intros [= <-]. rewrite letter_add_from.
    assert (letter (default (new l) (get n l)) = l ∧
            wf (default (new l) (get n l))) as [Hletter Hwf].
    { destruct (get n l) as [node|] eqn:Hnode; simpl.
      - by destruct (wf_child _ _ _ Hn Hnode) as (? & _ & _ & ?).
      - split; [done|apply wf_new]. }
    split; [done|]. split; [done|]. split; [|by apply IH].
    destruct rest as [|l' rest]; [done|].
    intros H. by apply nodes_add_from_nonempty in H.
Qed.

Lemma fold_add_wf words s :
  wf (LetterBoxedSolver.word_graph s) →
  wf (LetterBoxedSolver.word_graph (fold_left LetterBoxedSolver.add words s)).
Proof.
  revert s. induction words as [|w words IH]; intros s Hs; [exact Hs|].
  cbn [fold_left]. apply IH. unfold LetterBoxedSolver.add.
  cbn [LetterBoxedSolver.word_graph].
  apply add_from_wf; [exact Hs|apply chars_str1].
Qed.

Lemma build_wf max_chain words :
  wf (LetterBoxedSolver.word_graph (LetterBoxedSolver.build max_chain words)).
Proof. apply fold_add_wf, wf_new. Qed.

(** Is the node at the end of [path] marked as terminal? *)
Definition terminal_at (n : t) (path : list string) : bool :=
  match descend n path with
  | Some m => terminal m
  | None => false
  end.

Lemma terminal_at_new l path : terminal_at (new l) path = false.
Proof. destruct path; unfold terminal_at; simpl; [done|]. unfold get. simpl. by rewrite lookup_empty. Qed.

Lemma terminal_at_cons n k path :
  terminal_at n (k :: path) =
    match get n k with Some child => terminal_at child path | None => false end.
Proof. unfold terminal_at. simpl. by destruct (get n k). Qed.

(** Insertion marks the path of the word added and no other. *)
Lemma terminal_at_add_from n ls path :
  terminal_at (LetterBoxedSolver.add_from n ls) path =
    terminal_at n path || bool_decide (path = ls).
Proof.
  revert n path. induction ls as [|l rest IH]; intros n path.
  - cbn [LetterBoxedSolver.add_from]. destruct path as [|k path].
    + unfold terminal_at. simpl. by rewrite orb_true_r.
    + rewrite !terminal_at_cons. unfold get. cbn [set_terminal nodes].
      rewrite (bool_decide_eq_false_2 (k :: path = [])) by done.
      by rewrite orb_false_r.
  - destruct path as [|k path].
    + unfold terminal_at. cbn [descend].
      rewrite terminal_add_from_cons.
      rewrite (bool_decide_eq_false_2 ([] = l :: rest)) by done.
      by rewrite orb_false_r.
    + rewrite !terminal_at_cons, get_add_from.
      case_decide as Hk.
      * subst k. rewrite IH.
        rewrite (bool_decide_ext (l :: path = l :: rest) (path = rest))
          by (split; congruence).
        destruct (get n l); simpl; [done|]. by rewrite terminal_at_new.
      * rewrite bool_decide_eq_false_2 by congruence.
        by rewrite orb_false_r.
Qed.

Lemma terminal_at_build max_chain words path :
  terminal_at (LetterBoxedSolver.word_graph
                 (LetterBoxedSolver.build max_chain words)) path = true ↔
  ∃ w, w ∈ words ∧ path = chars w.
Proof.
  unfold LetterBoxedSolver.build.
  assert (∀ s,
    terminal_at (LetterBoxedSolver.word_graph
                   (fold_left LetterBoxedSolver.add words s)) path = true ↔
    terminal_at (LetterBoxedSolver.word_graph s) path = true ∨
    ∃ w, w ∈ words ∧ path = chars w) as H.
  { induction words as [|w words IH]; intros s; simpl.
    - split; [by left|]. intros [?|(w & Hw & _)]; [done|].
      by apply elem_of_nil in Hw.
    - rewrite IH. simpl. rewrite terminal_at_add_from, orb_true_iff,
        bool_decide_eq_true. split.
      + intros [[?| ->]|(w' & Hw' & ->)]; [by left| |].
        * right. exists w. split; [by left|done].
        * right. exists w'. split; [by right|done].
      + intros [?|(w' & Hw' & ->)]; [by left; left|].
        apply elem_of_cons in Hw' as [->|Hw']; [by left; right|].
        right. eauto. }
  rewrite H. simpl. rewrite terminal_at_new. split; [|by right].
  by intros [?|?].
Qed.

Lemma descend_app n p1 p2 :
  descend n (p1 ++ p2) = descend n p1 ≫= λ m, descend m p2.
Proof.
  revert n. induction p1 as [|k p1 IH]; intros n; simpl; [done|].
  destruct (get n k); simpl; [apply IH|done].
Qed.

End Insertion.

(** * Facts about the single-word search *)

Section SearchFacts.

Import LetterNode.

Lemma append_empty_r (s : string) : s +:+ "" = s.
Proof. induction s as [|x s IH]; [done|]. unfold String.app in *. simpl. by rewrite IH. Qed.

Lemma append_assoc (s1 s2 s3 : string) : (s1 +:+ s2) +:+ s3 = s1 +:+ s2 +:+ s3.
Proof.
  induction s1 as [|x s1 IH]; [done|]. unfold String.app in *. simpl.
  by rewrite IH.
Qed.

Lemma append_str1 x (s : string) : str1 x +:+ s = String x s.
Proof. done. Qed.

Lemma letters_of_append s1 s2 :
  letters_of (s1 +:+ s2) = letters_of s1 ++ letters_of s2.
Proof.
  induction s1 as [|x s1 IH]; [done|]. unfold String.app in *. simpl.
  by rewrite IH.
Qed.

(** The results of [search], one by one: the node's own letter when the
    node ends a word, and the results of the children reached by a letter
    of an edge other than the current one, behind the node's letter. *)
Lemma elem_of_search self puzzle current_edge r :
  r ∈ search self puzzle current_edge ↔
  (word self = true ∧ r = (letter self, current_edge)) ∨
  ∃ edge l child r',
    edge ∈ next_edges puzzle current_edge ∧ l ∈ edge_letters edge ∧
    get self (str1 l) = Some child ∧
    r' ∈ search child puzzle (Some edge) ∧
    r = (letter self +:+ r'.1, r'.2).
Proof.
  rewrite search_unfold, elem_of_app. apply Morphisms_Prop.or_iff_morphism.
  - destruct (word self).
    + rewrite list_elem_of_singleton. naive_solver.
    + split; [by intros ?%elem_of_nil|naive_solver].
  - rewrite list_elem_of_bind. split.
    + intros (edge & Hr & Hedge).
      apply list_elem_of_bind in Hr as (l & Hr & Hl).
      destruct (get self (str1 l)) as [child|] eqn:Hchild;
        [|by apply elem_of_nil in Hr].
      apply list_elem_of_fmap in Hr as (r' & -> & Hr').
      by exists edge, l, child, r'.
    + intros (edge & l & child & r' & Hedge & Hl & Hchild & Hr' & ->).
      exists edge. split; [|done].
      apply list_elem_of_bind. exists l. split; [|done].
      rewrite Hchild. by apply list_elem_of_fmap_2'  with r'.
Qed.

Lemma next_edges_spec puzzle current_edge edge :
  edge ∈ next_edges puzzle current_edge ↔
  edge ∈ edges puzzle ∧ current_edge ≠ Some edge.
Proof.
  destruct current_edge as [ce|]; simpl.
  - rewrite list_elem_of_filter. naive_solver.
  - naive_solver.
Qed.

(** Every word returned spells a path of the trie that ends in a word
    boundary. *)
Lemma search_path self puzzle current_edge r :
  wf self → r ∈ search self puzzle current_edge →
  ∃ suffix m,
    r.1 = letter self +:+ suffix ∧
    descend self (chars suffix) = Some m ∧ word m = true.
Proof.
  revert current_edge r.
  induction self as [self IH] using node_ind. intros ce r Hwf Hr.
  apply elem_of_search in Hr
    as [[Hword ->]|(edge & l & child & r' & _ & _ & Hchild & Hr' & ->)].
  - exists "", self. by rewrite append_empty_r.
  - destruct (wf_child _ _ _ Hwf Hchild) as (Hletter & _ & _ & Hwfc).
    destruct (IH _ _ Hchild _ _ Hwfc Hr') as (suffix & m & Heq & Hpath & Hm).
    exists (String l suffix), m. simpl. rewrite Heq, Hletter, Hchild.
    by rewrite append_str1.
Qed.

(** ** Edge assignments *)

(** No two consecutive edges are the same. *)
Definition alternating (es : list Edge) : Prop :=
  ∀ i e1 e2, es !! i = Some e1 → es !! S i = Some e2 → e1 ≠ e2.

(** [es] gives one edge of the puzzle per letter of [ls]: each letter lies
    on its edge and consecutive letters are on different edges. *)
Record assignment (puzzle : Puzzle) (ls : list ascii) (es : list Edge)
    : Prop := mkAssignment
  { asg_edges : Forall (λ e, e ∈ edges puzzle) es;
    asg_letters : Forall2 (λ l e, l ∈ edge_letters e) ls es;
    asg_alternating : alternating es }.

Lemma alternating_nil : alternating [].
Proof. intros i e1 e2 H. by rewrite lookup_nil in H. Qed.

Lemma alternating_cons e es :
  alternating (e :: es) ↔ head es ≠ Some e ∧ alternating es.
Proof.
  split.
  - intros H. split.
    + destruct es as [|e' es]; [done|]. simpl. intros [= ->].
      by apply (H 0 e e).
    + intros i e1 e2 H1 H2. by apply (H (S i) e1 e2).
  - intros [Hhead H] [|i] e1 e2; simpl.
    + intros [= <-] H2. destruct es as [|e' es]; [done|].
      simpl in *. injection H2 as ->. congruence.
    + apply H.
Qed.

(** The letters [search] places behind the node's own: they have an edge
    assignment that starts off the current edge, and the edge returned is
    the last one assigned, or the current edge when no letter is placed. *)
Lemma search_assignment self puzzle current_edge r :
  wf self → r ∈ search self puzzle current_edge →
  ∃ suffix es,
    r.1 = letter self +:+ suffix ∧
    assignment puzzle (letters_of suffix) es ∧
    (∀ f, current_edge = Some f → head es ≠ Some f) ∧
    r.2 = from_option Some current_edge (last es).
Proof.
  revert current_edge r.
  induction self as [self IH] using node_ind. intros ce r Hwf Hr.
  apply elem_of_search in Hr
    as [[Hword ->]|(edge & l & child & r' & Hedge & Hl & Hchild & Hr' & ->)].
  - exists "", []. rewrite append_empty_r.
    repeat split; try done; try constructor; try apply alternating_nil.
  - destruct (wf_child _ _ _ Hwf Hchild) as (Hletter & _ & _ & Hwfc).
    destruct (IH _ _ Hchild _ _ Hwfc Hr')
      as (suffix & es & Heq & [He Hls Halt] & Hhead & Hlast).
    apply next_edges_spec in Hedge as [Hedge Hne].
    exists (String l suffix), (edge :: es). simpl.
    rewrite Heq, Hletter, append_str1. split; [done|]. split; [|split].
    + split; [by constructor|by constructor|].
      apply alternating_cons. split; [|done]. by apply Hhead.
    + intros f -> [= ->]. done.
    + rewrite Hlast. destruct es as [|e' es]; [done|].
      rewrite last_cons_cons.
      destruct (last (e' :: es)) eqn:E; [done|]. by apply last_None in E.
Qed.

(** The way the solver calls [search]: on the root with no current edge,
    or on a node whose letter lies on the current edge, an edge of the
    puzzle. *)
Definition start_ok (puzzle : Puzzle) (self : t) (current_edge : option Edge)
    : Prop :=
  match current_edge with
  | None => letter self = ""
  | Some f =>
      f ∈ edges puzzle ∧ ∃ x, letter self = str1 x ∧ x ∈ edge_letters f
  end.

(** ** Reachable completions *)

(** A word boundary can be reached from the node by letters of the puzzle,
    never two in a row from the same edge, the first one off the current
    edge. *)
Inductive reachable (puzzle : Puzzle) : t → option Edge → Prop :=
| reach_here self ce : word self = true → reachable puzzle self ce
| reach_child self ce edge l child :
    edge ∈ next_edges puzzle ce → l ∈ edge_letters edge →
    get self (str1 l) = Some child →
    reachable puzzle child (Some edge) →
    reachable puzzle self ce.

Lemma search_reachable self puzzle current_edge :
  (∃ r, r ∈ search self puzzle current_edge) ↔
  reachable puzzle self current_edge.
Proof.
  split.
  - revert current_edge. induction self as [self IH] using node_ind.
    intros ce [r Hr].
    apply elem_of_search in Hr
      as [[Hword _]|(edge & l & child & r' & Hedge & Hl & Hchild & Hr' & _)].
    + by constructor.
    + eapply reach_child; eauto.
  - induction 1 as [self ce Hword|self ce edge l child Hedge Hl Hchild _ [r' Hr']].
    + exists (letter self, ce). apply elem_of_search. by left.
    + exists (letter self +:+ r'.1, r'.2). apply elem_of_search. right.
      by exists edge, l, child, r'.
Qed.

Lemma search_nil self puzzle current_edge :
  search self puzzle current_edge = [] ↔
  ¬ reachable puzzle self current_edge.
Proof.
  rewrite <-search_reachable. split.
  - intros -> [r Hr]. by apply elem_of_nil in Hr.
  - intros H. destruct (search self puzzle current_edge) as [|r rs]; [done|].
    destruct H. exists r. by left.
Qed.

End SearchFacts.

Section Completeness.

Import LetterNode.

(** Every path to a word boundary spelt by letters with an edge assignment
    that starts off the current edge is found. *)
Lemma search_complete self puzzle current_edge suffix es m :
  wf self →
  descend self (chars suffix) = Some m → word m = true →
  assignment puzzle (letters_of suffix) es →
  (∀ f, current_edge = Some f → head es ≠ Some f) →
  (letter self +:+ suffix, from_option Some current_edge (last es))
    ∈ search self puzzle current_edge.
Proof.
  revert self current_edge es.
  induction suffix as [|x suffix IH];
    intros self ce es Hwf Hm Hword [Hedges Hletters Halt] Hhead;
    simpl in Hm, Hletters.
  - injection Hm as <-. apply Forall2_nil_inv_l in Hletters as ->.
    rewrite append_empty_r. apply elem_of_search. by left.
  - apply Forall2_cons_inv_l in Hletters as (e & es' & Hx & Hletters & ->).
    apply Forall_cons in Hedges as [He Hedges].
    apply alternating_cons in Halt as [Hhead' Halt].
    destruct (get self (str1 x)) as [child|] eqn:Hchild; [|done].
    destruct (wf_child _ _ _ Hwf Hchild) as (Hletter & _ & _ & Hwfc).
    apply elem_of_search. right.
    exists e, x, child,
      (letter child +:+ suffix, from_option Some (Some e) (last es')).
    split; [apply next_edges_spec; split; [done|]; intros ->; by apply (Hhead e)|].
    split; [done|]. split; [done|]. split.
    + apply IH; try done. by intros f [= <-].
    + cbn [fst snd]. rewrite Hletter, append_str1. f_equal.
      destruct es' as [|e' es']; [done|]. rewrite last_cons_cons.
      destruct (last (e' :: es')) eqn:E; [done|]. by apply last_None in E.
Qed.

End Completeness.

(** * A sample puzzle and word lists *)

Definition sample_puzzle : Puzzle :=
  mkPuzzle (mkEdge "a" "b" "c") (mkEdge "d" "e" "f")
           (mkEdge "g" "h" "i") (mkEdge "j" "k" "l").

Definition sample_words : list string :=
  ["adgjbeh"; "hkcfil"; "adgjbehkcfil"; "adgjbehk"; "kcfil"; "lad"; "da"].

Definition sample_solutions : list (list string) :=
  [["adgjbehkcfil"]; ["adgjbeh"; "hkcfil"]; ["adgjbehk"; "kcfil"];
   ["da"; "adgjbehkcfil"]].

(** The sum of the lengths of the words of a chain. *)
Definition total_letters (chain : list string) : nat :=
  sum_list (String.length <$> chain).

(** * The properties of the solver *)

Section Properties.

Import LetterBoxedSolver.

Lemma sample_search :
  search 10 (build 2 sample_words) sample_puzzle = Returned sample_solutions.
Proof. vm_compute. reflexivity. Qed.

(** C1: every chain the chain search returns covers the puzzle:
    [are_all_letters_used] holds of it, that is, every letter of every edge
    occurs in one of its words. *)
Theorem search_full_coverage fuel self puzzle solutions :
  search fuel self puzzle = Returned solutions →
  ∀ chain, chain ∈ solutions →
    are_all_letters_used puzzle chain = true ∧
    ∀ e, e ∈ edges puzzle → ∀ l, l ∈ edge_letters e →
         ∃ w, w ∈ chain ∧ l ∈ letters_of w.
Proof.
  intros Hsearch chain Hchain.
  assert (are_all_letters_used puzzle chain = true) as Hcov.
  { assert (∃ edge : option Edge, are_all_letters_used puzzle chain = true)
      as [_ H]; [|done].
    apply (search_ok self puzzle (λ _, True)
             (λ lf, are_all_letters_used puzzle lf.1 = true))
      with fuel solutions; [|done|done|done].
    intros cur node result _ _ _ _. by split. }
  split; [done|]. by apply are_all_letters_used_spec.
Qed.

Lemma search_full_coverage_witness :
  search 10 (build 2 sample_words) sample_puzzle = Returned sample_solutions ∧
  are_all_letters_used sample_puzzle ["adgjbeh"; "hkcfil"] = true.
Proof.
  split; [vm_compute; reflexivity|].
  apply (search_full_coverage 10 (build 2 sample_words) sample_puzzle
           sample_solutions); [vm_compute; reflexivity|].
  apply list_elem_of_further, list_elem_of_here.
Defined.

(** C4 at its failing input: with the one word "ad" inserted the chain
    ["ad"] goes to the frontier; once popped, the root has no child for
    "d" and the call of [search] on [None] raises. *)
Theorem search_unreachable_raises :
  search 10 (build (-1) ["ad"]) sample_puzzle = Raised AttributeError.
Proof. vm_compute. reflexivity. Qed.

(** An iteration that starts from a missing node raises, whatever the
    frontier holds. *)
Lemma search_loop_missing_node fuel self puzzle v current_list :
  start_node self current_list.1 = inr None →
  search_loop (S fuel) self puzzle v current_list = Raise AttributeError.
Proof. intros H. simpl. by rewrite H. Qed.

Lemma StronglySorted_lookup {A} (R : relation A) (l : list A) i j x y :
  StronglySorted R l → i < j → l !! i = Some x → l !! j = Some y → R x y.
Proof.
  intros Hl. revert i j. induction Hl as [|z l Hl IH Hz]; intros i j Hij Hi Hj.
  - by rewrite lookup_nil in Hi.
  - destruct j as [|j]; [lia|]. simpl in Hj. destruct i as [|i]; simpl in Hi.
    + injection Hi as ->. eapply Forall_forall in Hz; [done|].
      by eapply list_elem_of_lookup_2.
    + apply (IH i j); [lia|done|done].
  Qed.

(** C7: the list returned is sorted by (number of words, total number of
    letters): a chain with fewer words comes before every chain with more
    words, and of two chains with as many words the one with fewer letters
    comes first. *)
Theorem search_ranked fuel self puzzle solutions :
  search fuel self puzzle = Returned solutions →
  StronglySorted ranked solutions ∧
  ∀ i j x y, solutions !! i = Some x → solutions !! j = Some y →
    (length x < length y → i < j) ∧
    (length x = length y → total_letters x < total_letters y → i < j).
Proof.
  unfold search. intros H.
  destruct (search_loop _ _ _ _ _) as [via complete| |]; try done.
  injection H as <-.
  pose proof (sort_by_key_sorted (complete.*1)) as Hsorted.
  split; [done|]. intros i j x y Hi Hj.
  assert (j < i → ranked y x) as Hlt
    by (intros; by eapply (StronglySorted_lookup ranked)).
  assert (i = j → x = y) as Heq by (intros ->; congruence).
  unfold ranked in Hlt. rewrite key_le_spec in Hlt.
  unfold sort_key, total_letters in *. simpl in Hlt.
  split; intros; destruct (decide (i < j)) as [|Hge]; try done;
    (destruct (decide (i = j)) as [Hij|Hne];
     [specialize (Heq Hij); subst; lia|]);
     assert (j < i) as Hji by lia; specialize (Hlt Hji); lia.
Qed.

Lemma search_ranked_witness :
  search 10 (build 2 sample_words) sample_puzzle = Returned sample_solutions ∧
  StronglySorted ranked sample_solutions.
Proof.
  split; [vm_compute; reflexivity|].
  apply (search_ranked 10 (build 2 sample_words) sample_puzzle
           sample_solutions). vm_compute. reflexivity.
Defined.

End Properties.

Section InsertionProperties.

Import LetterBoxedSolver.

Lemma add_from_idempotent n ls : add_from (add_from n ls) ls = add_from n ls.
Proof.
  revert n. induction ls as [|l rest IH]; intros n; [done|].
  pose proof (get_add_from n l rest l) as Hget.
  rewrite decide_True in Hget by done.
  set (n' := add_from n (l :: rest)) in *.
  cbn [add_from]. rewrite Hget, IH.
  unfold LetterNode.with_child. unfold LetterNode.get in Hget.
  rewrite (insert_id _ _ _ Hget). by destruct n'.
Qed.

(** C9: inserting a word a second time changes nothing: the solver, and so
    its trie with all its flags, is the same as after the first insertion,
    and so is the outcome of every search. *)
Theorem add_idempotent self word :
  add (add self word) word = add self word ∧
  (∀ puzzle current_edge,
     LetterNode.search (word_graph (add (add self word) word))
       puzzle current_edge =
     LetterNode.search (word_graph (add self word)) puzzle current_edge) ∧
  (∀ fuel puzzle,
     search fuel (add (add self word) word) puzzle =
     search fuel (add self word) puzzle).
Proof.
  assert (add (add self word) word = add self word) as H.
  { unfold add. cbn [word_graph max_chain max_iterations].
    by rewrite add_from_idempotent. }
  by rewrite H.
Qed.

(** C8: the letters of an inserted word lead from the root, step by step,
    to a node that is a word boundary, reached after [len(W)] letters. *)
Theorem inserted_word_found max_chain words W :
  W ≠ "" → W ∈ words →
  let root := word_graph (build max_chain words) in
  length (chars W) = String.length W ∧
  (∀ k, k ≤ String.length W →
        is_Some (LetterNode.descend root (take k (chars W)))) ∧
  ∃ m, LetterNode.descend root (chars W) = Some m ∧
       LetterNode.word m = true.
Proof.
  intros _ HW root.
  assert (∃ m, LetterNode.descend root (chars W) = Some m ∧
               LetterNode.terminal m = true) as (m & Hm & Hterm).
  { pose proof (proj2 (terminal_at_build max_chain words (chars W))) as H.
    unfold terminal_at in H. fold root in H.
    destruct (LetterNode.descend root (chars W)) as [m|].
    - exists m. split; [done|]. apply H. eauto.
    - discriminate H. eauto. }
  split; [|split].
  - clear. induction W; simpl; congruence.
  - intros k _. rewrite <-(take_drop k (chars W)), descend_app in Hm.
    destruct (LetterNode.descend root (take k (chars W))); [eauto|done].
  - exists m. split; [done|]. unfold LetterNode.word.
    by rewrite Hterm, orb_true_r.
Qed.

Lemma inserted_word_found_witness :
  ("adg" : string) ≠ "" ∧ "adg" ∈ ["adg"; "gja"] ∧
  ∃ m, LetterNode.descend (word_graph (build (-1) ["adg"; "gja"]))
         (chars "adg") = Some m ∧ LetterNode.word m = true.
Proof.
  split; [done|]. split; [apply list_elem_of_here|].
  apply (inserted_word_found (-1) ["adg"; "gja"] "adg");
    [done|apply list_elem_of_here].
Defined.

(** C5 as stated fails: after [add("")] the root is marked as terminal,
    the single-word search from the root returns one more result, and the
    chain search no longer returns. *)
Lemma add_empty_changes_root :
  let s := build 2 sample_words in
  LetterNode.terminal (word_graph s) = false ∧
  LetterNode.terminal (word_graph (add s "")) = true ∧
  LetterNode.search (word_graph (add s "")) sample_puzzle None =
    ("", None) :: LetterNode.search (word_graph s) sample_puzzle None ∧
  search 10 s sample_puzzle = Returned sample_solutions ∧
  search 10 (add s "") sample_puzzle = Raised IndexError.
Proof. vm_compute. done. Qed.

(** C5, amended: [add("")] is not rejected.  It sets the terminal flag of
    the root and changes nothing else in the solver; the root is a word
    boundary from then on, and a single-word search from the root returns
    what it returned before, behind the pair of the root's letter and the
    current edge unless the root was a word boundary already. *)
Theorem add_empty_marks_root self :
  add self "" =
    mk (LetterNode.set_terminal (word_graph self))
       (max_chain self) (max_iterations self) ∧
  LetterNode.terminal (word_graph (add self "")) = true ∧
  LetterNode.letter (word_graph (add self "")) =
    LetterNode.letter (word_graph self) ∧
  LetterNode.nodes (word_graph (add self "")) =
    LetterNode.nodes (word_graph self) ∧
  LetterNode.word (word_graph (add self "")) = true ∧
  ∀ puzzle current_edge,
    LetterNode.search (word_graph (add self "")) puzzle current_edge =
      if LetterNode.word (word_graph self)
      then LetterNode.search (word_graph self) puzzle current_edge
      else (LetterNode.letter (word_graph self), current_edge)
             :: LetterNode.search (word_graph self) puzzle current_edge.
Proof.
  repeat split; try done.
  - unfold LetterNode.word. simpl. apply orb_true_r.
  - intros puzzle ce. rewrite !search_unfold.
    unfold add, LetterNode.word, LetterNode.get. simpl.
    rewrite orb_true_r. by destruct (_ || _).
Qed.

End InsertionProperties.

Section ChainProperties.

Import LetterBoxedSolver.

(** Every word of the chain but the first starts with the last letter of
    the word before it. *)
Definition linked (chain : list string) : Prop :=
  ∀ i w1 w2, chain !! i = Some w1 → chain !! S i = Some w2 →
    ∃ l, last (chars w1) = Some l ∧ head (chars w2) = Some l.

Lemma linked_nil : linked [].
Proof. intros i w1 w2 H. by rewrite lookup_nil in H. Qed.

Lemma linked_snoc chain w :
  linked chain →
  (∀ w0, last chain = Some w0 →
         ∃ l, last (chars w0) = Some l ∧ head (chars w) = Some l) →
  linked (chain ++ [w]).
Proof.
  intros Hchain Hlast i w1 w2 H1 H2.
  destruct (decide (S i < length chain)) as [Hlt|Hge].
  - rewrite lookup_app_l in H1 by lia. rewrite lookup_app_l in H2 by lia.
    by apply (Hchain i).
  - destruct (decide (S i = length chain)) as [Heq|Hne].
    + rewrite lookup_app_l in H1 by lia.
      rewrite lookup_app_r, Heq, Nat.sub_diag in H2 by lia.
      injection H2 as <-. apply Hlast.
      rewrite last_lookup, <-Heq. done.
    + apply lookup_lt_Some in H2. rewrite length_app in H2. simpl in H2. lia.
Qed.

(** The words found from the child of a well-formed root stored under
    [l] start with [l]. *)
Lemma search_from_child_head root l node puzzle current_edge r :
  wf root → LetterNode.get root l = Some node →
  r ∈ LetterNode.search node puzzle current_edge →
  head (chars r.1) = Some l.
Proof.
  intros Hwf Hnode Hr.
  destruct (wf_child _ _ _ Hwf Hnode) as (Hletter & [x ->] & _ & Hwfn).
  destruct (search_path _ _ _ _ Hwfn Hr) as (suffix & _ & -> & _).
  by rewrite Hletter.
Qed.

Lemma search_chains_wf fuel self puzzle solutions :
  wf (word_graph self) →
  search fuel self puzzle = Returned solutions →
  ∀ chain, chain ∈ solutions → NoDup chain ∧ linked chain.
Proof.
  intros Hwf Hsearch chain Hchain.
  assert (∃ edge : option Edge, NoDup chain ∧ linked chain) as [_ H]; [|done].
  apply (search_ok self puzzle (λ lf, NoDup lf.1 ∧ linked lf.1)
           (λ lf, NoDup lf.1 ∧ linked lf.1)) with fuel solutions;
    [|split; [constructor|apply linked_nil]|done|done].
  intros [ws e] node r [Hnodup Hlinked] Hnode Hr Hnew. simpl in *.
  assert (NoDup (ws ++ [r.1]) ∧ linked (ws ++ [r.1])) as Hgoal; [|done].
  split.
  - apply NoDup_app. split; [done|]. split; [|apply NoDup_singleton].
    intros w Hw ->%list_elem_of_singleton. done.
  - apply linked_snoc; [done|]. intros w0 Hw0.
    unfold start_node in Hnode. rewrite Hw0 in Hnode.
    destruct (last (chars w0)) as [l|]; [|done].
    exists l. split; [done|]. injection Hnode as Hnode.
    by eapply search_from_child_head.
Qed.

(** C2: the words of a chain returned by the chain search are pairwise
    distinct, and each word after the first starts with the last letter of
    the word before it. *)
Theorem search_chains fuel max_chain words puzzle solutions :
  search fuel (build max_chain words) puzzle = Returned solutions →
  ∀ chain, chain ∈ solutions → NoDup chain ∧ linked chain.
Proof. apply search_chains_wf, build_wf. Qed.

Lemma search_chains_witness :
  search 10 (build 2 sample_words) sample_puzzle = Returned sample_solutions ∧
  NoDup ["adgjbeh"; "hkcfil"] ∧ linked ["adgjbeh"; "hkcfil"].
Proof.
  split; [vm_compute; reflexivity|].
  apply (search_chains 10 2 sample_words sample_puzzle sample_solutions);
    [vm_compute; reflexivity|].
  apply list_elem_of_further, list_elem_of_here.
Defined.

(** C3 as stated fails: searched with no current edge, the node of "a"
    below the root of the trie holding "ab" returns "ab", two letters of
    the same edge, the only one either lies on. *)
Lemma search_same_edge_twice :
  ∃ node,
    LetterNode.get (word_graph (build (-1) ["ab"])) "a" = Some node ∧
    wf node ∧
    ("ab", Some (left sample_puzzle))
      ∈ LetterNode.search node sample_puzzle None ∧
    ¬ ∃ es, assignment sample_puzzle (letters_of "ab") es.
Proof.
  eexists. split; [vm_compute; reflexivity|].
  split.
  { pose proof (build_wf (-1) ["ab"]) as Hwf.
    eapply (wf_child _ "a") in Hwf as (_ & _ & _ & Hwf); [exact Hwf|].
    vm_compute. reflexivity. }
  split; [vm_compute; apply list_elem_of_here|].
  intros (es & [Hedges Hletters Halt]).
  simpl in Hletters.
  apply Forall2_cons_inv_l in Hletters as (e1 & es1 & Ha & Hletters & ->).
  apply Forall2_cons_inv_l in Hletters as (e2 & es2 & Hb & _ & ->).
  apply Forall_cons in Hedges as [He1 Hedges].
  apply Forall_cons in Hedges as [He2 _].
  assert (∀ e x, e ∈ edges sample_puzzle → x ∈ edge_letters e →
                 x = "a"%char ∨ x = "b"%char → e = left sample_puzzle) as Hleft.
  { intros e x He Hx Hab. unfold edges, sample_puzzle in He. simpl in He.
    repeat (apply elem_of_cons in He as [->|He]); [done|..];
      try (by apply elem_of_nil in He);
      unfold edge_letters in Hx; simpl in Hx;
      repeat (apply elem_of_cons in Hx as [->|Hx]);
      try (by apply elem_of_nil in Hx); by destruct Hab. }
  apply (Halt 0 e1 e2); [done|done|].
  rewrite (Hleft e1 "a"%char), (Hleft e2 "b"%char); auto.
Qed.

(** C3, amended: searched the way the solver does (see [start_ok]), a
    well-formed node returns only words that admit an assignment of one
    edge of the puzzle per letter, each letter on its edge, consecutive
    letters on different edges, the first letter on the current edge when
    there is one. *)
Theorem search_edges self puzzle current_edge r :
  wf self → start_ok puzzle self current_edge →
  r ∈ LetterNode.search self puzzle current_edge →
  ∃ es, assignment puzzle (letters_of r.1) es ∧
        (∀ f, current_edge = Some f → head es = Some f).
Proof.
  intros Hwf Hstart Hr.
  destruct (search_assignment _ _ _ _ Hwf Hr)
    as (suffix & es & -> & [Hedges Hletters Halt] & Hhead & _).
  destruct current_edge as [f|]; simpl in Hstart.
  - destruct Hstart as (Hf & x & -> & Hx).
    exists (f :: es). rewrite append_str1. simpl. split; [|by intros ? [= ->]].
    split; [by constructor|by constructor|].
    apply alternating_cons. split; [by apply Hhead|done].
  - rewrite Hstart. exists es. by split.
Qed.

Lemma search_edges_witness :
  wf (word_graph (build (-1) ["adg"])) ∧
  start_ok sample_puzzle (word_graph (build (-1) ["adg"])) None ∧
  ∃ es, assignment sample_puzzle (letters_of "adg") es ∧
        (∀ f, @None Edge = Some f → head es = Some f).
Proof.
  split; [apply build_wf|]. split; [reflexivity|].
  apply (search_edges (word_graph (build (-1) ["adg"])) sample_puzzle None
           ("adg", Some (top sample_puzzle)));
    [apply build_wf|reflexivity|vm_compute; apply list_elem_of_here].
Defined.

End ChainProperties.

(** The solutions of the sample with the edges they end on. *)
Definition sample_complete : list LetterBoxedSolver.leaf :=
  [(["adgjbehkcfil"], Some (bottom sample_puzzle));
   (["adgjbeh"; "hkcfil"], Some (bottom sample_puzzle));
   (["adgjbehk"; "kcfil"], Some (bottom sample_puzzle));
   (["da"; "adgjbehkcfil"], Some (bottom sample_puzzle))].

Section MaxChain.

Import LetterBoxedSolver.

Lemma letter_fold_add words s :
  LetterNode.letter (word_graph (fold_left add words s)) =
  LetterNode.letter (word_graph s).
Proof.
  revert s. induction words as [|w words IH]; intros s; [done|].
  cbn [fold_left]. rewrite IH. apply letter_add_from.
Qed.

Lemma max_chain_fold_add words s :
  max_chain (fold_left add words s) = max_chain s.
Proof.
  revert s. induction words as [|w words IH]; intros s; [done|].
  cbn [fold_left]. by rewrite IH.
Qed.

(** Below the root of a well-formed trie, a word boundary is a node marked
    as terminal. *)
Lemma wf_descend_terminal n k path m :
  wf n → LetterNode.descend n (k :: path) = Some m →
  LetterNode.word m = true → LetterNode.terminal m = true.
Proof.
  revert n k. induction path as [|k' path IH]; intros n k Hwf Hm Hword;
    simpl in Hm; destruct (LetterNode.get n k) as [child|] eqn:Hchild;
    try done; destruct (wf_child _ _ _ Hwf Hchild) as (_ & _ & Hleaf & Hwfc).
  - injection Hm as <-. unfold LetterNode.word in Hword.
    apply orb_true_iff in Hword as [Hsize|?]; [|done].
    apply Hleaf, map_size_empty_iff. by apply Nat.eqb_eq.
  - by apply (IH child k').
Qed.

Lemma empty_word_covers_nothing puzzle :
  are_all_letters_used puzzle [""] = false.
Proof.
  apply not_true_iff_false. rewrite are_all_letters_used_spec. intros H.
  destruct (H (left puzzle) (list_elem_of_here _ _) (a (left puzzle))
              (list_elem_of_here _ _)) as (w & ->%list_elem_of_singleton & Hw).
  by apply elem_of_nil in Hw.
Qed.

(** A word found from the root that covers the puzzle was inserted. *)
Lemma search_root_inserted mc words puzzle r :
  r ∈ LetterNode.search (word_graph (build mc words)) puzzle None →
  are_all_letters_used puzzle [r.1] = true → r.1 ∈ words.
Proof.
  intros Hr Hcov.
  destruct (search_path _ _ _ _ (build_wf mc words) Hr)
    as (suffix & m & Heq & Hm & Hword).
  unfold build in Heq. rewrite letter_fold_add in Heq. simpl in Heq.
  change ("" +:+ suffix) with suffix in Heq. subst suffix.
  destruct (chars r.1) as [|k path] eqn:Hchars.
  - destruct (r.1); [|done]. by rewrite empty_word_covers_nothing in Hcov.
  - pose proof (wf_descend_terminal _ _ _ _ (build_wf mc words) Hm Hword)
      as Hterm.
    destruct (proj1 (terminal_at_build mc words (k :: path)))
      as (w & Hw & Heq).
    { unfold terminal_at. by rewrite Hm. }
    rewrite <-Hchars in Heq. by apply chars_inj in Heq as ->.
Qed.

Lemma elem_of_fst_snoc {A B} (l : list (A * B)) r w :
  w ∈ (l ++ [r]).*1 ↔ w ∈ l.*1 ∨ w = r.1.
Proof.
  rewrite fmap_app, elem_of_app. simpl. by rewrite list_elem_of_singleton.
Qed.

(** The [for] loop of the first iteration when the bound is one: nothing
    goes to the frontier, and the solutions are the distinct covering
    words among the results. *)
Lemma visit_all_single self puzzle results :
  max_chain self = 1%Z →
  let v := fold_left (visit self puzzle []) results vars_init in
  in_progress_lists v = [] ∧
  NoDup (complete_list v).*1 ∧
  ∀ chain, chain ∈ (complete_list v).*1 ↔
    ∃ w, chain = [w] ∧ w ∈ results.*1 ∧
         are_all_letters_used puzzle [w] = true.
Proof.
  intros Hmc.
  assert (∀ seen v,
    (in_progress_lists v = [] ∧ NoDup (complete_list v).*1 ∧
     (∀ chain, chain ∈ (complete_list v).*1 ↔
        ∃ w, chain = [w] ∧ w ∈ seen.*1 ∧
             are_all_letters_used puzzle [w] = true) ∧
     (∀ key, is_Some (puzzle_solutions v !! key) ↔
             [key] ∈ (complete_list v).*1)) →
    let v' := fold_left (visit self puzzle []) results v in
    in_progress_lists v' = [] ∧ NoDup (complete_list v').*1 ∧
    ∀ chain, chain ∈ (complete_list v').*1 ↔
      ∃ w, chain = [w] ∧ w ∈ (seen ++ results).*1 ∧
           are_all_letters_used puzzle [w] = true) as Hgen.
  { induction results as [|r results IH]; intros seen v (Hf & Hnd & Hc & Hs).
    - simpl. by rewrite app_nil_r.
    - cbn [fold_left].
      rewrite (assoc_L (++) seen [r] results : seen ++ r :: results = _).
      apply IH. unfold visit.
      rewrite bool_decide_eq_false_2 by apply not_elem_of_nil.
      cbn [app join]. rewrite Hmc. cbn [Z.gtb Z.compare length Z.of_nat
        Pos.of_succ_nat Z.ltb Pos.compare Pos.compare_cont].
      destruct (are_all_letters_used puzzle [r.1]) eqn:Hcov.
      + destruct (puzzle_solutions v !! r.1) as [flag|] eqn:Hkey.
        * split; [done|]. split; [done|]. split; [|done].
          intros chain. rewrite Hc. split.
          -- intros (w & -> & Hw & Hw'). exists w.
             rewrite elem_of_fst_snoc. eauto.
          -- intros (w & -> & [Hw| ->]%elem_of_fst_snoc & Hw'); [eauto|].
             apply Hc, Hs. eauto.
        * cbn [complete_list in_progress_lists puzzle_solutions].
          split; [done|]. split; [|split].
          -- rewrite fmap_app. apply NoDup_app. split; [done|].
             split; [|apply NoDup_singleton].
             intros chain Hin ->%list_elem_of_singleton.
             apply Hs in Hin as [? Hin]. congruence.
          -- intros chain. rewrite elem_of_fst_snoc, Hc. cbn [fst]. split.
             ++ intros [(w & -> & Hw & Hw')| ->].
                ** exists w. rewrite elem_of_fst_snoc. eauto.
                ** exists r.1. rewrite elem_of_fst_snoc. eauto.
             ++ intros (w & -> & [Hw| ->]%elem_of_fst_snoc & Hw');
                  [left; eauto|by right].
          -- intros key. rewrite lookup_insert, elem_of_fst_snoc, <-Hs.
             cbn [fst]. case_decide as Hk; [subst; naive_solver|].
             split; [by left|]. intros [?|[= ->]]; done.
      + split; [done|]. split; [done|]. split; [|done].
        intros chain. rewrite Hc. split.
        * intros (w & -> & Hw & Hw'). exists w.
          rewrite elem_of_fst_snoc. eauto.
        * intros (w & -> & [Hw| ->]%elem_of_fst_snoc & Hw'); [eauto|].
          congruence. }
  apply (Hgen [] vars_init). split; [done|]. split; [constructor|].
  split.
  - intros chain. split; [by intros ?%elem_of_nil|].
    by intros (w & _ & ?%elem_of_nil & _).
  - intros key. simpl. rewrite lookup_empty. split; [by intros [? ?]|].
    by intros ?%elem_of_nil.
Qed.

(** The words found from the root that cover the puzzle are the inserted
    words that can be spelt on the puzzle and cover it. *)
Lemma covering_root_words mc words puzzle w :
  (w ∈ (LetterNode.search (word_graph (build mc words)) puzzle None).*1 ∧
   are_all_letters_used puzzle [w] = true) ↔
  (w ∈ words ∧ (∃ es, assignment puzzle (letters_of w) es) ∧
   are_all_letters_used puzzle [w] = true).
Proof.
  assert (LetterNode.letter (word_graph (build mc words)) = "") as Hroot
    by (unfold build; by rewrite letter_fold_add).
  split.
  - intros [(r & -> & Hr)%list_elem_of_fmap Hcov].
    split; [by eapply search_root_inserted|]. split; [|done].
    destruct (search_assignment _ _ _ _ (build_wf mc words) Hr)
      as (suffix & es & Heq & Hasg & _).
    rewrite Hroot in Heq. change ("" +:+ suffix) with suffix in Heq.
    rewrite Heq. eauto.
  - intros (Hw & [es Hasg] & Hcov). split; [|done].
    pose proof (proj2 (terminal_at_build mc words (chars w))) as Hterm.
    unfold terminal_at in Hterm.
    destruct (LetterNode.descend (word_graph (build mc words)) (chars w))
      as [m|] eqn:Hm; [|discriminate Hterm; eauto].
    assert (LetterNode.word m = true) as Hword.
    { unfold LetterNode.word. rewrite Hterm by eauto. apply orb_true_r. }
    pose proof (search_complete _ puzzle None w es m (build_wf mc words)
                  Hm Hword Hasg) as Hin.
    rewrite Hroot in Hin. change ("" +:+ w) with w in Hin.
    apply list_elem_of_fmap. eexists. split; [|apply Hin; done]. done.
Qed.

(** C6: with a bound [k >= 1] no chain returned has more than [k] words;
    with the bound 1 the search returns, and what it returns are the
    one-word chains of the words found from the root that cover the
    puzzle alone, each once; these are the inserted words that can be
    spelt on the puzzle and cover it, so nothing is returned when no
    inserted word covers the puzzle. *)
Theorem search_max_chain k words puzzle :
  (1 ≤ k)%Z →
  (∀ fuel solutions,
     search fuel (build k words) puzzle = Returned solutions →
     ∀ chain, chain ∈ solutions → (Z.of_nat (length chain) ≤ k)%Z) ∧
  (k = 1%Z → ∀ fuel, ∃ solutions,
     search (S fuel) (build k words) puzzle = Returned solutions ∧
     NoDup solutions ∧
     (∀ chain, chain ∈ solutions ↔
        ∃ w, chain = [w] ∧
             w ∈ (LetterNode.search (word_graph (build k words))
                    puzzle None).*1 ∧
             are_all_letters_used puzzle [w] = true) ∧
     (∀ chain, chain ∈ solutions ↔
        ∃ w, chain = [w] ∧ w ∈ words ∧
             (∃ es, assignment puzzle (letters_of w) es) ∧
             are_all_letters_used puzzle [w] = true) ∧
     ((∀ w, w ∈ words → are_all_letters_used puzzle [w] = false) →
      solutions = [])).
Proof.
  intros Hk.
  assert (max_chain (build k words) = k) as Hmc
    by (unfold build; by rewrite max_chain_fold_add).
  split.
  - intros fuel solutions Hsearch chain Hchain.
    assert (∃ edge : option Edge, (Z.of_nat (length chain) ≤ k)%Z)
      as [_ H]; [|done].
    apply (search_ok (build k words) puzzle
             (λ lf, (Z.of_nat (length lf.1) < k)%Z)
             (λ lf, (Z.of_nat (length lf.1) ≤ k)%Z))
      with fuel solutions; [|simpl; lia|done|done].
    intros [ws e] node r Hlt _ _ _. simpl in *.
    rewrite length_app. simpl. split; [lia|].
    intros _ Hgrow. unfold may_grow in Hgrow. rewrite Hmc in Hgrow.
    rewrite length_app in Hgrow. simpl in Hgrow.
    apply Z.ltb_lt, Hgrow, Z.gtb_lt. lia.
  - intros -> fuel.
    pose proof (visit_all_single (build 1 words) puzzle
      (LetterNode.search (word_graph (build 1 words)) puzzle None) Hmc)
      as (Hf & Hnd & Hc).
    eexists. unfold search. cbn [search_loop]. unfold start_node.
    cbn [current_init fst snd last search_value]. rewrite Hf.
    split; [reflexivity|].
    assert (∀ chain, chain ∈ sort_by_key (complete_list (fold_left
              (visit (build 1 words) puzzle [])
              (LetterNode.search (word_graph (build 1 words)) puzzle None)
              vars_init)).*1 ↔
            ∃ w, chain = [w] ∧
              w ∈ (LetterNode.search (word_graph (build 1 words))
                     puzzle None).*1 ∧
              are_all_letters_used puzzle [w] = true) as Hfound
      by (intros chain; by rewrite elem_of_sort_by_key).
    assert (∀ chain, chain ∈ sort_by_key (complete_list (fold_left
              (visit (build 1 words) puzzle [])
              (LetterNode.search (word_graph (build 1 words)) puzzle None)
              vars_init)).*1 ↔
            ∃ w, chain = [w] ∧ w ∈ words ∧
                 (∃ es, assignment puzzle (letters_of w) es) ∧
                 are_all_letters_used puzzle [w] = true) as Hins.
    { intros chain. rewrite Hfound. split.
      - intros (w & -> & Hw). exists w. split; [done|].
        exact (proj1 (covering_root_words 1 words puzzle w) Hw).
      - intros (w & -> & Hw). exists w. split; [done|].
        exact (proj2 (covering_root_words 1 words puzzle w) Hw). }
    split; [by rewrite sort_by_key_perm|]. split; [done|]. split; [done|].
    intros Hnone.
    destruct (sort_by_key _) as [|chain rest]; [done|].
    destruct (proj1 (Hins chain) (list_elem_of_here _ _))
      as (w & _ & Hw & _ & Hcov).
    rewrite Hnone in Hcov; done.
Qed.

Lemma search_max_chain_witness :
  (1 ≤ 1)%Z ∧
  ∃ solutions,
    search 1 (build 1 sample_words) sample_puzzle = Returned solutions ∧
    NoDup solutions.
Proof.
  split; [lia|].
  destruct (proj2 (search_max_chain 1 sample_words sample_puzzle
                     ltac:(lia)) eq_refl 0)
    as (solutions & Hsearch & Hnd & _).
  exists solutions. split; [exact Hsearch|exact Hnd].
Defined.

End MaxChain.

(** * Termination of the chain search *)

(** The nodes an iteration can start from: the root and its children. *)
Definition starts (self : LetterBoxedSolver.t) : list LetterNode.t :=
  LetterBoxedSolver.word_graph self
    :: (map_to_list (LetterNode.nodes (LetterBoxedSolver.word_graph self))).*2.

(** The words a single-word search can return during a chain search. *)
Definition vocabulary (self : LetterBoxedSolver.t) (puzzle : Puzzle)
    : list string :=
  n ← starts self; (LetterNode.search n puzzle None).*1.

(** A bound on the number of results of one single-word search. *)
Definition fanout (self : LetterBoxedSolver.t) (puzzle : Puzzle) : nat :=
  sum_list_with (λ n, length (LetterNode.search n puzzle None)) (starts self).

(** The number of iterations an entry can cause when its chain can still
    grow by [d] words and every search returns at most [R] results. *)
Fixpoint budget (R d : nat) : nat :=
  match d with
  | O => 1
  | S d => 1 + R * budget R d
  end.

Definition weight (self : LetterBoxedSolver.t) (puzzle : Puzzle)
    (lf : LetterBoxedSolver.leaf) : nat :=
  budget (fanout self puzzle)
         (length (vocabulary self puzzle) - length lf.1).

(** The iterations left: those of the current entry and of the frontier. *)
Definition potential (self : LetterBoxedSolver.t) (puzzle : Puzzle)
    (v : LetterBoxedSolver.vars) (current_list : LetterBoxedSolver.leaf)
    : nat :=
  weight self puzzle current_list
  + sum_list_with (weight self puzzle) (LetterBoxedSolver.in_progress_lists v).

Section Termination.

Import LetterBoxedSolver.

Variables (self : t) (puzzle : Puzzle).

Lemma budget_pos R d : 1 ≤ budget R d.
Proof. destruct d; simpl; lia. Qed.

Lemma search_word_any_edge n ce r :
  r ∈ LetterNode.search n puzzle ce →
  r.1 ∈ (LetterNode.search n puzzle None).*1.
Proof.
  intros Hr. apply list_elem_of_fmap.
  apply elem_of_search in Hr
    as [[Hword ->]|(edge & l & child & r' & Hedge & Hl & Hchild & Hr' & ->)].
  - exists (LetterNode.letter n, None). split; [done|].
    apply elem_of_search. by left.
  - exists (LetterNode.letter n +:+ r'.1, r'.2). split; [done|].
    apply elem_of_search. right. exists edge, l, child, r'.
    apply next_edges_spec in Hedge as [Hedge _].
    repeat split; try done; by apply next_edges_spec.
Qed.

Lemma length_bind_filter {A B} (P : A → Prop) `{∀ x, Decision (P x)}
    (f : A → list B) (l : list A) :
  length (filter P l ≫= f) ≤ length (l ≫= f).
Proof.
  induction l as [|x l IH]; [done|].
  rewrite filter_cons, bind_cons, length_app.
  destruct (decide (P x)); [rewrite bind_cons, length_app|]; lia.
Qed.

Lemma length_search_any_edge n ce :
  length (LetterNode.search n puzzle ce)
  ≤ length (LetterNode.search n puzzle None).
Proof.
  rewrite !search_unfold, !length_app.
  apply Nat.add_le_mono; [by destruct (LetterNode.word n)|].
  destruct ce as [ce|]; [|done]. apply length_bind_filter.
Qed.

Lemma start_node_starts ws node :
  start_node self ws = inr (Some node) → node ∈ starts self.
Proof.
  unfold start_node, starts. destruct (last ws) as [w|].
  - destruct (last (chars w)) as [l|]; [|done]. intros [= Hnode].
    right. apply list_elem_of_fmap. exists (l, node). split; [done|].
    by apply elem_of_map_to_list.
  - intros [= <-]. by left.
Qed.

Lemma search_vocabulary n ce r :
  n ∈ starts self → r ∈ LetterNode.search n puzzle ce →
  r.1 ∈ vocabulary self puzzle.
Proof.
  intros Hn Hr. apply list_elem_of_bind. exists n. split; [|done].
  by eapply search_word_any_edge.
Qed.

Lemma search_fanout n ce :
  n ∈ starts self →
  length (LetterNode.search n puzzle ce) ≤ fanout self puzzle.
Proof.
  intros Hn. etrans; [apply length_search_any_edge|].
  by apply (sum_list_with_in n
              (λ n, length (LetterNode.search n puzzle None))).
Qed.

(** What the [for] loop adds to the frontier: at most one entry per result,
    each the current chain with a new word of the results behind it. *)
Lemma visit_all_pushed ws results v :
  ∃ pushed,
    in_progress_lists (fold_left (visit self puzzle ws) results v) =
      in_progress_lists v ++ pushed ∧
    length pushed ≤ length results ∧
    Forall (λ lf : leaf, ∃ w, lf.1 = ws ++ [w] ∧ w ∈ results.*1 ∧ w ∉ ws)
           pushed.
Proof.
  revert v. induction results as [|r results IH]; intros v.
  - exists []. by rewrite app_nil_r.
  - cbn [fold_left].
    destruct (IH (visit self puzzle ws v r)) as (pushed & -> & Hlen & Hall).
    assert (Forall (λ lf : leaf, ∃ w, lf.1 = ws ++ [w] ∧
                      w ∈ (r :: results).*1 ∧ w ∉ ws) pushed) as Hall'.
    { eapply Forall_impl; [exact Hall|]. intros lf (w & ? & ? & ?).
      exists w. repeat split; try done. by right. }
    assert (in_progress_lists (visit self puzzle ws v r) = in_progress_lists v
            ∨ (in_progress_lists (visit self puzzle ws v r)
                 = in_progress_lists v ++ [(ws ++ [r.1], r.2)] ∧ r.1 ∉ ws))
      as [->| [-> Hnew]].
    { unfold visit. case_bool_decide as Hin; [by left|].
      destruct (are_all_letters_used _ _).
      - destruct (puzzle_solutions v !! _); by left.
      - destruct (max_chain self >? -1)%Z;
          [destruct (Z.of_nat _ <? max_chain self)%Z|];
          (by left) || by right. }
    + exists pushed. split; [done|]. split; [simpl; lia|done].
    + exists ((ws ++ [r.1], r.2) :: pushed).
      split; [by rewrite <-(assoc_L (++))|]. split; [simpl; lia|].
      constructor; [|done]. exists r.1. repeat split; try done. by left.
Qed.

(** The chains of the frontier: distinct words of the vocabulary. *)
Definition chain_ok (lf : leaf) : Prop :=
  NoDup lf.1 ∧ ∀ w, w ∈ lf.1 → w ∈ vocabulary self puzzle.

Lemma chain_ok_length lf :
  chain_ok lf → length lf.1 ≤ length (vocabulary self puzzle).
Proof. intros [Hnd Hsub]. by apply submseteq_length, NoDup_submseteq. Qed.

Lemma pushed_weight ws pushed :
  Forall chain_ok pushed →
  Forall (λ lf : leaf, length lf.1 = S (length ws)) pushed →
  length pushed ≤ fanout self puzzle →
  S (sum_list_with (weight self puzzle) pushed) ≤ weight self puzzle (ws, None).
Proof.
  intros Hok Hlen Hfan. unfold weight at 2. cbn [fst].
  destruct pushed as [|lf pushed]; [apply budget_pos|].
  assert (length ws < length (vocabulary self puzzle)) as Hlt.
  { apply Forall_cons in Hok as [Hok%chain_ok_length _].
    apply Forall_cons in Hlen as [Hlf _]. lia. }
  replace (length (vocabulary self puzzle) - length ws)
    with (S (length (vocabulary self puzzle) - S (length ws))) by lia.
  cbn [budget]. apply le_n_S.
  etrans; [|apply Nat.mul_le_mono_r, Hfan].
  generalize (lf :: pushed) Hlen. clear. intros l Hl.
  induction Hl as [|x l Hx _ IH]; [done|]. cbn [sum_list_with length].
  unfold weight at 1. rewrite Hx. lia.
Qed.

(** With more fuel than the potential the loop comes to an end. *)
Lemma search_loop_terminates fuel v current_list :
  chain_ok current_list → Forall chain_ok (in_progress_lists v) →
  potential self puzzle v current_list < fuel →
  search_loop fuel self puzzle v current_list ≠ OutOfFuel.
Proof.
  revert v current_list.
  induction fuel as [|fuel IH]; intros v [ws ce] Hcur Hfront Hpot; [lia|].
  cbn [search_loop fst snd].
  destruct (start_node self ws) as [e|[node|]] eqn:Hnode; try done.
  cbn [search_value].
  apply start_node_starts in Hnode.
  destruct (visit_all_pushed ws (LetterNode.search node puzzle ce) v)
    as (pushed & Heq & Hlen & Hpushed).
  assert (Forall chain_ok pushed ∧
          Forall (λ lf : leaf, length lf.1 = S (length ws)) pushed)
    as [Hok Hlens].
  { split; eapply Forall_impl; try exact Hpushed;
      intros lf (w & Hlf & Hw & Hnew).
    - destruct Hcur as [Hnd Hsub]. split; rewrite Hlf.
      + apply NoDup_app. split; [done|]. split; [|apply NoDup_singleton].
        by intros w' Hw' ->%list_elem_of_singleton.
      + intros w' [Hw'| ->%list_elem_of_singleton]%elem_of_app; [auto|].
        apply list_elem_of_fmap in Hw as (r & -> & Hr).
        by eapply search_vocabulary.
    - rewrite Hlf, length_app. simpl. lia. }
  pose proof (pushed_weight ws pushed Hok Hlens) as Hweight.
  destruct (in_progress_lists (fold_left _ _ _)) as [|next rest] eqn:Hfold;
    [done|].
  assert (Forall chain_ok (next :: rest)) as Hall.
  { rewrite Heq. apply Forall_app. by split. }
  apply Forall_cons in Hall as [Hnext Hrest].
  apply IH; [done|done|].
  unfold potential in *. cbn [in_progress_lists].
  assert (sum_list_with (weight self puzzle) (next :: rest)
          = sum_list_with (weight self puzzle) (in_progress_lists v)
            + sum_list_with (weight self puzzle) pushed) as Hsum
    by (by rewrite Heq, sum_list_with_app).
  cbn [sum_list_with] in Hsum.
  assert (length pushed ≤ fanout self puzzle) as Hfan
    by (etrans; [exact Hlen|by apply search_fanout]).
  specialize (Hweight Hfan).
  change (weight self puzzle (ws, ce)) with (weight self puzzle (ws, None))
    in Hpot.
  lia.
Qed.

(** The chain search comes to an end, by returning or by raising, once it
    is given enough fuel. *)
Lemma search_terminates fuel :
  budget (fanout self puzzle) (length (vocabulary self puzzle)) < fuel →
  search fuel self puzzle ≠ Unfinished.
Proof.
  intros Hfuel. unfold search.
  pose proof (search_loop_terminates fuel vars_init current_init) as H.
  destruct (search_loop fuel self puzzle vars_init current_init); try done.
  destruct H; [split; [constructor|by intros ? ?%elem_of_nil]|constructor| |done].
  unfold potential, weight. simpl. rewrite Nat.sub_0_r. lia.
Qed.

End Termination.

Section Fuel.

Import LetterBoxedSolver.

(** More fuel does not change the outcome of a loop that came to an end. *)
Lemma search_loop_fuel fuel fuel' self puzzle v current_list :
  fuel ≤ fuel' →
  search_loop fuel self puzzle v current_list ≠ OutOfFuel →
  search_loop fuel' self puzzle v current_list =
  search_loop fuel self puzzle v current_list.
Proof.
  revert fuel' v current_list.
  induction fuel as [|fuel IH]; intros fuel' v cur Hle Hend; [done|].
  destruct fuel' as [|fuel']; [lia|]. cbn [search_loop] in *.
  destruct (start_node self cur.1) as [e|[node|]]; try done.
  cbn [search_value] in *.
  destruct (in_progress_lists (fold_left _ _ _)) as [|next rest]; [done|].
  apply IH; [lia|done].
Qed.

Lemma search_fuel fuel fuel' self puzzle :
  fuel ≤ fuel' → search fuel self puzzle ≠ Unfinished →
  search fuel' self puzzle = search fuel self puzzle.
Proof.
  intros Hle Hend. unfold search in *.
  rewrite (search_loop_fuel fuel fuel'); [done|done|].
  by destruct (search_loop fuel self puzzle vars_init current_init).
Qed.

End Fuel.

(** * The calls as the interpreter runs them *)

(** The definitions above take [LetterNode.search] as the function of its
    arguments it computes.  Here its body and the iteration of the chain
    search are followed statement by statement, with everything a call can
    do at run time: return [None], raise, or nest deeper than the
    interpreter's stack allows. *)

Module Interp.

(** What a call evaluates to where the caller tests it against [None]. *)
Inductive value : Type :=
| PyNone
| PyList (items : list (string * option Edge)).

Inductive exn : Type :=
| AttributeError   (** [x.search(...)] with [x] being [None] *)
| TypeError        (** [for result in results] with [results] being [None] *)
| IndexError.      (** [current_words[-1][-1]] on an empty word *)

(** The run of a piece of code: it completes with a value, raises, or
    needs more nested calls than [depth] allows. *)
Inductive result (A : Type) : Type :=
| Done (x : A)
| Raise (e : exn)
| TooDeep.

Arguments Done {A} x.
Arguments Raise {A} e.
Arguments TooDeep {A}.

#[local] Instance result_ret : MRet result := λ A x, Done x.

#[local] Instance result_bind : MBind result := λ A B f m,
  match m with
  | Done x => f x
  | Raise e => Raise e
  | TooDeep => TooDeep
  end.

(** [x is None]. *)
Definition is_None {A : Type} (x : option A) : bool :=
  match x with
  | None => true
  | Some _ => false
  end.

(** [for x in l: body], the variables the body assigns being [s]. *)
Fixpoint for_each {A St : Type} (body : St → A → result St)
    (l : list A) (s : St) : result St :=
  match l with
  | [] => Done s
  | x :: l => s ← body s x; for_each body l s
  end.

(** The call [self.search(puzzle, current_edge)], [self] holding a node or
    [None], with [depth] nested calls left. *)
Fixpoint search (depth : nat) (self : option LetterNode.t) (puzzle : Puzzle)
    (current_edge : option Edge) : result value :=
  match self with
  | None => Raise AttributeError
  | Some self =>
      match depth with
      | O => TooDeep
      | S depth =>
          let search_results :=
            if LetterNode.word self
            then [(LetterNode.letter self, current_edge)] else [] in
          let next_edges := LetterNode.next_edges puzzle current_edge in
          search_results ←
            for_each (λ search_results edge,
              for_each (λ search_results letter,
                let current_node := LetterNode.get self (str1 letter) in
                if is_None current_node then Done search_results
                else
                  results ← search depth current_node puzzle (Some edge);
                  match results with
                  | PyNone => Raise TypeError
                  | PyList results =>
                      Done (fold_left
                              (λ search_results result,
                                 search_results
                                 ++ [(LetterNode.letter self +:+ result.1,
                                      result.2)])
                              results search_results)
                  end)
                (edge_letters edge) search_results)
              next_edges search_results;
          Done (PyList search_results)
      end
  end.

(** The node an iteration of the chain search starts from. *)
Definition start_node (self : LetterBoxedSolver.t)
    (current_words : list string) : result (option LetterNode.t) :=
  match last current_words with
  | None => Done (Some (LetterBoxedSolver.word_graph self))
  | Some last_word =>
      match last (chars last_word) with
      | None => Raise IndexError
      | Some last_letter =>
          Done (LetterNode.get (LetterBoxedSolver.word_graph self) last_letter)
      end
  end.

(** The four ways an iteration of [while True] hands over. *)
Inductive step : Type :=
| BreakResultsNone (complete_list : list LetterBoxedSolver.leaf)
    (** [if results is None and len(in_progress_lists) == 0: break] *)
| ContinueResultsNone (v : LetterBoxedSolver.vars)
    (current_list : LetterBoxedSolver.leaf)
    (** [elif results is None: ...; continue] *)
| BreakFrontierEmpty (complete_list : list LetterBoxedSolver.leaf)
    (** [if len(in_progress_lists) == 0: break] after the [for] *)
| NextEntry (v : LetterBoxedSolver.vars)
    (current_list : LetterBoxedSolver.leaf).
    (** [current_list = in_progress_lists.pop(0)] at the end of the body *)

(** One iteration of the [while True] loop of the chain search. *)
Definition iteration (depth : nat) (self : LetterBoxedSolver.t)
    (puzzle : Puzzle) (v : LetterBoxedSolver.vars)
    (current_list : LetterBoxedSolver.leaf) : result step :=
  let current_words := current_list.1 in
  let current_edge := current_list.2 in
  node ← start_node self current_words;
  results ← search depth node puzzle current_edge;
  match results with
  | PyNone =>
      match LetterBoxedSolver.in_progress_lists v with
      | [] => Done (BreakResultsNone (LetterBoxedSolver.complete_list v))
      | next :: rest =>
          Done (ContinueResultsNone
                  (LetterBoxedSolver.mkVars
                     (LetterBoxedSolver.complete_list v) rest
                     (LetterBoxedSolver.puzzle_solutions v)) next)
      end
  | PyList results =>
      let v :=
        fold_left (LetterBoxedSolver.visit self puzzle current_words)
                  results v in
      match LetterBoxedSolver.in_progress_lists v with
      | [] => Done (BreakFrontierEmpty (LetterBoxedSolver.complete_list v))
      | next :: rest =>
          Done (NextEntry
                  (LetterBoxedSolver.mkVars
                     (LetterBoxedSolver.complete_list v) rest
                     (LetterBoxedSolver.puzzle_solutions v)) next)
      end
  end.

(** How the loop ends. *)
Inductive loop_result : Type :=
| Break (via : LetterBoxedSolver.exit_point)
    (complete_list : list LetterBoxedSolver.leaf)
| Raised (e : exn)
| Overflow
| OutOfFuel.

(** The [while True] loop, one iteration per unit of [fuel]. *)
Fixpoint search_loop (depth fuel : nat) (self : LetterBoxedSolver.t)
    (puzzle : Puzzle) (v : LetterBoxedSolver.vars)
    (current_list : LetterBoxedSolver.leaf) : loop_result :=
  match fuel with
  | O => OutOfFuel
  | S fuel =>
      match iteration depth self puzzle v current_list with
      | Done (BreakResultsNone complete_list) =>
          Break LetterBoxedSolver.ResultsNone complete_list
      | Done (ContinueResultsNone v next) =>
          search_loop depth fuel self puzzle v next
      | Done (BreakFrontierEmpty complete_list) =>
          Break LetterBoxedSolver.FrontierEmpty complete_list
      | Done (NextEntry v next) =>
          search_loop depth fuel self puzzle v next
      | Raise e => Raised e
      | TooDeep => Overflow
      end
  end.

(** The exceptions of the chain search among those of a run. *)
Definition of_exn (e : LetterBoxedSolver.exn) : exn :=
  match e with
  | LetterBoxedSolver.AttributeError => AttributeError
  | LetterBoxedSolver.IndexError => IndexError
  end.

Definition of_loop_result (r : LetterBoxedSolver.loop_result) : loop_result :=
  match r with
  | LetterBoxedSolver.Break via complete_list => Break via complete_list
  | LetterBoxedSolver.Raise e => Raised (of_exn e)
  | LetterBoxedSolver.OutOfFuel => OutOfFuel
  end.

End Interp.

Section Runs.

Import LetterNode LetterBoxedSolver.

Lemma for_each_appends {A B} (body : list B → A → Interp.result (list B))
    (g : A → list B) l s :
  (∀ s x, x ∈ l → body s x = Interp.Done (s ++ g x)) →
  Interp.for_each body l s = Interp.Done (s ++ (x ← l; g x)).
Proof.
  revert s. induction l as [|x l IH]; intros s Hbody.
  - simpl. by rewrite app_nil_r.
  - cbn [Interp.for_each]. rewrite Hbody by apply list_elem_of_here.
    cbn [mbind Interp.result_bind].
    rewrite IH by (intros; apply Hbody; by apply list_elem_of_further).
    by rewrite bind_cons, app_assoc.
Qed.

Lemma fold_left_append {A B} (f : A → B) l s :
  fold_left (λ acc x, acc ++ [f x]) l s = s ++ (f <$> l).
Proof.
  revert s. induction l as [|x l IH]; intros s; simpl.
  - by rewrite app_nil_r.
  - by rewrite IH, <-app_assoc.
Qed.

Lemma height_pos self : 0 < height self.
Proof. destruct self. simpl. lia. Qed.

(** Run with as many nested calls as the trie is high, [search] completes,
    with the list [LetterNode.search] computes. *)
Lemma search_runs puzzle self :
  ∀ depth current_edge, height self ≤ depth →
    Interp.search depth (Some self) puzzle current_edge
    = Interp.Done (Interp.PyList (LetterNode.search self puzzle current_edge)).
Proof.
  induction self as [self IH] using node_ind. intros depth ce Hdepth.
  destruct depth as [|depth]; [pose proof (height_pos self); lia|].
  rewrite search_unfold. cbn [Interp.search].
  rewrite (for_each_appends _
    (λ edge, l ← edge_letters edge;
             match get self (str1 l) with
             | None => []
             | Some current_node =>
                 (λ result, (letter self +:+ result.1, result.2))
                   <$> LetterNode.search current_node puzzle (Some edge)
             end)); [done|].
  intros s edge _. apply for_each_appends. intros s' l _.
  destruct (get self (str1 l)) as [child|] eqn:Hchild; cbn [Interp.is_None].
  - rewrite (IH _ _ Hchild) by (apply height_child in Hchild; lia).
    cbn [mbind Interp.result_bind]. by rewrite fold_left_append.
  - by rewrite app_nil_r.
Qed.

Lemma start_node_run self current_words :
  Interp.start_node self current_words =
    match start_node self current_words with
    | inl e => Interp.Raise (Interp.of_exn e)
    | inr node => Interp.Done node
    end.
Proof.
  unfold Interp.start_node, start_node.
  destruct (last current_words) as [w|]; [|done].
  by destruct (last (chars w)).
Qed.

Lemma start_node_height self current_words node :
  start_node self current_words = inr (Some node) →
  height node ≤ height (word_graph self).
Proof.
  unfold start_node. destruct (last current_words) as [w|].
  - destruct (last (chars w)) as [l|]; [|done]. intros [= Hnode].
    apply height_child in Hnode. lia.
  - by intros [= <-].
Qed.

(** What an iteration comes to, the root being no higher than [depth]. *)
Lemma iteration_runs depth self puzzle v current_list :
  height (word_graph self) ≤ depth →
  Interp.iteration depth self puzzle v current_list =
    match start_node self current_list.1 with
    | inl e => Interp.Raise (Interp.of_exn e)
    | inr None => Interp.Raise Interp.AttributeError
    | inr (Some node) =>
        let v := fold_left (visit self puzzle current_list.1)
                           (LetterNode.search node puzzle current_list.2) v in
        match in_progress_lists v with
        | [] => Interp.Done (Interp.BreakFrontierEmpty (complete_list v))
        | next :: rest =>
            Interp.Done
              (Interp.NextEntry
                 (mkVars (complete_list v) rest (puzzle_solutions v)) next)
        end
    end.
Proof.
  intros Hdepth. unfold Interp.iteration. rewrite start_node_run.
  destruct (start_node self current_list.1) as [e|[node|]] eqn:Hnode;
    cbn [mbind Interp.result_bind]; [done| |by destruct depth].
  rewrite search_runs by (apply start_node_height in Hnode; lia).
  done.
Qed.

(** The loop run statement by statement is the loop of the chain search. *)
Lemma search_loop_runs depth fuel self puzzle v current_list :
  height (word_graph self) ≤ depth →
  Interp.search_loop depth fuel self puzzle v current_list
  = Interp.of_loop_result (search_loop fuel self puzzle v current_list).
Proof.
  intros Hdepth. revert v current_list.
  induction fuel as [|fuel IH]; intros v cur; [done|].
  cbn [Interp.search_loop search_loop]. rewrite iteration_runs by done.
  destruct (start_node self cur.1) as [e|[node|]]; [done| |done].
  cbn [search_value].
  destruct (in_progress_lists (fold_left _ _ _)) as [|next rest]; [done|].
  apply IH.
Qed.

End Runs.

Section Totality.

Import LetterBoxedSolver.




End Totality.


(** * Further properties of the trie solver *)

Section SingleWordExact.

Import LetterBoxedSolver.

Lemma root_letter_build mc words :
  LetterNode.letter (word_graph (build mc words)) = "".
Proof. unfold build. by rewrite letter_fold_add. Qed.

(** A word found from the root other than the empty one was inserted. *)
Lemma search_root_word_inserted mc words puzzle r :
  r ∈ LetterNode.search (word_graph (build mc words)) puzzle None →
  r.1 ≠ "" → r.1 ∈ words.
Proof.
  intros Hr Hne.
  destruct (search_path _ _ _ _ (build_wf mc words) Hr)
    as (suffix & m & Heq & Hm & Hword).
  rewrite root_letter_build in Heq.
  change ("" +:+ suffix) with suffix in Heq. subst suffix.
  destruct (chars r.1) as [|k path] eqn:Hchars.
  - by destruct (r.1).
  - pose proof (wf_descend_terminal _ _ _ _ (build_wf mc words) Hm Hword)
      as Hterm.
    destruct (proj1 (terminal_at_build mc words (k :: path)))
      as (w & Hw & Heq).
    { unfold terminal_at. by rewrite Hm. }
    rewrite <-Hchars in Heq. by apply chars_inj in Heq as ->.
Qed.

(** The single-word search from the root, with no current edge, returns
    the pair of a non-empty word and an edge exactly when the word was
    inserted and its letters have an edge assignment ending on that
    edge. *)
Theorem root_search_exact mc words puzzle w e :
  w ≠ "" →
  (w, e) ∈ LetterNode.search (word_graph (build mc words)) puzzle None ↔
  w ∈ words ∧ ∃ es, assignment puzzle (letters_of w) es ∧ last es = e.
Proof.
  intros Hne. split.
  - intros Hr. split; [by apply (search_root_word_inserted mc words puzzle (w, e))|].
    destruct (search_assignment _ _ _ _ (build_wf mc words) Hr)
      as (suffix & es & Heq & Hasg & _ & Hlast).
    rewrite root_letter_build in Heq.
    change ("" +:+ suffix) with suffix in Heq. simpl in Heq, Hlast.
    subst suffix. exists es. split; [done|]. rewrite Hlast.
    by destruct (last es).
  - intros (Hw & es & Hasg & <-).
    pose proof (proj2 (terminal_at_build mc words (chars w))) as Hterm.
    unfold terminal_at in Hterm.
    destruct (LetterNode.descend (word_graph (build mc words)) (chars w))
      as [m|] eqn:Hm; [|discriminate Hterm; eauto].
    assert (LetterNode.word m = true) as Hword.
    { unfold LetterNode.word. rewrite Hterm by eauto. apply orb_true_r. }
    pose proof (search_complete _ puzzle None w es m (build_wf mc words)
                  Hm Hword Hasg) as Hin.
    rewrite root_letter_build in Hin. change ("" +:+ w) with w in Hin.
    replace (last es) with (from_option Some None (last es))
      by (by destruct (last es)).
    by apply Hin.
Qed.

Lemma root_search_exact_witness :
  ("adg" : string) ≠ "" ∧
  ("adg", Some (top sample_puzzle))
    ∈ LetterNode.search (word_graph (build (-1) ["adg"; "abc"]))
        sample_puzzle None.
Proof.
  split; [done|].
  apply (root_search_exact (-1) ["adg"; "abc"] sample_puzzle "adg"
           (Some (top sample_puzzle))); [done|].
  split; [apply list_elem_of_here|].
  exists [left sample_puzzle; right sample_puzzle; top sample_puzzle].
  split; [|done]. split.
  - repeat constructor.
  - repeat constructor.
  - intros [|[|[|i]]] e1 e2 [= <-] [= <-]; done.
Defined.

End SingleWordExact.

Section ChainSearchMore.

Import LetterBoxedSolver.

(** The chain search comes to an end, whatever the solver and the puzzle:
    from some budget on it returns or raises, and a larger budget does not
    change the outcome. *)
Theorem search_always_ends self puzzle :
  ∃ fuel,
    search fuel self puzzle ≠ Unfinished ∧
    ∀ fuel', fuel ≤ fuel' →
      search fuel' self puzzle = search fuel self puzzle.
Proof.
  exists (S (budget (fanout self puzzle) (length (vocabulary self puzzle)))).
  assert (search (S (budget (fanout self puzzle)
                       (length (vocabulary self puzzle)))) self puzzle
          ≠ Unfinished) as Hend by (apply search_terminates; lia).
  split; [exact Hend|]. intros fuel' Hle. by apply search_fuel.
Qed.

(** [are_all_letters_used] holds of a list of words exactly when every
    letter of every edge of the puzzle occurs in one of the words. *)
Theorem coverage_exact puzzle words :
  are_all_letters_used puzzle words = true ↔
  ∀ e l, e ∈ edges puzzle → l ∈ edge_letters e →
         ∃ w, w ∈ words ∧ l ∈ letters_of w.
Proof. rewrite are_all_letters_used_spec. naive_solver. Qed.

Lemma coverage_mono puzzle words words' :
  (∀ w, w ∈ words → w ∈ words') →
  are_all_letters_used puzzle words = true →
  are_all_letters_used puzzle words' = true.
Proof.
  rewrite !are_all_letters_used_spec. intros Hsub H e He l Hl.
  destruct (H e He l Hl) as (w & Hw & Hlw). eauto.
Qed.

Lemma no_words_cover_nothing puzzle : are_all_letters_used puzzle [] = false.
Proof.
  apply not_true_iff_false. rewrite are_all_letters_used_spec. intros H.
  destruct (H (left puzzle) (list_elem_of_here _ _) (a (left puzzle))
              (list_elem_of_here _ _)) as (w & Hw%elem_of_nil & _). done.
Qed.

(** An invariant of the solutions and of the keys already reported that
    every round of the [for] loop keeps holds when the loop ends. *)
Lemma search_loop_reported (self : t) (puzzle : Puzzle)
    (I : list leaf → gmap string bool → Prop) :
  (∀ ws v r, I (complete_list v) (puzzle_solutions v) →
     I (complete_list (visit self puzzle ws v r))
       (puzzle_solutions (visit self puzzle ws v r))) →
  ∀ fuel v current_list via complete,
    I (complete_list v) (puzzle_solutions v) →
    search_loop fuel self puzzle v current_list = Break via complete →
    ∃ reported, I complete reported.
Proof.
  intros Hvisit.
  assert (∀ ws rs v, I (complete_list v) (puzzle_solutions v) →
            I (complete_list (fold_left (visit self puzzle ws) rs v))
              (puzzle_solutions (fold_left (visit self puzzle ws) rs v)))
    as Hfold.
  { intros ws rs. induction rs as [|r rs IH]; intros v Hv; [done|].
    cbn [fold_left]. by apply IH, Hvisit. }
  induction fuel as [|fuel IH]; intros v cur via complete Hv; [done|].
  cbn [search_loop].
  destruct (start_node self cur.1) as [e|[node|]]; try done.
  cbn [search_value].
  specialize (Hfold cur.1 (LetterNode.search node puzzle cur.2) v Hv).
  destruct (in_progress_lists (fold_left _ _ _)) as [|next rest].
  - intros [= _ <-]. eauto.
  - apply IH. exact Hfold.
Qed.

(** No chain is returned twice. *)
Theorem search_no_duplicates fuel self puzzle solutions :
  search fuel self puzzle = Returned solutions → NoDup solutions.
Proof.
  unfold search.
  destruct (search_loop fuel self puzzle vars_init current_init)
    as [via complete| |] eqn:Hloop; try done.
  intros [= <-]. rewrite sort_by_key_perm.
  destruct (search_loop_reported self puzzle
    (λ cl reported, NoDup cl.*1 ∧
       ∀ chain, chain ∈ cl.*1 → is_Some (reported !! join "_" chain)))
    with fuel vars_init current_init via complete as (reported & Hnd & _);
    [| |exact Hloop|exact Hnd].
  - intros ws v r [Hnd Hkeys]. unfold visit.
    case_bool_decide; [done|].
    destruct (are_all_letters_used _ _).
    + destruct (puzzle_solutions v !! _) eqn:Hkey; [done|].
      cbn [complete_list puzzle_solutions]. rewrite fmap_app. split.
      * apply NoDup_app. split; [done|]. split; [|apply NoDup_singleton].
        intros chain Hin ->%list_elem_of_singleton.
        apply Hkeys in Hin as [? Hin]. cbn [fst] in Hin. congruence.
      * intros chain [Hin| ->%list_elem_of_singleton]%elem_of_app.
        -- rewrite lookup_insert. case_decide; [done|]. by apply Hkeys.
        -- cbn [fst]. by rewrite lookup_insert_eq.
    + destruct (max_chain self >? -1)%Z;
        [destruct (Z.of_nat _ <? max_chain self)%Z|]; done.
  - split; [constructor|]. by intros chain ?%elem_of_nil.
Qed.

Lemma search_no_duplicates_witness :
  search 10 (build 2 sample_words) sample_puzzle = Returned sample_solutions ∧
  NoDup sample_solutions.
Proof.
  split; [vm_compute; reflexivity|].
  apply (search_no_duplicates 10 (build 2 sample_words) sample_puzzle).
  vm_compute. reflexivity.
Defined.

(** A chain returned is a leaf of the exploration: it is not empty and no
    chain of its first words alone covers the puzzle. *)
Theorem search_solution_is_leaf fuel self puzzle solutions :
  search fuel self puzzle = Returned solutions →
  ∀ chain, chain ∈ solutions →
    chain ≠ [] ∧
    ∀ k, k < length chain →
         are_all_letters_used puzzle (take k chain) = false.
Proof.
  intros Hsearch chain Hchain.
  assert (∃ edge : option Edge, ∃ ws w,
            chain = ws ++ [w] ∧ are_all_letters_used puzzle ws = false)
    as (_ & ws & w & -> & Hws).
  { apply (search_ok self puzzle
             (λ lf, are_all_letters_used puzzle lf.1 = false)
             (λ lf, ∃ ws w, lf.1 = ws ++ [w] ∧
                            are_all_letters_used puzzle ws = false))
      with fuel solutions; [|apply no_words_cover_nothing|done|done].
    intros [ws e] node r Hws _ _ _. simpl in *. split; [eauto|done]. }
  split; [by destruct ws|].
  intros k Hk. rewrite length_app in Hk. simpl in Hk.
  rewrite take_app_le by lia.
  apply not_true_iff_false. intros Hcov.
  apply (coverage_mono _ _ ws) in Hcov; [congruence|].
  intros w' (i & Hi & _)%elem_of_take. by eapply list_elem_of_lookup_2.
Qed.

Lemma search_solution_is_leaf_witness :
  search 10 (build 2 sample_words) sample_puzzle = Returned sample_solutions ∧
  are_all_letters_used sample_puzzle (take 1 ["adgjbeh"; "hkcfil"]) = false.
Proof.
  split; [vm_compute; reflexivity|].
  apply (search_solution_is_leaf 10 (build 2 sample_words) sample_puzzle
           sample_solutions); [vm_compute; reflexivity| |simpl; lia].
  apply list_elem_of_further, list_elem_of_here.
Defined.

End ChainSearchMore.

Section Raising.

Import LetterBoxedSolver.

Variables (self : t) (puzzle : Puzzle).

(** An entry the loop cannot expand: looking up its start node raises or
    finds no node. *)
Definition stuck (lf : leaf) : Prop :=
  match start_node self lf.1 with
  | inr (Some _) => False
  | _ => True
  end.

(** Once a stuck entry is the current one or waits in the frontier the
    loop does not leave through a [break]. *)
Lemma search_loop_stuck fuel v current_list via complete :
  stuck current_list ∨ Exists stuck (in_progress_lists v) →
  search_loop fuel self puzzle v current_list ≠ Break via complete.
Proof.
  revert v current_list.
  induction fuel as [|fuel IH]; intros v cur Hstuck; [done|].
  cbn [search_loop]. unfold stuck in Hstuck at 1.
  destruct (start_node self cur.1) as [e|[node|]]; try done.
  cbn [search_value].
  destruct Hstuck as [[]|Hstuck].
  destruct (visit_all_pushed self puzzle cur.1
              (LetterNode.search node puzzle cur.2) v)
    as (pushed & Heq & _).
  assert (Exists stuck (in_progress_lists
            (fold_left (visit self puzzle cur.1)
               (LetterNode.search node puzzle cur.2) v))) as Hex
    by (rewrite Heq; apply Exists_app; by left).
  destruct (in_progress_lists (fold_left _ _ _)) as [|next rest].
  - by apply Exists_nil in Hex.
  - apply IH. by apply Exists_cons in Hex.
Qed.

(** A result that is new to the chain, does not complete it and is within
    the bound is in the frontier after the [for] loop. *)
Lemma visit_all_pushes ws results v r :
  r ∈ results → r.1 ∉ ws →
  are_all_letters_used puzzle (ws ++ [r.1]) = false →
  may_grow self (ws ++ [r.1]) →
  (ws ++ [r.1], r.2)
    ∈ in_progress_lists (fold_left (visit self puzzle ws) results v).
Proof.
  intros Hr Hnew Hcov Hgrow. revert v.
  induction results as [|r' results IH]; intros v;
    [by apply elem_of_nil in Hr|].
  cbn [fold_left]. apply elem_of_cons in Hr as [<-|Hr]; [|by apply IH].
  destruct (visit_all_pushed self puzzle ws results (visit self puzzle ws v r))
    as (pushed & -> & _).
  apply elem_of_app. left. unfold visit.
  rewrite bool_decide_eq_false_2 by done. rewrite Hcov.
  unfold may_grow in Hgrow.
  destruct (max_chain self >? -1)%Z; [rewrite Hgrow by done|];
    cbn [in_progress_lists]; apply elem_of_app; right; apply list_elem_of_here.
Qed.

End Raising.

Section RaisingProperties.

Import LetterBoxedSolver.

(** A dead end makes the chain search raise: when the single-word search
    from the root finds a word that does not cover the puzzle alone and
    whose last letter starts no inserted word, and the bound lets chains
    of two words through, the search returns no list; it raises. *)
Theorem search_dead_end_raises self puzzle r last_letter fuel :
  r ∈ LetterNode.search (word_graph self) puzzle None →
  are_all_letters_used puzzle [r.1] = false →
  last (chars r.1) = Some last_letter →
  LetterNode.get (word_graph self) last_letter = None →
  (max_chain self ≤ -1 ∨ 2 ≤ max_chain self)%Z →
  budget (fanout self puzzle) (length (vocabulary self puzzle)) < fuel →
  ∃ e, search fuel self puzzle = Raised e.
Proof.
  intros Hr Hcov Hlast Hget Hmc Hfuel.
  pose proof (search_terminates self puzzle fuel Hfuel) as Hend.
  unfold search in *.
  destruct (search_loop fuel self puzzle vars_init current_init)
    as [via complete|e|] eqn:Hloop; [|eauto|done].
  exfalso. destruct fuel as [|fuel]; [done|].
  cbn [search_loop current_init fst snd] in Hloop.
  unfold start_node in Hloop. cbn [last search_value] in Hloop.
  pose proof (visit_all_pushes self puzzle []
    (LetterNode.search (word_graph self) puzzle None) vars_init r Hr
    (not_elem_of_nil _) Hcov) as Hin.
  destruct (in_progress_lists (fold_left _ _ _)) as [|next rest] eqn:Hfront.
  - assert (may_grow self ([] ++ [r.1])) as Hgrow.
    { intros Hgt. apply Z.gtb_lt in Hgt. apply Z.ltb_lt. simpl. lia. }
    specialize (Hin Hgrow). by apply elem_of_nil in Hin.
  - revert Hloop. apply search_loop_stuck. cbn [in_progress_lists].
    assert (stuck self ([] ++ [r.1], r.2)) as Hstuck.
    { unfold stuck, start_node. simpl. by rewrite Hlast, Hget. }
    assert (may_grow self ([] ++ [r.1])) as Hgrow.
    { intros Hgt. apply Z.gtb_lt in Hgt. apply Z.ltb_lt. simpl. lia. }
    specialize (Hin Hgrow).
    apply elem_of_cons in Hin as [<-|Hin]; [by left|].
    right. apply Exists_exists. eauto.
Qed.

Lemma search_dead_end_raises_witness :
  ("ad", Some (right sample_puzzle))
    ∈ LetterNode.search (word_graph (build (-1) ["ad"])) sample_puzzle None ∧
  ∃ e, search 8 (build (-1) ["ad"]) sample_puzzle = Raised e.
Proof.
  split; [vm_compute; apply list_elem_of_here|].
  apply (search_dead_end_raises (build (-1) ["ad"]) sample_puzzle
           ("ad", Some (right sample_puzzle)) "d" 8).
  - vm_compute. apply list_elem_of_here.
  - vm_compute. reflexivity.
  - reflexivity.
  - vm_compute. reflexivity.
  - left. simpl. lia.
  - apply Nat.ltb_lt. vm_compute. reflexivity.
Defined.

(** When the root is a word boundary (no word was inserted, or the empty
    word was) and the bound lets chains of two words through, the chain
    [[""]] is the first of the frontier and expanding it raises
    IndexError. *)
Theorem search_empty_word_raises self puzzle fuel :
  LetterNode.word (word_graph self) = true →
  LetterNode.letter (word_graph self) = "" →
  (max_chain self ≤ -1 ∨ 2 ≤ max_chain self)%Z →
  search (S (S fuel)) self puzzle = Raised IndexError.
Proof.
  intros Hword Hletter Hmc. unfold search.
  cbn [search_loop current_init fst snd]. unfold start_node at 1.
  cbn [last search_value].
  rewrite search_unfold, Hword, Hletter. cbn [app fold_left].
  assert (visit self puzzle [] vars_init ("", None)
          = mkVars [] [([""], None)] ∅) as ->.
  { unfold visit. rewrite bool_decide_eq_false_2 by apply not_elem_of_nil.
    cbn [app fst snd]. rewrite empty_word_covers_nothing.
    destruct (max_chain self >? -1)%Z eqn:Hgt; [|done].
    apply Z.gtb_lt in Hgt.
    assert ((Z.of_nat (length [""]) <? max_chain self)%Z = true) as ->;
      [|done].
    apply Z.ltb_lt. simpl. lia. }
  match goal with |- context [fold_left ?f ?rs ?v] =>
    destruct (visit_all_pushed self puzzle [] rs v) as (pushed & -> & _)
  end.
  cbn [in_progress_lists app]. reflexivity.
Qed.

Lemma search_empty_word_raises_witness :
  LetterNode.word (word_graph (build (-1) [])) = true ∧
  search 2 (build (-1) []) sample_puzzle = Raised IndexError.
Proof.
  split; [reflexivity|].
  apply (search_empty_word_raises (build (-1) []) sample_puzzle 0);
    [reflexivity|reflexivity|left; simpl; lia].
Defined.

Lemma word_graph_fold_add words s s' :
  word_graph s = word_graph s' →
  word_graph (fold_left add words s) = word_graph (fold_left add words s').
Proof.
  revert s s'. induction words as [|w words IH]; intros s s' H; [done|].
  cbn [fold_left]. apply IH. unfold add. cbn [word_graph]. by rewrite H.
Qed.

(** The bound 0 is not enforced: with [max_chain = 0] the search returns
    what it returns with [max_chain = 1], the one-word solutions. *)
Theorem search_max_chain_zero fuel words puzzle :
  search fuel (build 0 words) puzzle = search fuel (build 1 words) puzzle.
Proof.
  destruct fuel as [|fuel]; [done|].
  assert (word_graph (build 0 words) = word_graph (build 1 words)) as Hgraph
    by (by apply word_graph_fold_add).
  assert (max_chain (build 0 words) = 0%Z ∧ max_chain (build 1 words) = 1%Z)
    as [H0 H1] by (unfold build; by rewrite !max_chain_fold_add).
  pose proof (visit_all_single (build 1 words) puzzle
    (LetterNode.search (word_graph (build 1 words)) puzzle None) H1)
    as (Hf & _).
  assert (∀ rs v, fold_left (visit (build 0 words) puzzle []) rs v
                  = fold_left (visit (build 1 words) puzzle []) rs v) as Hfold.
  { induction rs as [|r rs IH]; intros v; [done|]. cbn [fold_left].
    rewrite IH. f_equal. unfold visit. rewrite H0, H1. cbn [app length].
    by destruct (are_all_letters_used _ _). }
  unfold search. cbn [search_loop current_init fst snd]. unfold start_node.
  cbn [last search_value]. rewrite Hgraph, Hfold, Hf. done.
Qed.

End RaisingProperties.

Section InsertionMore.

Import LetterBoxedSolver.

(** One step of [add], as a node. *)
Lemma add_from_cons n l rest :
  add_from n (l :: rest) =
    LetterNode.Node (LetterNode.letter n) (LetterNode.terminal n)
      (<[l := add_from (default (LetterNode.new l) (LetterNode.get n l)) rest]>
         (LetterNode.nodes n)).
Proof.
  cbn [add_from]. destruct (LetterNode.get n l) as [node|]; [done|].
  unfold LetterNode.with_child, LetterNode.add. simpl.
  by rewrite insert_insert_eq.
Qed.

Lemma add_from_comm n ls1 ls2 :
  add_from (add_from n ls1) ls2 = add_from (add_from n ls2) ls1.
Proof.
  revert n ls2. induction ls1 as [|l1 r1 IH]; intros n ls2.
  - destruct ls2 as [|l2 r2]; [done|].
    rewrite !add_from_cons. cbn [add_from]. by destruct n.
  - destruct ls2 as [|l2 r2].
    + rewrite !add_from_cons. cbn [add_from]. by destruct n.
    + rewrite (add_from_cons n l1), (add_from_cons n l2), !add_from_cons.
      unfold LetterNode.get. cbn [LetterNode.letter LetterNode.terminal
        LetterNode.nodes]. f_equal.
      destruct (decide (l1 = l2)) as [->|Hne].
      * rewrite !lookup_insert_eq, !insert_insert_eq. cbn [default].
        f_equal. apply IH.
      * rewrite !lookup_insert_ne by done. by apply insert_insert_ne.
Qed.

Lemma add_swap self w1 w2 : add (add self w1) w2 = add (add self w2) w1.
Proof.
  unfold add. cbn [word_graph max_chain max_iterations].
  by rewrite add_from_comm.
Qed.

(** Insertions commute: the solver, with its trie and all its flags, does
    not depend on the order in which two words were inserted. *)
Theorem add_comm self w1 w2 :
  add (add self w1) w2 = add (add self w2) w1.
Proof. apply add_swap. Qed.

Lemma fold_add_perm words words' s :
  words ≡ₚ words' → fold_left add words s = fold_left add words' s.
Proof.
  intros Hperm. revert s.
  induction Hperm as [|w ws ws' _ IH|w1 w2 ws|ws1 ws2 ws3 _ IH1 _ IH2];
    intros s; cbn [fold_left].
  - done.
  - apply IH.
  - by rewrite add_swap.
  - by rewrite IH1, IH2.
Qed.

(** The solver built from a word list, and so every result of its
    searches, is the same for every order of the list. *)
Theorem build_permutation mc words words' :
  words ≡ₚ words' → build mc words = build mc words'.
Proof. apply fold_add_perm. Qed.

Lemma build_permutation_witness :
  ["adg"; "gja"; "ad"] ≡ₚ ["ad"; "adg"; "gja"] ∧
  build 2 ["adg"; "gja"; "ad"] = build 2 ["ad"; "adg"; "gja"].
Proof.
  assert (["adg"; "gja"; "ad"] ≡ₚ ["ad"; "adg"; "gja"]) as H.
  { change (["adg"; "gja"] ++ ["ad"] ≡ₚ ["ad"] ++ ["adg"; "gja"]).
    apply Permutation_app_comm. }
  split; [exact H|]. apply (build_permutation 2 _ _ H).
Defined.

Lemma descend_terminal_inserted mc words w m :
  LetterNode.descend (word_graph (build mc words)) (chars w) = Some m →
  LetterNode.terminal m = true → w ∈ words.
Proof.
  intros Hm Hterm.
  destruct (proj1 (terminal_at_build mc words (chars w))) as (w' & Hw' & Heq).
  { unfold terminal_at. by rewrite Hm. }
  by apply chars_inj in Heq as ->.
Qed.

(** A word leads from the root to a node marked as terminal exactly when
    it was inserted. *)
Theorem terminal_iff_inserted mc words w :
  (∃ m, LetterNode.descend (word_graph (build mc words)) (chars w) = Some m ∧
        LetterNode.terminal m = true) ↔
  w ∈ words.
Proof.
  split.
  - intros (m & Hm & Hterm). by eapply descend_terminal_inserted.
  - intros Hw.
    pose proof (proj2 (terminal_at_build mc words (chars w))) as H.
    unfold terminal_at in H.
    destruct (LetterNode.descend (word_graph (build mc words)) (chars w))
      as [m|]; [|discriminate H; eauto].
    exists m. split; [done|]. apply H. eauto.
Qed.

End InsertionMore.

Section ChainWords.

Import LetterBoxedSolver.

Lemma chars_letters_of w : chars w = str1 <$> letters_of w.
Proof. induction w as [|x w IH]; [done|]. simpl. by rewrite IH. Qed.

Lemma last_letter_chars w l :
  last (chars w) = Some l → ∃ x, l = str1 x ∧ last (letters_of w) = Some x.
Proof.
  rewrite chars_letters_of, fmap_last.
  destruct (last (letters_of w)) as [x|]; [|done]. intros [= <-]. eauto.
Qed.

(** The edge kept with a chain is an edge of the puzzle that holds the
    last letter of its last word. *)
Definition ends_on (puzzle : Puzzle) (lf : leaf) : Prop :=
  match last lf.1 with
  | None => lf.2 = None
  | Some w =>
      ∃ f x, lf.2 = Some f ∧ f ∈ edges puzzle ∧
             last (letters_of w) = Some x ∧ x ∈ edge_letters f
  end.

(** The word is a non-empty inserted word with an edge assignment. *)
Definition playable (words : list string) (puzzle : Puzzle) (w : string)
    : Prop :=
  w ∈ words ∧ w ≠ "" ∧ ∃ es, assignment puzzle (letters_of w) es.

Lemma assignment_last puzzle ls es x :
  assignment puzzle ls es → last ls = Some x →
  ∃ f, last es = Some f ∧ f ∈ edges puzzle ∧ x ∈ edge_letters f.
Proof.
  intros [Hedges Hletters _] Hx.
  pose proof (Forall2_last _ _ _ Hletters) as Hlast. rewrite Hx in Hlast.
  inversion Hlast as [x' f Hxf Heq1 Heq2|]; subst.
  exists f. split; [done|]. split; [|done].
  eapply Forall_forall in Hedges; [done|].
  apply last_Some_elem_of. done.
Qed.

(** Every word of a chain returned is playable: a non-empty inserted word
    whose letters can be given edges of the puzzle, each letter on its
    edge and no two consecutive letters on the same edge. *)
Theorem search_words_playable fuel mc words puzzle solutions :
  search fuel (build mc words) puzzle = Returned solutions →
  ∀ chain, chain ∈ solutions → Forall (playable words puzzle) chain.
Proof.
  intros Hsearch chain Hchain.
  assert (∃ edge : option Edge, Forall (playable words puzzle) chain)
    as [_ H]; [|done].
  apply (search_ok (build mc words) puzzle
           (λ lf, lf.1 = [""] ∨
                  (Forall (playable words puzzle) lf.1 ∧ ends_on puzzle lf))
           (λ lf, Forall (playable words puzzle) lf.1))
    with fuel solutions; [|right; by split|done|done].
  intros [ws ce] node r Hcur Hnode Hr Hnew. cbn [fst snd] in *.
  destruct Hcur as [->|[Hgood Hends]]; [done|].
  pose proof (build_wf mc words) as Hwf.
  assert (r.1 = "" ∧ ws = [] ∨
          playable words puzzle r.1 ∧ ends_on puzzle (ws ++ [r.1], r.2))
    as [[Hr1 ->]|[Hplay Hends']].
  { unfold start_node in Hnode. unfold ends_on in Hends. cbn [fst snd] in *.
    destruct (last ws) as [w0|] eqn:Hw0.
    - right. destruct Hends as (f & x & -> & Hf & Hx & Hxf).
      destruct (last (chars w0)) as [l|] eqn:Hl; [|done].
      apply last_letter_chars in Hl as (x' & -> & Hx').
      assert (x' = x) as -> by congruence.
      injection Hnode as Hnode.
      destruct (wf_child _ _ _ Hwf Hnode) as (Hletter & _ & _ & Hwfn).
      destruct (search_assignment _ _ _ _ Hwfn Hr)
        as (suffix & es & Heq & Hasg & Hhead & Hlast).
      destruct (search_path _ _ _ _ Hwfn Hr)
        as (suffix' & m & Heq' & Hm & Hword).
      rewrite Hletter, append_str1 in Heq, Heq'.
      assert (r.1 ∈ words) as Hin.
      { assert (LetterNode.descend (word_graph (build mc words))
                  (chars r.1) = Some m) as Hpath
          by (rewrite Heq'; simpl; by rewrite Hnode).
        rewrite Heq' in Hpath at 1. simpl in Hpath.
        pose proof (wf_descend_terminal _ _ _ _ Hwf Hpath Hword) as Hterm.
        apply (descend_terminal_inserted mc words _ m); [|done].
        rewrite Heq'. simpl. by rewrite Hnode. }
      rewrite Heq. split.
      + split; [by rewrite <-Heq|]. split; [done|].
        exists (f :: es). destruct Hasg as [He Hl Ha]. simpl. split.
        * by constructor.
        * by constructor.
        * apply alternating_cons. split; [by apply Hhead|done].
      + unfold ends_on. cbn [fst snd]. rewrite last_snoc, Hlast.
        cbn [letters_of]. rewrite last_cons.
        destruct (last (letters_of suffix)) as [z|] eqn:Hz.
        * destruct (assignment_last _ _ _ _ Hasg Hz) as (f' & -> & Hf' & Hzf).
          by exists f', z.
        * apply last_None in Hz. destruct Hasg as [_ Hl _]. rewrite Hz in Hl.
          apply Forall2_nil_inv_l in Hl as ->. by exists f, x.
    - apply last_None in Hw0 as ->. injection Hnode as <-. subst ce.
      destruct (search_assignment _ _ _ _ Hwf Hr)
        as (suffix & es & Heq & Hasg & _ & Hlast).
      rewrite root_letter_build in Heq.
      change ("" +:+ suffix) with suffix in Heq. subst suffix.
      destruct (decide (r.1 = "")) as [Hempty|Hne]; [by left|right].
      split.
      + split; [by apply (search_root_word_inserted mc words puzzle)|].
        split; [done|]. eauto.
      + unfold ends_on. cbn [fst snd app last].
        destruct (last (letters_of r.1)) as [z|] eqn:Hz.
        * destruct (assignment_last _ _ _ _ Hasg Hz) as (f' & Hf & Hf' & Hzf).
          rewrite Hf in Hlast. simpl in Hlast. exists f', z. done.
        * apply last_None in Hz. by destruct (r.1). }
  - simpl. rewrite Hr1. split; [|by left].
    by rewrite empty_word_covers_nothing.
  - assert (Forall (playable words puzzle) (ws ++ [r.1])) as Hall
      by (apply Forall_app; split; [done|by constructor]).
    split; [done|]. intros _ _. right. by split.
Qed.

Lemma search_words_playable_witness :
  search 10 (build 2 sample_words) sample_puzzle = Returned sample_solutions ∧
  Forall (playable sample_words sample_puzzle) ["adgjbeh"; "hkcfil"].
Proof.
  split; [vm_compute; reflexivity|].
  apply (search_words_playable 10 2 sample_words sample_puzzle
           sample_solutions); [vm_compute; reflexivity|].
  apply list_elem_of_further, list_elem_of_here.
Defined.

End ChainWords.

(** * The scanning solver of [letterboxed_scan.py] *)

Module LetterBoxedScan.

(** The body of [word_composition_check] once [letter = remainder[0]] and
    [remainder = remainder[1:]] are taken: the [for edge in puzzle] loop
    ([scan]), with the recursive call on a non-empty remainder. *)
Fixpoint check_from (letter : ascii) (remainder : string) (puzzle : Puzzle)
    (current_edge : option Edge) {struct remainder} : bool :=
  let fix scan (es : list Edge) : bool :=
    match es with
    | [] => false
    | edge :: es =>
        if bool_decide (current_edge = Some edge) then scan es
        else if bool_decide (letter ∈ edge_letters edge) then
          match remainder with
          | String next rest =>
              if check_from next rest puzzle (Some edge) then true
              else scan es
          | EmptyString => true
          end
        else scan es
    end in
  scan (edges puzzle).

(** [word_composition_check]; [remainder[0]] raises on the empty word. *)
Definition word_composition_check (remainder : string) (puzzle : Puzzle)
    (current_edge : option Edge) : LetterBoxedSolver.exn + bool :=
  match remainder with
  | EmptyString => inl LetterBoxedSolver.IndexError
  | String letter remainder =>
      inr (check_from letter remainder puzzle current_edge)
  end.

(** [valid_words], a dictionary from the first letter of a word to the
    valid words starting with it; an association list in the order the
    keys were inserted, which is the order [for letter in valid_words]
    follows. *)
Fixpoint index_get (valid_words : list (ascii * list string)) (k : ascii)
    : option (list string) :=
  match valid_words with
  | [] => None
  | (k', ws) :: rest => if decide (k' = k) then Some ws else index_get rest k
  end.

(** [if k not in valid_words: valid_words[k] = []] followed by
    [valid_words[k].append(word)]. *)
Fixpoint index_append (valid_words : list (ascii * list string)) (k : ascii)
    (word : string) : list (ascii * list string) :=
  match valid_words with
  | [] => [(k, [word])]
  | (k', ws) :: rest =>
      if decide (k' = k) then (k', ws ++ [word]) :: rest
      else (k', ws) :: index_append rest k word
  end.

(** The first loop of [solve]. *)
Fixpoint collect (puzzle : Puzzle) (wordlist : list string)
    (valid_words : list (ascii * list string))
    : LetterBoxedSolver.exn + list (ascii * list string) :=
  match wordlist with
  | [] => inr valid_words
  | word :: wordlist =>
      match word_composition_check word puzzle None with
      | inl e => inl e
      | inr false => collect puzzle wordlist valid_words
      | inr true =>
          match word with
          | EmptyString => inl LetterBoxedSolver.IndexError
          | String first _ =>
              collect puzzle wordlist (index_append valid_words first word)
          end
      end
  end.

(** A [for] loop whose body may raise. *)
Fixpoint for_each {A S : Type} (body : S → A → LetterBoxedSolver.exn + S)
    (l : list A) (s : S) : LetterBoxedSolver.exn + S :=
  match l with
  | [] => inr s
  | x :: l =>
      match body s x with
      | inl e => inl e
      | inr s => for_each body l s
      end
  end.

(** The body of [for next_word in valid_words[last_letter]]. *)
Definition try_pair (puzzle : Puzzle) (word : string)
    (solutions : list (list string)) (next_word : string)
    : list (list string) :=
  if bool_decide (next_word = word) then solutions
  else if LetterBoxedSolver.are_all_letters_used puzzle [word; next_word] then
    if Nat.eqb (length (filter (λ s, s = [word; next_word]) solutions)) 0
    then solutions ++ [[word; next_word]]
    else solutions
  else solutions.

(** The body of [for word in valid_words[letter]]; [word[-1]] raises on
    the empty word. *)
Definition try_word (puzzle : Puzzle)
    (valid_words : list (ascii * list string))
    (solutions : list (list string)) (word : string)
    : LetterBoxedSolver.exn + list (list string) :=
  match last (letters_of word) with
  | None => inl LetterBoxedSolver.IndexError
  | Some last_letter =>
      match index_get valid_words last_letter with
      | None => inr solutions
      | Some next_words =>
          inr (fold_left (try_pair puzzle word) next_words solutions)
      end
  end.

(** The second loop of [solve]. *)
Definition pairs (puzzle : Puzzle) (valid_words : list (ascii * list string))
    : LetterBoxedSolver.exn + list (list string) :=
  for_each (λ solutions entry,
              for_each (try_word puzzle valid_words) entry.2 solutions)
           valid_words [].

(** [solutions.sort(key=lambda x: sum([len(word) for word in x]))], a
    stable sort: insertion from the right, before the first element
    whose key is not smaller. *)
Fixpoint insert_by_total (x : list string) (l : list (list string))
    : list (list string) :=
  match l with
  | [] => [x]
  | y :: rest =>
      if total_letters x <=? total_letters y then x :: y :: rest
      else y :: insert_by_total x rest
  end.

Definition sort_by_total (l : list (list string)) : list (list string) :=
  foldr insert_by_total [] l.

(** [solve]. *)
Definition solve (puzzle : Puzzle) (wordlist : list string)
    : LetterBoxedSolver.exn + list (list string) :=
  match collect puzzle wordlist [] with
  | inl e => inl e
  | inr valid_words =>
      match pairs puzzle valid_words with
      | inl e => inl e
      | inr solutions => inr (sort_by_total solutions)
      end
  end.

End LetterBoxedScan.

Section ScanCheck.

Import LetterBoxedScan.

(** The [for] loop of [check_from] as a search through the edges. *)
Lemma check_from_spec letter remainder puzzle current_edge :
  check_from letter remainder puzzle current_edge = true ↔
  ∃ edge, edge ∈ edges puzzle ∧ current_edge ≠ Some edge ∧
          letter ∈ edge_letters edge ∧
          match remainder with
          | String next rest => check_from next rest puzzle (Some edge) = true
          | EmptyString => True
          end.
Proof.
  assert (∀ es,
    (fix scan (es : list Edge) : bool :=
       match es with
       | [] => false
       | edge :: es =>
           if bool_decide (current_edge = Some edge) then scan es
           else if bool_decide (letter ∈ edge_letters edge) then
             match remainder with
             | String next rest =>
                 if check_from next rest puzzle (Some edge) then true
                 else scan es
             | EmptyString => true
             end
           else scan es
       end) es = true ↔
    ∃ edge, edge ∈ es ∧ current_edge ≠ Some edge ∧
            letter ∈ edge_letters edge ∧
            match remainder with
            | String next rest => check_from next rest puzzle (Some edge) = true
            | EmptyString => True
            end) as Hscan.
  { induction es as [|edge es IH].
    - split; [done|]. by intros (e & ?%elem_of_nil & _).
    - case_bool_decide as Hce.
      + rewrite IH. split.
        * intros (e & He & ?). exists e. split; [by right|done].
        * intros (e & [->|He]%elem_of_cons & Hne & ?); [done|eauto].
      + case_bool_decide as Hl.
        * destruct remainder as [|next rest].
          -- split; [|done]. intros _. exists edge.
             split; [by left|done].
          -- destruct (check_from next rest puzzle (Some edge)) eqn:Hrec.
             ++ split; [|done]. intros _. exists edge.
                split; [by left|done].
             ++ rewrite IH. split.
                ** intros (e & He & ?). exists e. split; [by right|done].
                ** intros (e & [->|He]%elem_of_cons & Hne & Hle & Hrest);
                     [congruence|eauto].
        * rewrite IH. split.
          -- intros (e & He & ?). exists e. split; [by right|done].
          -- intros (e & [->|He]%elem_of_cons & Hne & Hle & ?); [done|eauto]. }
  destruct remainder; apply Hscan.
Qed.

(** [check_from] succeeds exactly when the letters have an edge assignment
    that starts off the current edge. *)
Lemma check_from_assignment letter remainder puzzle current_edge :
  check_from letter remainder puzzle current_edge = true ↔
  ∃ es, assignment puzzle (letter :: letters_of remainder) es ∧
        (∀ f, current_edge = Some f → head es ≠ Some f).
Proof.
  revert letter current_edge.
  induction remainder as [|next rest IH]; intros letter ce;
    rewrite check_from_spec.
  - split.
    + intros (edge & He & Hne & Hl & _). exists [edge]. split.
      * split; [constructor; [done|constructor]
               |constructor; [done|constructor]|].
        apply alternating_cons. split; [done|apply alternating_nil].
      * intros f -> [= ->]. done.
    + intros (es & [Hedges Hletters _] & Hhead). simpl in Hletters.
      apply Forall2_cons_inv_l in Hletters as (e & es' & Hl & _ & ->).
      apply Forall_cons in Hedges as [He _].
      exists e. split; [done|]. split; [|done].
      intros ->. by apply (Hhead e).
  - split.
    + intros (edge & He & Hne & Hl & Hrec).
      apply IH in Hrec as (es & [Hedges Hletters Halt] & Hhead).
      exists (edge :: es). split.
      * split; [by constructor|by constructor|].
        apply alternating_cons. split; [by apply Hhead|done].
      * intros f -> [= ->]. done.
    + intros (es & [Hedges Hletters Halt] & Hhead). simpl in Hletters.
      apply Forall2_cons_inv_l in Hletters as (e & es' & Hl & Hletters & ->).
      apply Forall_cons in Hedges as [He Hedges].
      apply alternating_cons in Halt as [Hhead' Halt].
      exists e. split; [done|]. split; [intros ->; by apply (Hhead e)|].
      split; [done|]. apply IH. exists es'. split; [done|].
      by intros f [= <-].
Qed.

(** [word_composition_check], called as [solve] calls it: it raises on
    the empty word and otherwise tells whether the letters of the word
    can be given edges of the puzzle, each letter on its edge and no two
    consecutive letters on the same edge. *)
Theorem word_composition_check_exact word puzzle :
  (word_composition_check word puzzle None
     = inl LetterBoxedSolver.IndexError ↔ word = "") ∧
  (word_composition_check word puzzle None = inr true ↔
   word ≠ "" ∧ ∃ es, assignment puzzle (letters_of word) es).
Proof.
  destruct word as [|letter rest]; simpl.
  - split; [done|]. split; [done|]. by intros [? _].
  - split; [done|]. split.
    + intros [= H]. split; [done|].
      apply check_from_assignment in H as (es & Hasg & _). eauto.
    + intros [_ (es & Hasg)]. f_equal. apply check_from_assignment.
      exists es. split; [done|]. done.
Qed.

(** The trie and the scan agree on single words: the search from the root
    finds a non-empty word exactly when it was inserted and passes
    [word_composition_check]. *)
Theorem search_agrees_with_scan mc words puzzle w :
  w ≠ "" →
  w ∈ (LetterNode.search
         (LetterBoxedSolver.word_graph (LetterBoxedSolver.build mc words))
         puzzle None).*1 ↔
  w ∈ words ∧ word_composition_check w puzzle None = inr true.
Proof.
  intros Hne. destruct w as [|letter rest]; [done|].
  cbn [word_composition_check]. split.
  - intros (r & Hw & Hr)%list_elem_of_fmap.
    split; [rewrite Hw; apply (search_root_word_inserted mc words puzzle);
            [done|by rewrite <-Hw]|].
    destruct (search_assignment _ _ _ _ (build_wf mc words) Hr)
      as (suffix & es & Heq & Hasg & _).
    rewrite root_letter_build in Heq.
    change ("" +:+ suffix) with suffix in Heq. rewrite <-Heq, <-Hw in Hasg.
    f_equal. apply check_from_assignment. exists es. by split.
  - intros [Hw [= Hcheck]].
    apply check_from_assignment in Hcheck as (es & Hasg & _).
    pose proof (proj2 (terminal_at_build mc words
                         (chars (String letter rest)))) as Hterm.
    unfold terminal_at in Hterm.
    destruct (LetterNode.descend _ (chars (String letter rest)))
      as [m|] eqn:Hm; [|discriminate Hterm; eauto].
    assert (LetterNode.word m = true) as Hword.
    { unfold LetterNode.word. rewrite Hterm by eauto. apply orb_true_r. }
    pose proof (search_complete _ puzzle None (String letter rest) es m
                  (build_wf mc words) Hm Hword Hasg) as Hin.
    rewrite root_letter_build in Hin.
    apply list_elem_of_fmap. eexists. split; [|apply Hin; done]. done.
Qed.

Lemma search_agrees_with_scan_witness :
  ("adg" : string) ≠ "" ∧
  "adg" ∈ ["adg"; "abc"] ∧
  word_composition_check "adg" sample_puzzle None = inr true.
Proof.
  split; [done|].
  apply (search_agrees_with_scan (-1) ["adg"; "abc"] sample_puzzle "adg");
    [done|].
  vm_compute. apply list_elem_of_here.
Defined.

End ScanCheck.

Section ScanSolve.

Import LetterBoxedScan.

Variable puzzle : Puzzle.

(** The word passes [word_composition_check]. *)
Definition valid (w : string) : Prop :=
  word_composition_check w puzzle None = inr true.

(** The second word starts with the last letter of the first. *)
Definition follows (w1 w2 : string) : Prop :=
  ∃ l, last (letters_of w1) = Some l ∧ head (letters_of w2) = Some l.

(** The word is filed in the dictionary, under some key. *)
Definition indexed (valid_words : list (ascii * list string)) (w : string)
    : Prop :=
  ∃ k ws, (k, ws) ∈ valid_words ∧ w ∈ ws.

(** The word is filed under the key [l]. *)
Definition filed (valid_words : list (ascii * list string)) (l : ascii)
    (w : string) : Prop :=
  ∃ ws, index_get valid_words l = Some ws ∧ w ∈ ws.

Lemma index_get_append vw k w k' :
  index_get (index_append vw k w) k' =
    if decide (k = k') then Some (default [] (index_get vw k) ++ [w])
    else index_get vw k'.
Proof.
  induction vw as [|[k0 ws] vw IH]; simpl.
  - by destruct (decide (k = k')).
  - destruct (decide (k0 = k)) as [->|Hne]; simpl.
    + by destruct (decide (k = k')).
    + destruct (decide (k0 = k')) as [->|Hne'].
      * by rewrite decide_False by done.
      * exact IH.
Qed.

Lemma indexed_append vw k w w' :
  indexed (index_append vw k w) w' ↔ indexed vw w' ∨ w' = w.
Proof.
  unfold indexed. induction vw as [|[k0 ws] vw IH]; simpl.
  - split.
    + intros (k' & ws' & [= -> ->]%list_elem_of_singleton
                & ->%list_elem_of_singleton). by right.
    + intros [(k' & ws' & ?%elem_of_nil & _)| ->]; [done|].
      exists k, [w]. split; apply list_elem_of_here.
  - destruct (decide (k0 = k)) as [->|Hne].
    + split.
      * intros (k' & ws' & [[= -> ->]|Hin]%elem_of_cons & Hw).
        -- apply elem_of_app in Hw as [Hw| ->%list_elem_of_singleton];
             [left|by right].
           exists k, ws. split; [by left|done].
        -- left. exists k', ws'. split; [by right|done].
      * intros [(k' & ws' & [[= -> ->]|Hin]%elem_of_cons & Hw)| ->].
        -- exists k, (ws ++ [w]). split; [by left|].
           apply elem_of_app. by left.
        -- exists k', ws'. split; [by right|done].
        -- exists k, (ws ++ [w]). split; [by left|].
           apply elem_of_app. right. apply list_elem_of_here.
    + split.
      * intros (k' & ws' & [[= -> ->]|Hin]%elem_of_cons & Hw).
        -- left. exists k0, ws. split; [by left|done].
        -- destruct (proj1 IH) as [(k'' & ws'' & ? & ?)| ->]; [eauto| |by right].
           left. exists k'', ws''. split; [by right|done].
      * intros [(k' & ws' & [[= -> ->]|Hin]%elem_of_cons & Hw)| ->].
        -- exists k0, ws. split; [by left|done].
        -- destruct (proj2 IH) as (k'' & ws'' & ? & ?);
             [left; eauto|].
           exists k'', ws''. split; [by right|done].
        -- destruct (proj2 IH) as (k'' & ws'' & ? & ?); [by right|].
           exists k'', ws''. split; [by right|done].
Qed.

Lemma filed_append vw k w l w' :
  filed (index_append vw k w) l w' ↔ filed vw l w' ∨ (k = l ∧ w' = w).
Proof.
  unfold filed. rewrite index_get_append.
  destruct (decide (k = l)) as [->|Hne].
  - split.
    + intros (ws & [= <-] & [Hw| ->%list_elem_of_singleton]%elem_of_app);
        [|by right].
      left. destruct (index_get vw l) as [ws|]; [eauto|].
      by apply elem_of_nil in Hw.
    + intros [(ws & Hget & Hw)|[_ ->]]; eexists; (split; [done|]);
        apply elem_of_app; [left|right; apply list_elem_of_here].
      by rewrite Hget.
  - split; [by left|]. by intros [?|[? _]].
Qed.

(** What the dictionary holds after the first loop. *)
Definition collected (wordlist : list string)
    (valid_words : list (ascii * list string)) : Prop :=
  (∀ w, indexed valid_words w ↔ w ∈ wordlist ∧ valid w) ∧
  (∀ l w, filed valid_words l w ↔
          w ∈ wordlist ∧ valid w ∧ head (letters_of w) = Some l).

Lemma collect_spec seen wordlist vw0 :
  collected seen vw0 → "" ∉ wordlist →
  ∃ vw, collect puzzle wordlist vw0 = inr vw ∧ collected (seen ++ wordlist) vw.
Proof.
  revert seen vw0.
  induction wordlist as [|word wordlist IH]; intros seen vw0 Hvw Hne.
  - exists vw0. by rewrite app_nil_r.
  - apply not_elem_of_cons in Hne as [Hword Hne].
    rewrite (assoc_L (++) seen [word] wordlist
               : seen ++ word :: wordlist = (seen ++ [word]) ++ wordlist).
    cbn [collect]. destruct word as [|first rest]; [done|].
    cbn [word_composition_check].
    destruct (check_from first rest puzzle None) eqn:Hcheck.
    + apply IH; [|done]. destruct Hvw as [Hi Hf]. split.
      * intros w. rewrite indexed_append, Hi, elem_of_app,
          list_elem_of_singleton. split; [|tauto].
        intros [?| ->]; [tauto|]. split; [by right|].
        unfold valid. simpl. by rewrite Hcheck.
      * intros l w. rewrite filed_append, Hf, elem_of_app,
          list_elem_of_singleton. split; [|].
        -- intros [?|[<- ->]]; [tauto|]. split; [by right|].
           split; [|done]. unfold valid. simpl. by rewrite Hcheck.
        -- intros ([?| ->] & Hv & Hh); [tauto|]. right.
           simpl in Hh. injection Hh as ->. done.
    + apply IH; [|done]. destruct Hvw as [Hi Hf]. split.
      * intros w. rewrite Hi, elem_of_app, list_elem_of_singleton.
        split; [tauto|]. intros [[?| ->] Hv]; [done|].
        unfold valid in Hv. simpl in Hv. congruence.
      * intros l w. rewrite Hf, elem_of_app, list_elem_of_singleton.
        split; [tauto|]. intros ([?| ->] & Hv & ?); [done|].
        unfold valid in Hv. simpl in Hv. congruence.
Qed.

Lemma collect_raises wordlist vw0 :
  "" ∈ wordlist →
  collect puzzle wordlist vw0 = inl LetterBoxedSolver.IndexError.
Proof.
  revert vw0. induction wordlist as [|word wordlist IH]; intros vw0 Hin;
    [by apply elem_of_nil in Hin|].
  cbn [collect]. destruct word as [|first rest]; [done|].
  apply elem_of_cons in Hin as [?|Hin]; [done|].
  cbn [word_composition_check].
  destruct (check_from first rest puzzle None); by apply IH.
Qed.

(** A loop whose body never raises is a fold. *)
Lemma for_each_pure {A S} (body : S → A → LetterBoxedSolver.exn + S)
    (f : S → A → S) (l : list A) (s : S) :
  (∀ s x, x ∈ l → body s x = inr (f s x)) →
  for_each body l s = inr (fold_left f l s).
Proof.
  revert s. induction l as [|x l IH]; intros s H; [done|].
  cbn [for_each fold_left]. rewrite H by apply list_elem_of_here.
  apply IH. intros s' x' Hx'. apply H. by right.
Qed.

(** A fold that only adds the elements related to what it visits. *)
Lemma fold_adds {A C} (f : list C → A → list C) (R : A → C → Prop)
    (l : list A) (s : list C) :
  (∀ s x c, x ∈ l → (c ∈ f s x ↔ c ∈ s ∨ R x c)) →
  ∀ c, c ∈ fold_left f l s ↔ c ∈ s ∨ ∃ x, x ∈ l ∧ R x c.
Proof.
  revert s. induction l as [|x l IH]; intros s H c; cbn [fold_left].
  - split; [by left|]. by intros [?|(x & ?%elem_of_nil & _)].
  - rewrite IH by (intros s' x' c' Hx'; apply H; by right).
    rewrite H by apply list_elem_of_here. split.
    + intros [[?|?]|(x' & Hx' & ?)]; [by left| |].
      * right. exists x. split; [apply list_elem_of_here|done].
      * right. exists x'. split; [by right|done].
    + intros [?|(x' & [->|Hx']%elem_of_cons & ?)];
        [by left; left|by left; right|right; eauto].
Qed.

Lemma fold_nodup {A C} (f : list C → A → list C) (l : list A) (s : list C) :
  (∀ s x, NoDup s → NoDup (f s x)) → NoDup s → NoDup (fold_left f l s).
Proof.
  intros H. revert s. induction l as [|x l IH]; intros s Hs; [done|].
  cbn [fold_left]. by apply IH, H.
Qed.

Lemma count_zero (x : list string) (s : list (list string)) :
  Nat.eqb (length (filter (λ y, y = x) s)) 0 = true ↔ x ∉ s.
Proof.
  rewrite Nat.eqb_eq, length_zero_iff_nil. split.
  - intros Hnil Hin.
    assert (x ∈ filter (λ y, y = x) s) as H
      by (by apply list_elem_of_filter).
    rewrite Hnil in H. by apply elem_of_nil in H.
  - intros Hnot. destruct (filter (λ y, y = x) s) as [|y rest] eqn:Hf; [done|].
    assert (y ∈ filter (λ y, y = x) s) as [-> H]%list_elem_of_filter
      by (rewrite Hf; apply list_elem_of_here). done.
Qed.

Lemma try_pair_spec word s next c :
  c ∈ try_pair puzzle word s next ↔
  c ∈ s ∨ (next ≠ word ∧
           LetterBoxedSolver.are_all_letters_used puzzle [word; next] = true ∧
           c = [word; next]).
Proof.
  unfold try_pair. case_bool_decide as Heq; [naive_solver|].
  destruct (LetterBoxedSolver.are_all_letters_used _ _); [|naive_solver].
  destruct (Nat.eqb _ 0) eqn:Hcount.
  - rewrite elem_of_app, list_elem_of_singleton. naive_solver.
  - apply not_true_iff_false in Hcount. rewrite count_zero in Hcount.
    apply dec_stable in Hcount. naive_solver.
Qed.

Lemma try_pair_nodup word s next :
  NoDup s → NoDup (try_pair puzzle word s next).
Proof.
  intros Hs. unfold try_pair. case_bool_decide; [done|].
  destruct (LetterBoxedSolver.are_all_letters_used _ _); [|done].
  destruct (Nat.eqb _ 0) eqn:Hcount; [|done].
  apply count_zero in Hcount.
  apply NoDup_app. split; [done|]. split; [|apply NoDup_singleton].
  by intros c Hc ->%list_elem_of_singleton.
Qed.

(** The body of the loop over words, for a non-empty word. *)
Definition word_step (vw : list (ascii * list string))
    (s : list (list string)) (word : string) : list (list string) :=
  match last (letters_of word) with
  | Some l =>
      match index_get vw l with
      | Some nexts => fold_left (try_pair puzzle word) nexts s
      | None => s
      end
  | None => s
  end.

(** The pair is a solution: two different words, the second filed under
    the last letter of the first, that cover the puzzle together. *)
Definition pair_ok (vw : list (ascii * list string)) (word : string)
    (c : list string) : Prop :=
  ∃ l next, last (letters_of word) = Some l ∧ filed vw l next ∧
            next ≠ word ∧
            LetterBoxedSolver.are_all_letters_used puzzle [word; next] = true ∧
            c = [word; next].

Lemma word_step_spec vw s word c :
  c ∈ word_step vw s word ↔ c ∈ s ∨ pair_ok vw word c.
Proof.
  unfold word_step, pair_ok, filed.
  destruct (last (letters_of word)) as [l|]; [|naive_solver].
  destruct (index_get vw l) as [nexts|] eqn:Hget; [|naive_solver].
  rewrite (fold_adds _ (λ next c, next ≠ word ∧
    LetterBoxedSolver.are_all_letters_used puzzle [word; next] = true ∧
    c = [word; next])) by (intros; apply try_pair_spec).
  split.
  - intros [?|(next & Hnext & ? & ? & ?)]; [by left|right].
    exists l, next. split; [done|]. split; [eauto|done].
  - intros [?|(l' & next & [= <-] & (ws & Hws & Hnext) & ?)]; [by left|].
    rewrite Hget in Hws. injection Hws as <-. right. eauto.
Qed.

Lemma word_step_nodup vw s word : NoDup s → NoDup (word_step vw s word).
Proof.
  intros Hs. unfold word_step.
  destruct (last (letters_of word)) as [l|]; [|done].
  destruct (index_get vw l) as [nexts|]; [|done].
  apply fold_nodup; [|done]. intros. by apply try_pair_nodup.
Qed.

Lemma try_word_pure vw s word :
  word ≠ "" → try_word puzzle vw s word = inr (word_step vw s word).
Proof.
  intros Hne. unfold try_word, word_step.
  destruct (last (letters_of word)) as [l|] eqn:Hl.
  - by destruct (index_get vw l).
  - apply last_None in Hl. by destruct word.
Qed.

Lemma pairs_spec vw :
  (∀ w, indexed vw w → w ≠ "") →
  ∃ sols, pairs puzzle vw = inr sols ∧ NoDup sols ∧
          ∀ c, c ∈ sols ↔ ∃ word, indexed vw word ∧ pair_ok vw word c.
Proof.
  intros Hne. unfold pairs.
  set (entry_step := λ (s : list (list string)) (entry : ascii * list string),
         fold_left (word_step vw) entry.2 s).
  exists (fold_left entry_step vw []). split; [|split].
  - apply for_each_pure. intros s [k ws] Hentry. cbn [snd].
    apply for_each_pure. intros s' word Hword. apply try_word_pure.
    apply Hne. by exists k, ws.
  - apply fold_nodup; [|constructor]. intros s entry Hs.
    apply fold_nodup; [|done]. intros. by apply word_step_nodup.
  - intros c.
    rewrite (fold_adds entry_step
               (λ entry c, ∃ word, word ∈ entry.2 ∧ pair_ok vw word c)).
    + split.
      * intros [?%elem_of_nil|([k ws] & Hentry & word & Hword & Hok)];
          [done|]. exists word. split; [by exists k, ws|done].
      * intros (word & (k & ws & Hentry & Hword) & Hok). right.
        exists (k, ws). eauto.
    + intros s entry c' _. unfold entry_step.
      apply fold_adds. intros. apply word_step_spec.
Qed.

Lemma valid_nonempty w : valid w → w ≠ "".
Proof. by intros H ->. Qed.

Definition lighter (x y : list string) : Prop :=
  total_letters x ≤ total_letters y.

Lemma insert_by_total_perm x l : insert_by_total x l ≡ₚ x :: l.
Proof.
  induction l as [|y l IH]; simpl; [done|].
  destruct (_ <=? _); [done|]. rewrite IH. apply Permutation_swap.
Qed.

Lemma sort_by_total_perm l : sort_by_total l ≡ₚ l.
Proof.
  induction l as [|x l IH]; simpl; [done|].
  by rewrite insert_by_total_perm, IH.
Qed.

Lemma insert_by_total_sorted x l :
  StronglySorted lighter l → StronglySorted lighter (insert_by_total x l).
Proof.
  induction 1 as [|y l Hl IH Hy]; simpl.
  - repeat constructor.
  - destruct (total_letters x <=? total_letters y) eqn:E.
    + apply Nat.leb_le in E. constructor; [by constructor|].
      constructor; [done|].
      eapply Forall_impl; [exact Hy|]. unfold lighter. intros z Hz. lia.
    + apply Nat.leb_gt in E. constructor; [done|].
      rewrite insert_by_total_perm. constructor; [|done].
      unfold lighter. lia.
Qed.

Lemma sort_by_total_sorted l : StronglySorted lighter (sort_by_total l).
Proof.
  induction l as [|x l IH]; simpl; [constructor|].
  by apply insert_by_total_sorted.
Qed.

End ScanSolve.

Section ScanSolveProperties.

Import LetterBoxedScan.

Lemma solve_returns puzzle wordlist :
  "" ∉ wordlist →
  ∃ vw sols,
    collect puzzle wordlist [] = inr vw ∧ collected puzzle wordlist vw ∧
    pairs puzzle vw = inr sols ∧ NoDup sols ∧
    (∀ c, c ∈ sols ↔ ∃ word, indexed vw word ∧ pair_ok puzzle vw word c) ∧
    solve puzzle wordlist = inr (sort_by_total sols).
Proof.
  intros Hne.
  destruct (collect_spec puzzle [] wordlist []) as (vw & Hvw & Hcoll);
    [|done|].
  { split.
    - intros w. split; [by intros (k & ws & ?%elem_of_nil & _)|].
      by intros [?%elem_of_nil _].
    - intros l w. split; [by intros (ws & ? & _)|].
      by intros [?%elem_of_nil _]. }
  simpl in Hcoll.
  destruct (pairs_spec puzzle vw) as (sols & Hpairs & Hnd & Hsols).
  { intros w Hw. apply (valid_nonempty puzzle). by apply Hcoll. }
  exists vw, sols. unfold solve. rewrite Hvw, Hpairs. done.
Qed.

(** [solve] raises exactly when the word list holds the empty word (the
    form a blank line of the word file takes), and what it raises is the
    IndexError of [remainder[0]]. *)
Theorem solve_raises_iff puzzle wordlist :
  (∃ e, solve puzzle wordlist = inl e) ↔ "" ∈ wordlist ∧
  solve puzzle wordlist = inl LetterBoxedSolver.IndexError.
Proof.
  split; [|intros [_ H]; eauto].
  intros [e He]. destruct (decide ("" ∈ wordlist)) as [Hin|Hnot].
  - split; [done|]. unfold solve. by rewrite collect_raises.
  - destruct (solve_returns puzzle wordlist Hnot)
      as (vw & sols & _ & _ & _ & _ & _ & Hsolve). congruence.
Qed.

(** On a word list without the empty word [solve] returns, each once, the
    pairs of two different words of the list, both accepted by
    [word_composition_check], the second starting with the last letter
    of the first, that cover the puzzle together. *)
Theorem solve_exact puzzle wordlist :
  "" ∉ wordlist →
  ∃ solutions,
    solve puzzle wordlist = inr solutions ∧ NoDup solutions ∧
    ∀ c, c ∈ solutions ↔
      ∃ w1 w2, c = [w1; w2] ∧ w1 ∈ wordlist ∧ w2 ∈ wordlist ∧ w1 ≠ w2 ∧
        word_composition_check w1 puzzle None = inr true ∧
        word_composition_check w2 puzzle None = inr true ∧
        follows w1 w2 ∧
        LetterBoxedSolver.are_all_letters_used puzzle [w1; w2] = true.
Proof.
  intros Hne.
  destruct (solve_returns puzzle wordlist Hne)
    as (vw & sols & _ & [Hindexed Hfiled] & _ & Hnd & Hsols & Hsolve).
  exists (sort_by_total sols). split; [done|].
  split; [by rewrite sort_by_total_perm|].
  intros c. rewrite sort_by_total_perm, Hsols. split.
  - intros (w1 & [Hw1 Hv1]%Hindexed
              & l & w2 & Hlast & (Hw2 & Hv2 & Hhead)%Hfiled & Hdiff & Hcov & ->).
    exists w1, w2. repeat split; try done. by exists l.
  - intros (w1 & w2 & -> & Hw1 & Hw2 & Hdiff & Hv1 & Hv2 & (l & Hlast & Hhead)
              & Hcov).
    exists w1. split; [by apply Hindexed|].
    exists l, w2. split; [done|]. split; [by apply Hfiled|].
    split; [congruence|]. by split.
Qed.

Lemma solve_exact_witness :
  "" ∉ sample_words ∧
  ∃ solutions, solve sample_puzzle sample_words = inr solutions ∧
               NoDup solutions.
Proof.
  assert ("" ∉ sample_words) as Hne.
  { unfold sample_words. intros H.
    repeat (apply elem_of_cons in H as [H|H]; [discriminate H|]).
    by apply elem_of_nil in H. }
  split; [exact Hne|].
  destruct (solve_exact sample_puzzle sample_words Hne)
    as (solutions & Hsolve & Hnd & _).
  exists solutions. split; [exact Hsolve|exact Hnd].
Defined.

(** The list [solve] returns is sorted by the total number of letters of
    the pair. *)
Theorem solve_sorted puzzle wordlist solutions :
  solve puzzle wordlist = inr solutions →
  StronglySorted lighter solutions ∧
  ∀ i j x y, solutions !! i = Some x → solutions !! j = Some y →
             total_letters x < total_letters y → i < j.
Proof.
  unfold solve. destruct (collect puzzle wordlist []) as [e|vw]; [done|].
  destruct (pairs puzzle vw) as [e|sols]; [done|]. intros [= <-].
  pose proof (sort_by_total_sorted sols) as Hsorted.
  split; [done|]. intros i j x y Hi Hj Hlt.
  destruct (decide (i < j)) as [|Hge]; [done|].
  destruct (decide (i = j)) as [->|Hne]; [rewrite Hi in Hj; injection Hj as ->; lia|].
  assert (lighter y x) as Hle
    by (eapply (StronglySorted_lookup lighter); [done| |done|done]; lia).
  unfold lighter in Hle. lia.
Qed.

Lemma solve_sorted_witness :
  solve sample_puzzle sample_words
    = inr [["adgjbeh"; "hkcfil"]; ["adgjbehk"; "kcfil"];
           ["da"; "adgjbehkcfil"]; ["adgjbehkcfil"; "lad"]] ∧
  StronglySorted lighter
    [["adgjbeh"; "hkcfil"]; ["adgjbehk"; "kcfil"];
     ["da"; "adgjbehkcfil"]; ["adgjbehkcfil"; "lad"]].
Proof.
  split; [vm_compute; reflexivity|].
  apply (solve_sorted sample_puzzle sample_words). vm_compute. reflexivity.
Defined.

End ScanSolveProperties.

(** * What the chain search explores *)

Section Exploration.

Import LetterBoxedSolver.

Variables (self : t) (puzzle : Puzzle).

(** The word [r.1] found by the single-word search can be put behind the
    chain of the entry. *)
Definition step_from (lf : leaf) (r : string * option Edge) : Prop :=
  ∃ node, start_node self lf.1 = inr (Some node) ∧
          r ∈ LetterNode.search node puzzle lf.2 ∧ r.1 ∉ lf.1.

(** The chain is a solution that grows out of the entry: one more word
    makes the chain of the entry cover the puzzle, or one more word that
    does not, within the bound, gives an entry it grows out of. *)
Inductive completes : leaf → list string → Prop :=
| completes_here lf r :
    step_from lf r →
    are_all_letters_used puzzle (lf.1 ++ [r.1]) = true →
    completes lf (lf.1 ++ [r.1])
| completes_later lf r chain :
    step_from lf r →
    are_all_letters_used puzzle (lf.1 ++ [r.1]) = false →
    may_grow self (lf.1 ++ [r.1]) →
    completes (lf.1 ++ [r.1], r.2) chain →
    completes lf chain.

(** The chain was reported, or one with the same key. *)
Definition reported (complete : list leaf) (chain : list string) : Prop :=
  ∃ chain', chain' ∈ complete.*1 ∧ join "_" chain' = join "_" chain.

(** The keys and the solutions go together. *)
Definition keys_ok (v : vars) : Prop :=
  ∀ chain, is_Some (puzzle_solutions v !! join "_" chain) →
           reported (complete_list v) chain.

Lemma visit_grows ws v r :
  (∀ lf, lf ∈ complete_list v → lf ∈ complete_list (visit self puzzle ws v r)) ∧
  (∀ lf, lf ∈ in_progress_lists v →
         lf ∈ in_progress_lists (visit self puzzle ws v r)).
Proof.
  unfold visit. case_bool_decide; [done|].
  destruct (are_all_letters_used _ _).
  - destruct (puzzle_solutions v !! _); [done|]. split; [|done].
    intros lf Hlf. apply elem_of_app. by left.
  - destruct (max_chain self >? -1)%Z;
      [destruct (Z.of_nat _ <? max_chain self)%Z|]; try done;
      (split; [done|]); intros lf Hlf; apply elem_of_app; by left.
Qed.

Lemma visit_keys_ok ws v r : keys_ok v → keys_ok (visit self puzzle ws v r).
Proof.
  intros Hk. unfold visit. case_bool_decide; [done|].
  destruct (are_all_letters_used _ _).
  - destruct (puzzle_solutions v !! join "_" (ws ++ [r.1])) eqn:Hkey; [done|].
    intros chain. cbn [puzzle_solutions complete_list].
    rewrite lookup_insert. case_decide as Heq.
    + intros _. exists (ws ++ [r.1]). split; [|done].
      rewrite fmap_app. apply elem_of_app. right. apply list_elem_of_here.
    + intros (chain' & Hin & Hjoin)%Hk. exists chain'. split; [|done].
      rewrite fmap_app. apply elem_of_app. by left.
  - destruct (max_chain self >? -1)%Z;
      [destruct (Z.of_nat _ <? max_chain self)%Z|]; done.
Qed.

(** After the [for] loop every result that completes the chain is
    reported and every other one within the bound is in the frontier. *)
Lemma visit_all_handles ws results v :
  keys_ok v →
  let v' := fold_left (visit self puzzle ws) results v in
  keys_ok v' ∧
  (∀ lf, lf ∈ complete_list v → lf ∈ complete_list v') ∧
  (∀ lf, lf ∈ in_progress_lists v → lf ∈ in_progress_lists v') ∧
  ∀ r, r ∈ results → r.1 ∉ ws →
    if are_all_letters_used puzzle (ws ++ [r.1])
    then reported (complete_list v') (ws ++ [r.1])
    else may_grow self (ws ++ [r.1]) →
         (ws ++ [r.1], r.2) ∈ in_progress_lists v'.
Proof.
  revert v. induction results as [|r0 results IH]; intros v Hk.
  - simpl. repeat split; try done. by intros r ?%elem_of_nil.
  - cbn [fold_left].
    destruct (IH (visit self puzzle ws v r0) (visit_keys_ok ws v r0 Hk))
      as (Hk' & Hc & Hf & Hres).
    destruct (visit_grows ws v r0) as [Hc0 Hf0].
    split; [done|]. split; [auto|]. split; [auto|].
    intros r [->|Hr]%elem_of_cons Hnew; [|by apply Hres].
    destruct (are_all_letters_used puzzle (ws ++ [r0.1])) eqn:Hcov.
    + assert (reported (complete_list (visit self puzzle ws v r0))
                (ws ++ [r0.1])) as (chain' & Hin & Hjoin).
      { unfold visit. rewrite bool_decide_eq_false_2 by done. rewrite Hcov.
        destruct (puzzle_solutions v !! join "_" (ws ++ [r0.1])) eqn:Hkey.
        - apply Hk. by rewrite Hkey.
        - exists (ws ++ [r0.1]). split; [|done]. cbn [complete_list].
          rewrite fmap_app. apply elem_of_app. right. apply list_elem_of_here. }
      exists chain'. split; [|done].
      apply list_elem_of_fmap in Hin as (lf & -> & Hlf).
      apply list_elem_of_fmap_2. by apply Hc.
    + intros Hgrow. apply Hf. unfold visit.
      rewrite bool_decide_eq_false_2 by done. rewrite Hcov.
      unfold may_grow in Hgrow.
      destruct (max_chain self >? -1)%Z; [rewrite Hgrow by done|];
        cbn [in_progress_lists]; apply elem_of_app; right;
        apply list_elem_of_here.
Qed.

Lemma reported_mono (complete complete' : list leaf) chain :
  (∀ lf, lf ∈ complete → lf ∈ complete') →
  reported complete chain → reported complete' chain.
Proof.
  intros Hsub (chain' & Hin & Hjoin). exists chain'. split; [|done].
  apply list_elem_of_fmap in Hin as (lf & -> & Hlf).
  by apply list_elem_of_fmap_2, Hsub.
Qed.

(** When the loop ends through a [break], every entry it held was
    expanded: the solutions that grow out of it are reported. *)
Lemma search_loop_complete fuel v current_list via complete :
  keys_ok v →
  search_loop fuel self puzzle v current_list = Break via complete →
  (∀ lf, lf ∈ complete_list v → lf ∈ complete) ∧
  ∀ lf chain, lf = current_list ∨ lf ∈ in_progress_lists v →
    completes lf chain → reported complete chain.
Proof.
  revert v current_list.
  induction fuel as [|fuel IH]; intros v cur Hk; [done|].
  cbn [search_loop].
  destruct (start_node self cur.1) as [e|[node|]] eqn:Hnode; try done.
  cbn [search_value].
  destruct (visit_all_handles cur.1 (LetterNode.search node puzzle cur.2)
              v Hk) as (Hk' & Hc & Hf & Hres).
  set (v' := fold_left (visit self puzzle cur.1)
               (LetterNode.search node puzzle cur.2) v) in *.
  assert (∀ r, step_from cur r →
            r ∈ LetterNode.search node puzzle cur.2 ∧ r.1 ∉ cur.1) as Hstep.
  { intros r (node' & Hnode' & Hr & Hnew). rewrite Hnode in Hnode'.
    by injection Hnode' as <-. }
  destruct (in_progress_lists v') as [|next rest] eqn:Hfront.
  - intros [= _ <-]. split; [done|].
    intros lf chain [->|Hlf]; [|by apply Hf, elem_of_nil in Hlf].
    intros Hchain. inversion Hchain as [lf r Hr Hcov|lf r c Hr Hcov Hgrow _];
      subst; apply Hstep in Hr as [Hr Hnew]; specialize (Hres r Hr Hnew);
      rewrite Hcov in Hres; [done|].
    by apply Hres, elem_of_nil in Hgrow.
  - intros Hloop.
    destruct (IH (mkVars (complete_list v') rest (puzzle_solutions v')) next)
      with (1 := Hk') (2 := Hloop) as [Hsub Hall].
    cbn [complete_list in_progress_lists] in Hsub, Hall.
    assert (∀ lf chain, lf ∈ next :: rest →
              completes lf chain → reported complete chain) as Hall'.
    { intros lf chain Hlf. apply Hall.
      apply elem_of_cons in Hlf as [->|Hlf]; [by left|by right]. }
    split; [auto|].
    intros lf chain [->|Hlf]; [|apply Hall'; by apply Hf].
    intros Hchain.
    inversion Hchain as [lf r Hr Hcov|lf r c Hr Hcov Hgrow Hrest];
      subst; apply Hstep in Hr as [Hr Hnew]; specialize (Hres r Hr Hnew);
      rewrite Hcov in Hres.
    + by apply (reported_mono (complete_list v')).
    + apply (Hall' (cur.1 ++ [r.1], r.2)); [by apply Hres|done].
Qed.

End Exploration.

Section ExplorationProperties.

Import LetterBoxedSolver.

(** When the chain search returns, what it returns are the solutions that
    grow out of the empty chain: appending one found word after the other,
    no chain on the way covering the puzzle or reaching the bound.  Each
    such solution is returned, or another one with the same key
    ["_".join(chain)]. *)
Theorem search_explores fuel self puzzle solutions :
  search fuel self puzzle = Returned solutions →
  (∀ chain, chain ∈ solutions → completes self puzzle current_init chain) ∧
  (∀ chain, completes self puzzle current_init chain →
     ∃ chain', chain' ∈ solutions ∧ join "_" chain' = join "_" chain).
Proof.
  intros Hsearch. split.
  - intros chain Hchain.
    assert (∃ edge : option Edge, completes self puzzle current_init chain)
      as [_ H]; [|done].
    apply (search_ok self puzzle
             (λ lf, ∀ c, completes self puzzle lf c →
                         completes self puzzle current_init c)
             (λ lf, completes self puzzle current_init lf.1))
      with fuel solutions; [|done|done|done].
    intros lf node r Hlf Hnode Hr Hnew.
    assert (step_from self puzzle lf r) as Hstep by (by exists node).
    cbn [fst snd]. split.
    + intros Hcov. by apply Hlf, (completes_here self puzzle lf r).
    + intros Hcov Hgrow c Hc.
      by apply Hlf, (completes_later self puzzle lf r).
  - intros chain Hchain. unfold search in Hsearch.
    destruct (search_loop fuel self puzzle vars_init current_init)
      as [via complete| |] eqn:Hloop; try done.
    injection Hsearch as <-.
    destruct (search_loop_complete self puzzle fuel vars_init current_init
                via complete) as [_ Hall]; [|done|].
    { intros c [x Hx]. cbn [vars_init puzzle_solutions] in Hx.
      by rewrite lookup_empty in Hx. }
    destruct (Hall current_init chain (or_introl eq_refl) Hchain)
      as (chain' & Hin & Hjoin).
    exists chain'. split; [|done]. by apply elem_of_sort_by_key.
Qed.

Lemma search_explores_witness :
  search 10 (build 2 sample_words) sample_puzzle = Returned sample_solutions ∧
  completes (build 2 sample_words) sample_puzzle current_init
    ["adgjbeh"; "hkcfil"].
Proof.
  split; [vm_compute; reflexivity|].
  apply (search_explores 10 (build 2 sample_words) sample_puzzle
           sample_solutions); [vm_compute; reflexivity|].
  apply list_elem_of_further, list_elem_of_here.
Defined.

End ExplorationProperties.

(** * The jumble scanner of [jumble_scan.py] *)

Module JumbleScan.

(** The body of the loop of [build_base_letter_count]. *)
Definition count_letter (letter_count : gmap ascii Z) (letter : ascii)
    : gmap ascii Z :=
  match letter_count !! letter with
  | Some n => <[letter := (n + 1)%Z]> letter_count
  | None => <[letter := 1%Z]> letter_count
  end.

(** [build_base_letter_count]. *)
Definition build_base_letter_count (word : string) : gmap ascii Z :=
  fold_left count_letter (letters_of word) ∅.

(** The loop of [word_composition_check] over the letters left; it
    updates the dictionary it was given, which it returns here beside the
    result. *)
Fixpoint check_letters (base_letters : gmap ascii Z) (letters : list ascii)
    : bool * gmap ascii Z :=
  match letters with
  | [] => (true, base_letters)
  | letter :: letters =>
      match base_letters !! letter with
      | None => (false, base_letters)
      | Some n =>
          let base_letters := <[letter := (n - 1)%Z]> base_letters in
          if (n - 1 <? 0)%Z then (false, base_letters)
          else check_letters base_letters letters
      end
  end.

(** [word_composition_check]: the result and the dictionary as the call
    leaves it. *)
Definition word_composition_check (base_letters : gmap ascii Z)
    (word : string) : bool * gmap ascii Z :=
  check_letters base_letters (letters_of word).

End JumbleScan.

(** The number of times a letter occurs. *)
Definition occurrences (l : ascii) (ls : list ascii) : nat :=
  length (filter (λ x, x = l) ls).

Section JumbleScanFacts.

Import JumbleScan.

Lemma occurrences_cons l x ls :
  occurrences l (x :: ls) =
    if decide (x = l) then S (occurrences l ls) else occurrences l ls.
Proof. unfold occurrences. rewrite filter_cons. by destruct (decide (x = l)). Qed.

Lemma occurrences_app l ls1 ls2 :
  occurrences l (ls1 ++ ls2) = occurrences l ls1 + occurrences l ls2.
Proof. unfold occurrences. by rewrite filter_app, length_app. Qed.

(** What the dictionary of counts holds for a list of letters. *)
Definition counts (ls : list ascii) (d : gmap ascii Z) : Prop :=
  ∀ l, d !! l = if decide (occurrences l ls = 0) then None
                else Some (Z.of_nat (occurrences l ls)).

Lemma count_letter_counts ls d x :
  counts ls d → counts (ls ++ [x]) (count_letter d x).
Proof.
  intros Hd l. unfold count_letter. rewrite occurrences_app, occurrences_cons.
  pose proof (Hd x) as Hx. pose proof (Hd l) as Hl.
  destruct (decide (x = l)) as [->|Hne].
  - rewrite Hl. destruct (decide (occurrences l ls = 0)) as [H0|H0].
    + rewrite lookup_insert_eq, H0. simpl. done.
    + rewrite lookup_insert_eq. rewrite decide_False by (unfold occurrences at 2; simpl; lia).
      f_equal. unfold occurrences at 3. simpl. lia.
  - assert (occurrences l [] = 0) as -> by done. rewrite Nat.add_0_r.
    destruct (d !! x); by rewrite lookup_insert_ne.
Qed.

Lemma build_counts word :
  counts (letters_of word) (build_base_letter_count word).
Proof.
  unfold build_base_letter_count.
  assert (∀ ls seen d, counts seen d →
            counts (seen ++ ls) (fold_left count_letter ls d)) as H.
  { induction ls as [|x ls IH]; intros seen d Hd; simpl.
    - by rewrite app_nil_r.
    - rewrite (assoc_L (++) seen [x] ls : seen ++ x :: ls = _).
      by apply IH, count_letter_counts. }
  apply (H _ [] ∅). intros l. by rewrite lookup_empty.
Qed.

(** The check succeeds exactly when the dictionary holds, for every letter
    of the word, a count that is at least its number of occurrences. *)
Lemma check_letters_spec d ls :
  (check_letters d ls).1 = true ↔
  ∀ l, 0 < occurrences l ls →
       ∃ n, d !! l = Some n ∧ (Z.of_nat (occurrences l ls) ≤ n)%Z.
Proof.
  revert d. induction ls as [|x ls IH]; intros d.
  - split; [|done]. intros _ l Hl. unfold occurrences in Hl. simpl in Hl. lia.
  - cbn [check_letters]. destruct (d !! x) as [n|] eqn:Hx.
    + destruct (n - 1 <? 0)%Z eqn:Hneg.
      * apply Z.ltb_lt in Hneg. split; [done|]. intros H.
        destruct (H x) as (n' & Hn' & Hle).
        { rewrite occurrences_cons, decide_True by done. lia. }
        rewrite occurrences_cons, decide_True in Hle by done.
        assert (n' = n) as -> by congruence. lia.
      * apply Z.ltb_ge in Hneg. rewrite IH. split.
        -- intros H l Hl. rewrite occurrences_cons in Hl |- *.
           destruct (decide (x = l)) as [->|Hne].
           ++ exists n. split; [done|].
              destruct (decide (0 < occurrences l ls)) as [Hpos|Hzero]; [|lia].
              destruct (H l Hpos) as (m & Hm & Hle).
              rewrite lookup_insert_eq in Hm. injection Hm as <-. lia.
           ++ destruct (H l Hl) as (m & Hm & Hle).
              rewrite lookup_insert_ne in Hm by done. eauto.
        -- intros H l Hl. destruct (decide (x = l)) as [->|Hne].
           ++ rewrite lookup_insert_eq. eexists. split; [done|].
              destruct (H l) as (m & Hm & Hle).
              { rewrite occurrences_cons, decide_True by done. lia. }
              rewrite occurrences_cons, decide_True in Hle by done.
              assert (m = n) as -> by congruence. lia.
           ++ rewrite lookup_insert_ne by done.
              destruct (H l) as (m & Hm & Hle).
              { rewrite occurrences_cons, decide_False by done. done. }
              rewrite occurrences_cons, decide_False in Hle by done. eauto.
    + split; [done|]. intros H. destruct (H x) as (n & Hn & _).
      { rewrite occurrences_cons, decide_True by done. lia. }
      congruence.
Qed.

End JumbleScanFacts.

Section JumbleScanProperties.

Import JumbleScan.

(** [build_base_letter_count] counts: the dictionary holds for each letter
    of the word the number of times it occurs, and no other key. *)
Theorem build_base_letter_count_exact word l :
  build_base_letter_count word !! l =
    if decide (occurrences l (letters_of word) = 0) then None
    else Some (Z.of_nat (occurrences l (letters_of word))).
Proof. apply build_counts. Qed.

(** A word passes [word_composition_check] against the counts of a base
    word exactly when no letter occurs more often in the word than in the
    base word. *)
Theorem jumble_check_exact base word :
  (word_composition_check (build_base_letter_count base) word).1 = true ↔
  ∀ l, occurrences l (letters_of word) ≤ occurrences l (letters_of base).
Proof.
  unfold word_composition_check. rewrite check_letters_spec. split.
  - intros H l.
    destruct (decide (0 < occurrences l (letters_of word))) as [Hpos|]; [|lia].
    destruct (H l Hpos) as (n & Hn & Hle).
    rewrite (build_counts base l) in Hn.
    destruct (decide (occurrences l (letters_of base) = 0)); [done|].
    injection Hn as <-. lia.
  - intros H l Hpos. specialize (H l). rewrite (build_counts base l).
    rewrite decide_False by lia. eexists. split; [done|]. lia.
Qed.

Lemma check_letters_leaves d ls l :
  (check_letters d ls).1 = true →
  (check_letters d ls).2 !! l =
    (λ n, (n - Z.of_nat (occurrences l ls))%Z) <$> d !! l.
Proof.
  revert d. induction ls as [|x ls IH]; intros d; cbn [check_letters].
  - intros _. cbn [snd]. unfold occurrences. simpl.
    destruct (d !! l) as [n|]; simpl; [f_equal; lia|done].
  - destruct (d !! x) as [n|] eqn:Hx; [|done].
    destruct (n - 1 <? 0)%Z; [done|]. intros H. rewrite (IH _ H).
    rewrite occurrences_cons. destruct (decide (x = l)) as [->|Hne].
    + rewrite lookup_insert_eq, Hx. simpl. f_equal. lia.
    + by rewrite lookup_insert_ne.
Qed.

(** A successful [word_composition_check] uses the dictionary up: it
    leaves every count lowered by the number of occurrences of the letter
    in the word, which is why [jumble_solve] hands it a copy. *)
Theorem jumble_check_consumes base_letters word l :
  (word_composition_check base_letters word).1 = true →
  (word_composition_check base_letters word).2 !! l =
    (λ n, (n - Z.of_nat (occurrences l (letters_of word)))%Z)
      <$> base_letters !! l.
Proof. apply check_letters_leaves. Qed.

Lemma jumble_check_consumes_witness :
  (word_composition_check (build_base_letter_count "letter") "tree").1 = true ∧
  (word_composition_check (build_base_letter_count "letter") "tree").2
    !! "e"%char = Some 0%Z.
Proof.
  split; [vm_compute; reflexivity|].
  rewrite (jumble_check_consumes (build_base_letter_count "letter") "tree"
             "e"%char); [|vm_compute; reflexivity].
  vm_compute. reflexivity.
Defined.

End JumbleScanProperties.

(** * The jumble trie of [jumble_trie.py] *)

Module JumbleNode.

(** [class LetterNode] of [jumble_trie.py]: the children are a list, in
    the order they were added. *)
Inductive t : Type :=
  Node { letter : string; terminal : bool; nodes : list t }.

(** [LetterNode(letter)]. *)
Definition new (letter : string) : t := Node letter false [].

(** [word]. *)
Definition word (self : t) : bool :=
  Nat.eqb (length (nodes self)) 0 || terminal self.

(** [add]: [self.nodes.append(node)]. *)
Definition add (self node : t) : t :=
  Node (letter self) (terminal self) (nodes self ++ [node]).

(** The loop of [get], called with a [str]: the first child with that
    letter. *)
Fixpoint first_with (key : string) (nodes : list t) : option t :=
  match nodes with
  | [] => None
  | node :: nodes =>
      if decide (letter node = key) then Some node else first_with key nodes
  end.

Definition get (self : t) (key : string) : option t :=
  first_with key (nodes self).

(** The child [get] finds for [key], mutated in place into [child]. *)
Fixpoint replace_first (key : string) (child : t) (nodes : list t) : list t :=
  match nodes with
  | [] => []
  | node :: nodes =>
      if decide (letter node = key) then child :: nodes
      else node :: replace_first key child nodes
  end.

Definition with_child (self : t) (key : string) (child : t) : t :=
  Node (letter self) (terminal self) (replace_first key child (nodes self)).

(** [self.terminal = True]. *)
Definition set_terminal (self : t) : t := Node (letter self) true (nodes self).

(** [for word in found_words]: the words found below, behind the letter
    of the node, those not yet in [words]. *)
Definition collect_found (letter : string) (words found_words : list string)
    : list string :=
  fold_left (λ words word,
               let word := letter +:+ word in
               if bool_decide (word ∈ words) then words else words ++ [word])
            found_words words.

(** The first result of [searches] filed under [key]: [self.get(letter)]
    followed by [current_node.search]. *)
Fixpoint first_search (key : string)
    (searches : list (string * (list string → list string)))
    : option (list string → list string) :=
  match searches with
  | [] => None
  | (k, f) :: searches =>
      if decide (k = key) then Some f else first_search key searches
  end.

(** [search].  The recursion goes through the list of children: the
    search of every child is taken first ([sub]), then picked by letter
    (see [search_unfold_jumble]). *)
Fixpoint search (self : t) (letters : list string) {struct self}
    : list string :=
  match self with
  | Node letter terminal nodes =>
      let sub := (λ child, (JumbleNode.letter child, search child)) <$> nodes in
      fold_left
        (λ words '(index, key),
           match first_search key sub with
           | None => words
           | Some found =>
               collect_found letter words (found (delete index letters))
           end)
        (imap (λ index key, (index, key)) letters)
        (if Nat.eqb (length nodes) 0 || terminal then [letter] else [])
  end.

(** The number of levels below a node. *)
Fixpoint height (self : t) : nat :=
  match self with
  | Node _ _ nodes => S (foldr (λ child acc, height child `max` acc) 0 nodes)
  end.

(** Following the children letter by letter. *)
Fixpoint descend (self : t) (path : list string) : option t :=
  match path with
  | [] => Some self
  | k :: rest =>
      match get self k with
      | None => None
      | Some child => descend child rest
      end
  end.

End JumbleNode.

Module JumbleSolver.

(** [class JumbleSolver]. *)
Record t : Type := mk { word_graph : JumbleNode.t }.

(** [__init__] without a word list. *)
Definition new : t := mk (JumbleNode.new "").

(** The loop of [add]. *)
Fixpoint add_from (current_node : JumbleNode.t) (letters : list string)
    : JumbleNode.t :=
  match letters with
  | [] => JumbleNode.set_terminal current_node
  | letter :: rest =>
      match JumbleNode.get current_node letter with
      | Some node =>
          JumbleNode.with_child current_node letter (add_from node rest)
      | None =>
          let node := JumbleNode.new letter in
          JumbleNode.with_child (JumbleNode.add current_node node)
            letter (add_from node rest)
      end
  end.

(** [add]. *)
Definition add (self : t) (word : string) : t :=
  mk (add_from (word_graph self) (chars word)).

(** [search]. *)
Definition search (self : t) (word : string) : list string :=
  JumbleNode.search (word_graph self) (chars word).

(** A solver in which [words] were inserted one after the other. *)
Definition build (words : list string) : t := fold_left add words new.

End JumbleSolver.

Section JumbleFacts.

Import JumbleNode.

Lemma height_child_jumble n child :
  child ∈ nodes n → height child < height n.
Proof.
  destruct n as [l t ch]. simpl. intros Hin.
  induction ch as [|c ch IH]; [by apply elem_of_nil in Hin|].
  simpl. apply elem_of_cons in Hin as [->|Hin]; [lia|].
  specialize (IH Hin). lia.
Qed.

(** Induction on a jumble trie. *)
Lemma jumble_node_ind (P : t → Prop) :
  (∀ n, (∀ child, child ∈ nodes n → P child) → P n) → ∀ n, P n.
Proof.
  intros Hstep n.
  remember (height n) as h eqn:Hh. revert n Hh.
  induction (lt_wf h) as [h _ IH]. intros n ->.
  apply Hstep. intros child Hchild.
  eapply IH; [|reflexivity]. by apply height_child_jumble.
Qed.

Lemma first_with_Some key ch child :
  first_with key ch = Some child → child ∈ ch ∧ letter child = key.
Proof.
  induction ch as [|c ch IH]; simpl; [done|].
  destruct (decide (letter c = key)) as [Heq|Hne].
  - intros [= <-]. split; [by left|done].
  - intros [Hin Hl]%IH. split; [by right|done].
Qed.

Lemma get_Some n key child :
  get n key = Some child → child ∈ nodes n ∧ letter child = key.
Proof. apply first_with_Some. Qed.

Lemma first_search_fmap key ch (f : t → list string → list string) :
  first_search key ((λ child, (letter child, f child)) <$> ch) =
  f <$> first_with key ch.
Proof.
  induction ch as [|c ch IH]; simpl; [done|].
  destruct (decide (letter c = key)); [done|]. exact IH.
Qed.

Lemma fold_left_ext {A B} (f g : B → A → B) (l : list A) (b : B) :
  (∀ b x, f b x = g b x) → fold_left f l b = fold_left g l b.
Proof.
  intros H. revert b. induction l as [|x l IH]; intros b; [done|].
  simpl. by rewrite H, IH.
Qed.

(** [search] as the source writes it. *)
Lemma search_unfold_jumble self letters :
  search self letters =
    fold_left
      (λ words ik,
         match get self ik.2 with
         | None => words
         | Some current_node =>
             collect_found (letter self) words
               (search current_node (delete ik.1 letters))
         end)
      (imap (λ index key, (index, key)) letters)
      (if word self then [letter self] else []).
Proof.
  destruct self as [l t ch]. simpl. unfold word, get. simpl.
  apply fold_left_ext. intros words [i k].
  rewrite first_search_fmap. simpl. by destruct (first_with k ch).
Qed.

Lemma collect_found_spec l words found w :
  w ∈ collect_found l words found ↔
  w ∈ words ∨ ∃ w', w' ∈ found ∧ w = l +:+ w'.
Proof.
  unfold collect_found.
  rewrite (fold_adds _ (λ w' w, w = l +:+ w')); [done|].
  intros s x c _. simpl. case_bool_decide as Hin.
  - split; [by left|]. by intros [?| ->].
  - rewrite elem_of_app, list_elem_of_singleton. done.
Qed.

Lemma collect_found_nodup l words found :
  NoDup words → NoDup (collect_found l words found).
Proof.
  unfold collect_found. apply fold_nodup. intros s x Hs. simpl.
  case_bool_decide as Hin; [done|].
  apply NoDup_app. split; [done|]. split; [|apply NoDup_singleton].
  by intros w Hw ->%list_elem_of_singleton.
Qed.

(** The results of [search], one by one. *)
Lemma elem_of_search_jumble self letters w :
  w ∈ search self letters ↔
  (word self = true ∧ w = letter self) ∨
  ∃ i key child w',
    letters !! i = Some key ∧ get self key = Some child ∧
    w' ∈ search child (delete i letters) ∧ w = letter self +:+ w'.
Proof.
  rewrite search_unfold_jumble.
  rewrite (fold_adds _
    (λ ik w, ∃ child w', get self ik.2 = Some child ∧
                         w' ∈ search child (delete ik.1 letters) ∧
                         w = letter self +:+ w')).
  - apply Morphisms_Prop.or_iff_morphism.
    + destruct (word self).
      * rewrite list_elem_of_singleton. naive_solver.
      * split; [by intros ?%elem_of_nil|naive_solver].
    + split.
      * intros ([i k] & Hin & child & w' & ? & ? & ?).
        apply elem_of_lookup_imap in Hin as (i' & k' & [= -> ->] & Hk).
        by exists i', k', child, w'.
      * intros (i & k & child & w' & Hk & ? & ? & ?).
        exists (i, k). split; [|by exists child, w'].
        by apply (elem_of_lookup_imap_2 (λ index key, (index, key))).
  - intros s [i k] c _. simpl.
    destruct (get self k) as [child|]; [|naive_solver].
    rewrite collect_found_spec. naive_solver.
Qed.

Lemma search_nodup_jumble self letters : NoDup (search self letters).
Proof.
  rewrite search_unfold_jumble. apply fold_nodup.
  - intros s [i k] Hs. simpl. destruct (get self k); [|done].
    by apply collect_found_nodup.
  - destruct (word self); [apply NoDup_singleton|constructor].
Qed.

(** The string the keys of a path spell. *)
Definition spell (path : list string) : string :=
  foldr String.append "" path.

Lemma spell_chars w : spell (chars w) = w.
Proof. induction w as [|x w IH]; [done|]. simpl. by rewrite IH. Qed.

(** Every word found spells a path of the trie that ends in a word
    boundary and uses no letter more often than the letters given. *)
Lemma search_sound_jumble self letters w :
  w ∈ search self letters →
  ∃ path m, w = letter self +:+ spell path ∧
            descend self path = Some m ∧ word m = true ∧ path ⊆+ letters.
Proof.
  revert letters w. induction self as [self IH] using jumble_node_ind.
  intros letters w Hw.
  apply elem_of_search_jumble in Hw
    as [[Hword ->]|(i & k & child & w' & Hk & Hchild & Hw' & ->)].
  - exists [], self. rewrite append_empty_r. repeat split; try done.
    apply submseteq_nil_l.
  - destruct (get_Some _ _ _ Hchild) as [Hin Hletter].
    destruct (IH child Hin _ _ Hw') as (path & m & -> & Hm & Hword & Hsub).
    exists (k :: path), m. simpl. rewrite Hchild, Hletter.
    repeat split; try done.
    rewrite (delete_Permutation letters i k Hk). by apply submseteq_skip.
Qed.

(** Every path to a word boundary that uses no letter more often than
    the letters given is found. *)
Lemma search_complete_jumble self letters path m :
  descend self path = Some m → word m = true → path ⊆+ letters →
  letter self +:+ spell path ∈ search self letters.
Proof.
  revert self letters. induction path as [|k path IH];
    intros self letters Hm Hword Hsub; simpl in Hm.
  - injection Hm as <-. simpl. rewrite append_empty_r.
    apply elem_of_search_jumble. by left.
  - destruct (get self k) as [child|] eqn:Hchild; [|done].
    destruct (get_Some _ _ _ Hchild) as [_ Hletter].
    assert (k ∈ letters) as [i Hi]%list_elem_of_lookup
      by (eapply elem_of_submseteq; [apply list_elem_of_here|done]).
    apply elem_of_search_jumble. right.
    exists i, k, child, (letter child +:+ spell path).
    split; [done|]. split; [done|]. split; [|by rewrite Hletter].
    apply IH; [done|done|].
    rewrite (delete_Permutation letters i k Hi) in Hsub.
    by apply (submseteq_app_inv_l _ _ [k]).
Qed.

End JumbleFacts.

Section JumbleInsertion.

Import JumbleNode.

Lemma letter_add_from_jumble n ls :
  letter (JumbleSolver.add_from n ls) = letter n.
Proof. destruct ls as [|l ls]; simpl; [done|]. by destruct (get n l). Qed.

Lemma terminal_add_from_jumble n l rest :
  terminal (JumbleSolver.add_from n (l :: rest)) = terminal n.
Proof. simpl. by destruct (get n l). Qed.

Lemma first_with_cons k c ch :
  first_with k (c :: ch) =
    if decide (letter c = k) then Some c else first_with k ch.
Proof. done. Qed.

Lemma replace_first_cons l child' c ch :
  replace_first l child' (c :: ch) =
    if decide (letter c = l) then child' :: ch
    else c :: replace_first l child' ch.
Proof. done. Qed.

Lemma first_with_replace l k child' ch :
  letter child' = l →
  first_with k (replace_first l child' ch) =
    if decide (l = k) then (λ _, child') <$> first_with l ch
    else first_with k ch.
Proof.
  intros Hl. induction ch as [|c ch IH].
  - simpl. by destruct (decide (l = k)).
  - rewrite replace_first_cons, (first_with_cons l c), (first_with_cons k c).
    destruct (decide (letter c = l)) as [Hc|Hc].
    + rewrite first_with_cons.
      destruct (decide (l = k)) as [Hk|Hk].
      * by rewrite decide_True by congruence.
      * rewrite decide_False by congruence.
        by rewrite decide_False by congruence.
    + rewrite first_with_cons.
      destruct (decide (l = k)) as [Hk|Hk].
      * rewrite decide_False by congruence. by rewrite IH.
      * destruct (decide (letter c = k)); [done|]. by rewrite IH.
Qed.

Lemma first_with_snoc k ch c :
  first_with k (ch ++ [c]) =
    match first_with k ch with
    | Some x => Some x
    | None => if decide (letter c = k) then Some c else None
    end.
Proof.
  induction ch as [|c' ch IH]; simpl; [done|].
  by destruct (decide (letter c' = k)).
Qed.

Lemma replace_first_snoc l child' ch c :
  first_with l ch = None → letter c = l →
  replace_first l child' (ch ++ [c]) = ch ++ [child'].
Proof.
  intros Hnone Hc. induction ch as [|c' ch IH]; simpl in *.
  - by rewrite decide_True.
  - destruct (decide (letter c' = l)); [done|]. by rewrite IH.
Qed.

(** The children after one step of [add]. *)
Lemma get_add_from_jumble n l rest k :
  get (JumbleSolver.add_from n (l :: rest)) k =
    if decide (l = k)
    then Some (JumbleSolver.add_from (default (new l) (get n l)) rest)
    else get n k.
Proof.
  cbn [JumbleSolver.add_from]. unfold get.
  destruct (first_with l (nodes n)) as [node|] eqn:Hl; simpl.
  - rewrite first_with_replace.
    + rewrite Hl. by destruct (decide (l = k)).
    + rewrite letter_add_from_jumble. by apply first_with_Some in Hl as [_ ?].
  - rewrite replace_first_snoc by done. rewrite first_with_snoc.
    rewrite letter_add_from_jumble. simpl.
    destruct (decide (l = k)) as [->|Hne].
    + by rewrite Hl.
    + by destruct (first_with k (nodes n)).
Qed.

Lemma nodes_add_from_jumble n l rest :
  nodes (JumbleSolver.add_from n (l :: rest)) ≠ [].
Proof.
  intros H. pose proof (get_add_from_jumble n l rest l) as Hg.
  unfold get at 1 in Hg. rewrite H, decide_True in Hg; done.
Qed.

(** Below the root every node without children ends a word. *)
Inductive tidy : t → Prop :=
| tidy_node n :
    (∀ k child, get n k = Some child →
       (nodes child = [] → terminal child = true) ∧ tidy child) →
    tidy n.

Lemma tidy_child n k child :
  tidy n → get n k = Some child →
  (nodes child = [] → terminal child = true) ∧ tidy child.
Proof. intros [n' H]. apply H. Qed.

Lemma tidy_new l : tidy (new l).
Proof. constructor. intros k child. unfold get. by simpl. Qed.

Lemma add_from_tidy n ls : tidy n → tidy (JumbleSolver.add_from n ls).
Proof.
  revert n. induction ls as [|l rest IH]; intros n Hn.
  - simpl. constructor. intros k child Hk. by apply (tidy_child n k).
  - constructor. intros k child. rewrite get_add_from_jumble.
    case_decide as Hk; [subst k|by apply tidy_child].
    intros [= <-].
    assert (tidy (default (new l) (get n l))) as Hwf.
    { destruct (get n l) as [node|] eqn:Hnode; simpl.
      - by destruct (tidy_child _ _ _ Hn Hnode).
      - apply tidy_new. }
    split; [|by apply IH].
    destruct rest as [|l' rest]; [done|].
    intros H. by apply nodes_add_from_jumble in H.
Qed.

Lemma build_tidy words :
  tidy (JumbleSolver.word_graph (JumbleSolver.build words)).
Proof.
  unfold JumbleSolver.build.
  assert (∀ s, tidy (JumbleSolver.word_graph s) →
            tidy (JumbleSolver.word_graph
                    (fold_left JumbleSolver.add words s))) as H.
  { induction words as [|w words IH]; intros s Hs; [exact Hs|].
    cbn [fold_left]. apply IH. unfold JumbleSolver.add.
    cbn [JumbleSolver.word_graph]. by apply add_from_tidy. }
  apply H, tidy_new.
Qed.

Lemma letter_build_jumble words :
  letter (JumbleSolver.word_graph (JumbleSolver.build words)) = "".
Proof.
  unfold JumbleSolver.build.
  assert (∀ s, letter (JumbleSolver.word_graph
                         (fold_left JumbleSolver.add words s))
               = letter (JumbleSolver.word_graph s)) as H.
  { induction words as [|w words IH]; intros s; [done|].
    cbn [fold_left]. rewrite IH. apply letter_add_from_jumble. }
  by rewrite H.
Qed.

Lemma tidy_descend_terminal n k path m :
  tidy n → descend n (k :: path) = Some m →
  word m = true → terminal m = true.
Proof.
  revert n k. induction path as [|k' path IH]; intros n k Hwf Hm Hword;
    simpl in Hm; destruct (get n k) as [child|] eqn:Hchild;
    try done; destruct (tidy_child _ _ _ Hwf Hchild) as (Hleaf & Hwfc).
  - injection Hm as <-. unfold word in Hword.
    apply orb_true_iff in Hword as [Hsize|?]; [|done].
    apply Hleaf. apply Nat.eqb_eq in Hsize. by destruct (nodes child).
  - by apply (IH child k').
Qed.

(** Is the node at the end of [path] marked as terminal? *)
Definition jumble_terminal_at (n : t) (path : list string) : bool :=
  match descend n path with
  | Some m => terminal m
  | None => false
  end.

Lemma jumble_terminal_at_new l path : jumble_terminal_at (new l) path = false.
Proof. by destruct path. Qed.

Lemma jumble_terminal_at_cons n k path :
  jumble_terminal_at n (k :: path) =
    match get n k with
    | Some child => jumble_terminal_at child path
    | None => false
    end.
Proof. unfold jumble_terminal_at. simpl. by destruct (get n k). Qed.

Lemma jumble_terminal_at_add_from n ls path :
  jumble_terminal_at (JumbleSolver.add_from n ls) path =
    jumble_terminal_at n path || bool_decide (path = ls).
Proof.
  revert n path. induction ls as [|l rest IH]; intros n path.
  - cbn [JumbleSolver.add_from]. destruct path as [|k path].
    + unfold jumble_terminal_at. simpl. by rewrite orb_true_r.
    + rewrite !jumble_terminal_at_cons. unfold get. cbn [set_terminal nodes].
      rewrite (bool_decide_eq_false_2 (k :: path = [])) by done.
      by rewrite orb_false_r.
  - destruct path as [|k path].
    + unfold jumble_terminal_at. cbn [descend].
      rewrite terminal_add_from_jumble.
      rewrite (bool_decide_eq_false_2 ([] = l :: rest)) by done.
      by rewrite orb_false_r.
    + rewrite !jumble_terminal_at_cons, get_add_from_jumble.
      case_decide as Hk.
      * subst k. rewrite IH.
        rewrite (bool_decide_ext (l :: path = l :: rest) (path = rest))
          by (split; congruence).
        destruct (get n l); simpl; [done|].
        by rewrite jumble_terminal_at_new.
      * rewrite bool_decide_eq_false_2 by congruence.
        by rewrite orb_false_r.
Qed.

Lemma jumble_terminal_at_build words path :
  jumble_terminal_at (JumbleSolver.word_graph (JumbleSolver.build words)) path
    = true ↔
  ∃ w, w ∈ words ∧ path = chars w.
Proof.
  unfold JumbleSolver.build.
  assert (∀ s,
    jumble_terminal_at (JumbleSolver.word_graph
                          (fold_left JumbleSolver.add words s)) path = true ↔
    jumble_terminal_at (JumbleSolver.word_graph s) path = true ∨
    ∃ w, w ∈ words ∧ path = chars w) as H.
  { induction words as [|w words IH]; intros s; cbn [fold_left].
    - split; [by left|]. intros [?|(w & Hw & _)]; [done|].
      by apply elem_of_nil in Hw.
    - rewrite IH. unfold JumbleSolver.add.
      cbn [JumbleSolver.word_graph].
      rewrite jumble_terminal_at_add_from, orb_true_iff, bool_decide_eq_true.
      split.
      + intros [[?| ->]|(w' & Hw' & ->)]; [by left| |].
        * right. exists w. split; [by left|done].
        * right. exists w'. split; [by right|done].
      + intros [?|(w' & Hw' & ->)]; [by left; left|].
        apply elem_of_cons in Hw' as [->|Hw']; [by left; right|].
        right. eauto. }
  rewrite H. cbn [JumbleSolver.new JumbleSolver.word_graph].
  rewrite jumble_terminal_at_new. split; [|by right]. by intros [?|?].
Qed.

Lemma occurrences_perm l ls ls' :
  ls ≡ₚ ls' → occurrences l ls = occurrences l ls'.
Proof. intros H. unfold occurrences. by rewrite H. Qed.

(** A list is a sub-multiset of another exactly when no element occurs
    more often in it than in the other. *)
Lemma submseteq_occurrences (ws bs : list ascii) :
  ws ⊆+ bs ↔ ∀ l, occurrences l ws ≤ occurrences l bs.
Proof.
  split.
  - intros Hsub l. apply submseteq_Permutation in Hsub as [k Hk].
    rewrite (occurrences_perm l _ _ Hk), occurrences_app. lia.
  - revert bs. induction ws as [|x ws IH]; intros bs H;
      [apply submseteq_nil_l|].
    assert (x ∈ bs) as [i Hi]%list_elem_of_lookup.
    { specialize (H x). rewrite occurrences_cons, decide_True in H by done.
      destruct (decide (x ∈ bs)) as [|Hnot]; [done|].
      assert (occurrences x bs = 0) as Hzero; [|lia].
      unfold occurrences. apply length_zero_iff_nil.
      destruct (filter (λ y, y = x) bs) as [|y r] eqn:Hf; [done|].
      assert (y ∈ filter (λ y, y = x) bs) as [-> ?]%list_elem_of_filter
        by (rewrite Hf; apply list_elem_of_here). done. }
    apply submseteq_cons_l. exists (delete i bs).
    split; [by apply delete_Permutation|]. apply IH. intros l.
    specialize (H l).
    rewrite (occurrences_perm l bs _ (delete_Permutation bs i x Hi)) in H.
    rewrite !occurrences_cons in H. destruct (decide (x = l)); lia.
Qed.

Lemma chars_submseteq w base :
  chars w ⊆+ chars base ↔ letters_of w ⊆+ letters_of base.
Proof.
  rewrite !chars_letters_of. split; [|by intros ->].
  intros H.
  set (first := λ s : string,
         match s with String x _ => x | EmptyString => "000"%char end).
  assert (∀ ls : list ascii, first <$> (str1 <$> ls) = ls) as Hinv.
  { induction ls as [|x ls IH]; [done|]. rewrite !fmap_cons. by rewrite IH. }
  rewrite <-(Hinv (letters_of w)), <-(Hinv (letters_of base)). by rewrite H.
Qed.

End JumbleInsertion.

Section JumbleProperties.

Lemma spell_nil_inv path :
  Forall (λ k, ∃ x, k = str1 x) path → spell path = "" → path = [].
Proof. intros [|k rest [x ->] _]; [done|]. discriminate. Qed.

Lemma submseteq_chars path base :
  path ⊆+ chars base → ∃ w, path = chars w.
Proof.
  intros Hsub.
  assert (Forall (λ k, ∃ x, k = str1 x) path) as Hall.
  { apply Forall_forall. intros k Hk.
    pose proof (elem_of_submseteq _ _ _ Hk Hsub) as Hin.
    pose proof (chars_str1 base) as Hb.
    by eapply Forall_forall in Hb. }
  clear Hsub. induction Hall as [|k rest [x ->] _ [w ->]].
  - by exists "".
  - by exists (String x w).
Qed.

(** [JumbleSolver.search] returns a non-empty word exactly when it was
    inserted and uses no letter more often than the word searched for
    holds it. *)
Theorem jumble_search_exact words base w :
  w ≠ "" →
  w ∈ JumbleSolver.search (JumbleSolver.build words) base ↔
  w ∈ words ∧
  ∀ l, occurrences l (letters_of w) ≤ occurrences l (letters_of base).
Proof.
  intros Hne. unfold JumbleSolver.search.
  rewrite <-submseteq_occurrences, <-chars_submseteq. split.
  - intros (path & m & Hw & Hm & Hword & Hsub)%search_sound_jumble.
    rewrite letter_build_jumble in Hw.
    change ("" +:+ spell path) with (spell path) in Hw.
    destruct (submseteq_chars _ _ Hsub) as [w' ->].
    rewrite spell_chars in Hw. subst w'. split; [|done].
    destruct (chars w) as [|k path] eqn:Hchars; [by destruct w|].
    pose proof (tidy_descend_terminal _ _ _ _ (build_tidy words) Hm Hword)
      as Hterm.
    destruct (proj1 (jumble_terminal_at_build words (k :: path)))
      as (w' & Hw' & Heq).
    { unfold jumble_terminal_at. by rewrite Hm. }
    rewrite <-Hchars in Heq. by apply chars_inj in Heq as ->.
  - intros [Hw Hsub].
    pose proof (proj2 (jumble_terminal_at_build words (chars w))) as Hterm.
    unfold jumble_terminal_at in Hterm.
    destruct (JumbleNode.descend _ (chars w)) as [m|] eqn:Hm;
      [|discriminate Hterm; eauto].
    assert (JumbleNode.word m = true) as Hword.
    { unfold JumbleNode.word. rewrite Hterm by eauto. apply orb_true_r. }
    pose proof (search_complete_jumble _ _ _ _ Hm Hword Hsub) as Hin.
    rewrite letter_build_jumble, spell_chars in Hin. exact Hin.
Qed.

Lemma jumble_search_exact_witness :
  ("tee" : string) ≠ "" ∧
  "tee" ∈ JumbleSolver.search (JumbleSolver.build ["tree"; "tee"; "rat"])
            "letter".
Proof.
  split; [done|].
  apply (jumble_search_exact ["tree"; "tee"; "rat"] "letter" "tee"); [done|].
  split; [apply list_elem_of_further, list_elem_of_here|].
  apply submseteq_occurrences.
  apply (bool_decide_unpack _). vm_compute. exact I.
Defined.

(** [JumbleSolver.search] returns no word twice. *)
Theorem jumble_search_nodup self base :
  NoDup (JumbleSolver.search self base).
Proof. apply search_nodup_jumble. Qed.

(** The two jumble solvers agree: the trie finds a non-empty word exactly
    when it was inserted and passes [word_composition_check] against the
    letter counts of the word searched for. *)
Theorem jumble_trie_agrees_with_scan words base w :
  w ≠ "" →
  w ∈ JumbleSolver.search (JumbleSolver.build words) base ↔
  w ∈ words ∧
  (JumbleScan.word_composition_check
     (JumbleScan.build_base_letter_count base) w).1 = true.
Proof.
  intros Hne. unfold JumbleSolver.search, JumbleScan.word_composition_check.
  rewrite check_letters_spec.
  assert ((∀ l, 0 < occurrences l (letters_of w) →
             ∃ n, JumbleScan.build_base_letter_count base !! l = Some n ∧
                  (Z.of_nat (occurrences l (letters_of w)) ≤ n)%Z) ↔
          chars w ⊆+ chars base) as ->.
  { rewrite chars_submseteq, submseteq_occurrences. split.
    - intros H l.
      destruct (decide (0 < occurrences l (letters_of w))) as [Hpos|]; [|lia].
      destruct (H l Hpos) as (n & Hn & Hle).
      rewrite (build_counts base l) in Hn.
      destruct (decide (occurrences l (letters_of base) = 0)); [done|].
      injection Hn as <-. lia.
    - intros H l Hpos. specialize (H l). rewrite (build_counts base l).
      rewrite decide_False by lia. eexists. split; [done|]. lia. }
  split.
  - intros (path & m & Hw & Hm & Hword & Hsub)%search_sound_jumble.
    rewrite letter_build_jumble in Hw.
    change ("" +:+ spell path) with (spell path) in Hw.
    destruct (submseteq_chars _ _ Hsub) as [w' ->].
    rewrite spell_chars in Hw. subst w'. split; [|done].
    destruct (chars w) as [|k path] eqn:Hchars; [by destruct w|].
    pose proof (tidy_descend_terminal _ _ _ _ (build_tidy words) Hm Hword)
      as Hterm.
    destruct (proj1 (jumble_terminal_at_build words (k :: path)))
      as (w' & Hw' & Heq).
    { unfold jumble_terminal_at. by rewrite Hm. }
    rewrite <-Hchars in Heq. by apply chars_inj in Heq as ->.
  - intros [Hw Hsub].
    pose proof (proj2 (jumble_terminal_at_build words (chars w))) as Hterm.
    unfold jumble_terminal_at in Hterm.
    destruct (JumbleNode.descend _ (chars w)) as [m|] eqn:Hm;
      [|discriminate Hterm; eauto].
    assert (JumbleNode.word m = true) as Hword.
    { unfold JumbleNode.word. rewrite Hterm by eauto. apply orb_true_r. }
    pose proof (search_complete_jumble _ _ _ _ Hm Hword Hsub) as Hin.
    rewrite letter_build_jumble, spell_chars in Hin. exact Hin.
Qed.

Lemma jumble_trie_agrees_with_scan_witness :
  ("tee" : string) ≠ "" ∧
  "tee" ∈ ["tree"; "tee"; "rat"] ∧
  (JumbleScan.word_composition_check
     (JumbleScan.build_base_letter_count "letter") "tee").1 = true.
Proof.
  split; [done|].
  apply (jumble_trie_agrees_with_scan ["tree"; "tee"; "rat"] "letter" "tee");
    [done|].
  vm_compute. apply list_elem_of_here.
Defined.

End JumbleProperties.

Section JumbleIdempotent.

Import JumbleNode.

Lemma replace_first_id l c ch :
  first_with l ch = Some c → replace_first l c ch = ch.
Proof.
  induction ch as [|c' ch IH]; [done|].
  rewrite first_with_cons, replace_first_cons.
  destruct (decide (letter c' = l)); [by intros [= ->]|].
  intros H. by rewrite IH.
Qed.

Lemma add_from_idempotent_jumble n ls :
  JumbleSolver.add_from (JumbleSolver.add_from n ls) ls
  = JumbleSolver.add_from n ls.
Proof.
  revert n. induction ls as [|l rest IH]; intros n; [done|].
  pose proof (get_add_from_jumble n l rest l) as Hget.
  rewrite decide_True in Hget by done.
  set (n' := JumbleSolver.add_from n (l :: rest)) in *.
  cbn [JumbleSolver.add_from]. rewrite Hget, IH.
  unfold with_child. unfold get at 1 in Hget.
  rewrite (replace_first_id _ _ _ Hget). by destruct n'.
Qed.

(** Inserting a word a second time leaves the jumble solver as it is. *)
Theorem jumble_add_idempotent self word :
  JumbleSolver.add (JumbleSolver.add self word) word
  = JumbleSolver.add self word.
Proof.
  unfold JumbleSolver.add. cbn [JumbleSolver.word_graph].
  by rewrite add_from_idempotent_jumble.
Qed.

End JumbleIdempotent.
